(** * VA_space: chunk loading, transform offloading and data cache

    A shallow embedding of the progressive loading / background
    transformation / caching pipeline of the va-visualization
    application, and the properties its specification states about it;
    then further properties of the same code and of what it works
    with: the messages of the worker, the validator, the in-memory data
    manager, the retries of the HTTP client, the colour scales and the
    screen coordinates.

    Conventions of the embedding.
    - JavaScript numbers that hold measurements (valence, arousal,
      confidence, progress, screen coordinates, delays) are exact
      rationals [Q], compared with [<=] on [Q] and equal up to [==]:
      the rounding of floating-point operations is not modelled;
      counters, sizes and chunk indices are [nat]; clock readings
      ([Date.now()], in milliseconds) and ttl values (in seconds) are
      [Z].
    - An optional field of a TypeScript interface is an [option].
    - A JavaScript [Map] whose iteration order is observable (the cache
      store) is an association list in insertion order; a [Map] used only
      through [get]/[set]/[has]/[delete] (the pending requests of the
      worker manager) is a [gmap].
    - [console.log] output is not part of the model, except for the
      warning of the worker manager, which the specification mentions. *)

From stdpp Require Import base option list strings pretty gmap.
From Stdlib Require Import Ascii ZArith QArith Qminmax Qround Qpower Lia Lqa.
From Equations Require Import Equations.

Open Scope string_scope.
Open Scope list_scope.
Close Scope Q_scope.
Open Scope nat_scope.

(** ** Data model (lib/types/emotion.types.ts) *)

Inductive MergeStrategy : Type :=
  | both_weighted
  | warriner_only
  | nrc_only
  | unknown.

Record IRawEmotionData : Type := {
  raw_term : string;
  raw_valence : Q;
  raw_arousal : Q;
  raw_dominance : option Q;
  raw_confidence : option Q;
  raw_merge_strategy : option string;
  raw_source_warriner : option bool;
  raw_source_nrc : option bool;
  raw_is_multiword : option bool;
}.

Record IEmotionMetadata : Type := {
  sourceWarriner : option bool;
  sourceNRC : option bool;
  rawData : option IRawEmotionData;
}.

Record IEmotionData : Type := {
  term : string;
  valence : Q;
  arousal : Q;
  dominance : option Q;
  confidence : Q;
  mergeStrategy : MergeStrategy;
  isMultiword : bool;
  metadata : option IEmotionMetadata;
}.

Record IRenderablePoint : Type := {
  p_term : string;
  p_x : Q;
  p_y : Q;
  p_valence : Q;
  p_arousal : Q;
  p_confidence : Q;
  p_mergeStrategy : MergeStrategy;
  p_isMultiword : bool;
  p_color : string;
  p_size : nat;
}.

(** [a >= b] on JavaScript numbers. *)
Definition num_ge (a b : Q) : bool := Qle_bool b a.

(** A JavaScript number that may be infinite or [NaN]. *)
Inductive jsnum : Type :=
  | Fin (q : Q)
  | PosInf
  | NegInf
  | NaN.

(** ** The background transform (dataWorker.js, the script of the worker) *)

Module DataWorker.

Definition getConfidenceColor (confidence : Q) : string :=
  if num_ge confidence (8 # 10) then "#10b981"
  else if num_ge confidence (7 # 10) then "#f59e0b"
  else "#ef4444".

Definition POINT_SIZE_DEFAULT : nat := 2.
Definition POINT_SIZE_MULTIWORD : nat := 3.

Definition transformEmotionData
    (emotions : list IEmotionData) (canvasWidth canvasHeight : Q)
    : list IRenderablePoint :=
  map (fun emotion =>
         let color := getConfidenceColor (confidence emotion) in
         let size := if isMultiword emotion
                     then POINT_SIZE_MULTIWORD else POINT_SIZE_DEFAULT in
         {| p_term := term emotion;
            p_x := valence emotion;
            p_y := arousal emotion;
            p_valence := valence emotion;
            p_arousal := arousal emotion;
            p_confidence := confidence emotion;
            p_mergeStrategy := mergeStrategy emotion;
            p_isMultiword := isMultiword emotion;
            p_color := color;
            p_size := size |})
      emotions.

(** [calculateStatistics].  The results of [Math.min], [Math.max] and
    of a division are JavaScript numbers, which may be infinite or
    [NaN]. *)

Definition Math_min (xs : list Q) : jsnum :=
  match xs with
  | [] => PosInf
  | x :: r => Fin (fold_left Qmin r x)
  end.

Definition Math_max (xs : list Q) : jsnum :=
  match xs with
  | [] => NegInf
  | x :: r => Fin (fold_left Qmax r x)
  end.

(** [sum / n] for a list length [n] *)
Definition js_div (a : Q) (n : nat) : jsnum :=
  match n with
  | O => if Qeq_bool a 0%Q then NaN
         else if Qle_bool 0%Q a then PosInf else NegInf
  | S _ => Fin (a / inject_Z (Z.of_nat n))%Q
  end.

Record range : Type := { r_min : jsnum; r_max : jsnum }.

Record statistics : Type := {
  s_totalCount : nat;
  valenceRange : range;
  arousalRange : range;
  confidenceRange : range;
  averageConfidence : jsnum;
}.

Definition valenceValues (emotions : list IEmotionData) : list Q :=
  map valence emotions.
Definition arousalValues (emotions : list IEmotionData) : list Q :=
  map arousal emotions.
Definition confidenceValues (emotions : list IEmotionData) : list Q :=
  map confidence emotions.

(** The statements after the [emotions.length === 0] guard. *)
Definition statisticsBody (emotions : list IEmotionData) : statistics :=
  {| s_totalCount := length emotions;
     valenceRange := {| r_min := Math_min (valenceValues emotions);
                        r_max := Math_max (valenceValues emotions) |};
     arousalRange := {| r_min := Math_min (arousalValues emotions);
                        r_max := Math_max (arousalValues emotions) |};
     confidenceRange := {| r_min := Math_min (confidenceValues emotions);
                           r_max := Math_max (confidenceValues emotions) |};
     averageConfidence :=
       js_div (fold_left Qplus (confidenceValues emotions) 0%Q)
              (length (confidenceValues emotions)) |}.

Definition zeroStatistics : statistics :=
  {| s_totalCount := 0;
     valenceRange := {| r_min := Fin 0; r_max := Fin 0 |};
     arousalRange := {| r_min := Fin 0; r_max := Fin 0 |};
     confidenceRange := {| r_min := Fin 0; r_max := Fin 0 |};
     averageConfidence := Fin 0 |}.

Definition calculateStatistics (emotions : list IEmotionData) : statistics :=
  if (length emotions =? 0)%nat then zeroStatistics
  else statisticsBody emotions.

End DataWorker.

(** ** The synchronous transform
    (lib/core/visualization/EmotionDataTransformer.ts, with the constants
    of lib/constants/colors.const.ts and visualization.const.ts) *)

Module EmotionDataTransformer.

Definition CONFIDENCE_COLORS_HIGH : string := "#7CB342".
Definition CONFIDENCE_COLORS_MEDIUM : string := "#FF8A65".
Definition CONFIDENCE_COLORS_LOW : string := "#E57373".

Definition CONFIDENCE_THRESHOLDS_HIGH : Q := 8 # 10.
Definition CONFIDENCE_THRESHOLDS_MEDIUM : Q := 7 # 10.

Definition getConfidenceColor (confidence : Q) : string :=
  if num_ge confidence CONFIDENCE_THRESHOLDS_HIGH
  then CONFIDENCE_COLORS_HIGH
  else if num_ge confidence CONFIDENCE_THRESHOLDS_MEDIUM
  then CONFIDENCE_COLORS_MEDIUM
  else CONFIDENCE_COLORS_LOW.

Definition POINT_SIZE_DEFAULT : nat := 3.
Definition POINT_SIZE_MULTIWORD : nat := 4.

Definition transformSingleEmotion
    (emotion : IEmotionData) (canvasWidth canvasHeight : Q)
    : IRenderablePoint :=
  let color := getConfidenceColor (confidence emotion) in
  let size := if isMultiword emotion
              then POINT_SIZE_MULTIWORD else POINT_SIZE_DEFAULT in
  {| p_term := term emotion;
     p_x := valence emotion;
     p_y := arousal emotion;
     p_valence := valence emotion;
     p_arousal := arousal emotion;
     p_confidence := confidence emotion;
     p_mergeStrategy := mergeStrategy emotion;
     p_isMultiword := isMultiword emotion;
     p_color := color;
     p_size := size |}.

Definition transformToRenderable
    (emotions : list IEmotionData) (canvasWidth canvasHeight : Q)
    : list IRenderablePoint :=
  map (fun emotion => transformSingleEmotion emotion canvasWidth canvasHeight)
      emotions.

End EmotionDataTransformer.

(** ** The chunk loader (lib/data/loaders/ChunkedDataLoader.ts) *)

Module ChunkedDataLoader.

Definition MAX_CONCURRENT_REQUESTS : nat := 8.

Record IEmotionApiMetadata : Type := {
  totalCount : nat;
  chunkSize : nat;
  totalChunks : nat;
}.

(** The [switch] compares the raw string as it is; an absent field
    falls to [default]. *)
Definition normalizeMergeStrategy (strategy : option string) : MergeStrategy :=
  match strategy with
  | Some "both_weighted" => both_weighted
  | Some "warriner_only" => warriner_only
  | Some "nrc_only" => nrc_only
  | _ => unknown
  end.

Definition normalizeEmotionData (raw : IRawEmotionData) : IEmotionData :=
  {| term := raw_term raw;
     valence := raw_valence raw;
     arousal := raw_arousal raw;
     dominance := raw_dominance raw;
     confidence := default (5 # 10)%Q (raw_confidence raw);
     mergeStrategy := normalizeMergeStrategy (raw_merge_strategy raw);
     isMultiword := default false (raw_is_multiword raw);
     metadata := Some {| sourceWarriner := raw_source_warriner raw;
                         sourceNRC := raw_source_nrc raw;
                         rawData := Some raw |} |}.

(** *** Progressive loading

    The remote source: [fetchMetadata] is [None] when the response is
    not ok; [fetchChunk id] is [None] when the response is not ok or
    its body does not decode. *)

Record remote : Type := {
  fetchMetadata : option IEmotionApiMetadata;
  fetchChunk : nat -> option (list IRawEmotionData);
}.

(** The state of a loader instance is its memoized metadata. *)
Definition loader : Type := option IEmotionApiMetadata.

(** [getMetadata]: [None] in the first component is the thrown error. *)
Definition getMetadata (env : remote) (this : loader)
    : option IEmotionApiMetadata * loader :=
  match this with
  | Some m => (Some m, this)
  | None =>
      match fetchMetadata env with
      | Some m => (Some m, Some m)
      | None => (None, None)
      end
  end.

Definition loadChunk (env : remote) (chunkId : nat) : option (list IEmotionData) :=
  match fetchChunk env chunkId with
  | Some rawData => Some (map normalizeEmotionData rawData)
  | None => None
  end.

(** The inner [for] loop: the chunk ids whose fetches are pushed on
    [chunkPromises], in the order they are pushed. *)
Equations? issueBatch (i totalChunks j : nat) (chunkPromises : list nat)
    : list nat by wf (MAX_CONCURRENT_REQUESTS - j) lt :=
  issueBatch i totalChunks j chunkPromises
    with lt_dec j MAX_CONCURRENT_REQUESTS => {
    | left _ with lt_dec (i + j) totalChunks => {
        | left _ := issueBatch i totalChunks (S j) (chunkPromises ++ [i + j]);
        | right _ := chunkPromises };
    | right _ := chunkPromises }.
Proof. all: unfold MAX_CONCURRENT_REQUESTS in *; lia. Qed.

(** One invocation of [onProgress], as the caller observes it. *)
Definition progressCall : Type := Q * list IEmotionData.

Definition progressOf (loadedChunks totalChunks : nat) : Q :=
  (inject_Z (Z.of_nat loadedChunks) / inject_Z (Z.of_nat totalChunks) * 100)%Q.

(** The body of [chunks.forEach]: the state is [loadedChunks] and the
    calls made so far. *)
Definition reportChunk (totalChunks : nat)
    (st : nat * list progressCall) (chunk : list IEmotionData)
    : nat * list progressCall :=
  let loadedChunks := S (fst st) in
  let progress := progressOf loadedChunks totalChunks in
  (loadedChunks, snd st ++ [(progress, chunk)]).

Inductive outcome : Type :=
  | Resolved (calls : list progressCall)
  | Rejected (calls : list progressCall).

(** The outer [for] loop.  [Promise.all] over the batch is [mapM]: it
    yields the chunks in the order of the promises, or fails when a
    member fails. *)
Equations? batchLoop (env : remote) (totalChunks i loadedChunks : nat)
    (calls : list progressCall) : outcome by wf (totalChunks - i) lt :=
  batchLoop env totalChunks i loadedChunks calls with lt_dec i totalChunks => {
    | right _ := Resolved calls;
    | left _ with mapM (loadChunk env) (issueBatch i totalChunks 0 []) => {
        | None := Rejected calls;
        | Some chunks :=
            batchLoop env totalChunks (i + MAX_CONCURRENT_REQUESTS)
              (fst (fold_left (reportChunk totalChunks) chunks (loadedChunks, calls)))
              (snd (fold_left (reportChunk totalChunks) chunks (loadedChunks, calls))) } }.
Proof. all: unfold MAX_CONCURRENT_REQUESTS; lia. Qed.

Definition loadDataProgressively (env : remote) (this : loader)
    : outcome * loader :=
  match getMetadata env this with
  | (Some metadata, this') => (batchLoop env (totalChunks metadata) 0 0 [], this')
  | (None, this') => (Rejected [], this')
  end.

(** [loadData]: the callback pushes every chunk on [allData]. *)
Definition loadData (env : remote) (this : loader)
    : option (list IEmotionData) * loader :=
  match loadDataProgressively env this with
  | (Resolved calls, this') => (Some (concat (map snd calls)), this')
  | (Rejected _, this') => (None, this')
  end.

(** *** The fetches in flight

    The same loop as the event loop runs it.  Each [this.loadChunk(id)]
    of the inner loop starts its fetch at once, so a batch is issued as
    a whole; [await Promise.all(chunkPromises)] then suspends the loader
    until every member is fulfilled, which resumes the loop with the next
    [i], or until one is rejected, which ends the call with the others
    still in flight.  The environment settles the fetches in any order.
    [inFlight] holds the fetches issued and not yet settled; [issueLog]
    records every batch with the number of fetches that were in flight
    when it was issued. *)

Inductive control : Type :=
  | Awaiting (i : nat) (unsettled : list nat)
  | Finished (ok : bool).

Record execution : Type := {
  ctl : control;
  inFlight : list nat;
  issueLog : list (list nat * nat);
}.

(** Run from the head of the outer loop to the next suspension. *)
Definition resumeAt (totalChunks i : nat) (e : execution) : execution :=
  if decide (i < totalChunks) then
    let ids := issueBatch i totalChunks 0 [] in
    {| ctl := Awaiting i ids;
       inFlight := inFlight e ++ ids;
       issueLog := issueLog e ++ [(ids, length (inFlight e))] |}
  else
    {| ctl := Finished true; inFlight := inFlight e; issueLog := issueLog e |}.

(** The call enters the loop with [i = 0] and nothing in flight. *)
Definition start (totalChunks : nat) : execution :=
  resumeAt totalChunks 0 {| ctl := Finished true; inFlight := []; issueLog := [] |}.

(** [ids] less [chunkId]. *)
Definition without (chunkId : nat) (ids : list nat) : list nat :=
  filter (fun c => c ≠ chunkId) ids.

(** The fetch of [chunkId] settles, fulfilled ([ok]) or rejected; a
    settlement of a fetch that is not in flight cannot happen and
    changes nothing. *)
Definition onSettled (totalChunks : nat) (e : execution)
    (chunkId : nat) (ok : bool) : execution :=
  if bool_decide (chunkId ∈ inFlight e) then
    let e1 := {| ctl := ctl e; inFlight := without chunkId (inFlight e);
                 issueLog := issueLog e |} in
    match ctl e with
    | Awaiting i unsettled =>
        if ok then
          match without chunkId unsettled with
          | [] => resumeAt totalChunks (i + MAX_CONCURRENT_REQUESTS) e1
          | rest => {| ctl := Awaiting i rest; inFlight := inFlight e1;
                       issueLog := issueLog e1 |}
          end
        else {| ctl := Finished false; inFlight := inFlight e1;
                issueLog := issueLog e1 |}
    | Finished _ => e1
    end
  else e.

(** An execution of the call: the settlements, in the order they happen. *)
Definition settle (totalChunks : nat) (e : execution) (ev : nat * bool)
    : execution :=
  onSettled totalChunks e (fst ev) (snd ev).

Definition run (totalChunks : nat) (events : list (nat * bool)) : execution :=
  fold_left (settle totalChunks) events (start totalChunks).

(** While the loader is suspended the fetches in flight are the unsettled
    members of its current batch; every batch was issued with nothing in
    flight. *)
Definition batchInvariant (e : execution) : Prop :=
  match ctl e with
  | Awaiting _ unsettled => inFlight e = unsettled
  | Finished _ => True
  end ∧
  length (inFlight e) ≤ MAX_CONCURRENT_REQUESTS ∧
  Forall (fun b => length (fst b) ≤ MAX_CONCURRENT_REQUESTS ∧ snd b = 0)
         (issueLog e).

(** The first [n] batches of the loop, for [i = 0, 8, 16, ...]. *)
Definition batchesOf (totalChunks n : nat) : list (list nat) :=
  map (fun k => issueBatch (k * MAX_CONCURRENT_REQUESTS) totalChunks 0 [])
      (seq 0 n).

(** The batches issued so far are the first batches of the loop, and a
    suspended loader waits for the last of them. *)
Definition sequentialLog (totalChunks : nat) (e : execution) : Prop :=
  ∃ n, map fst (issueLog e) = batchesOf totalChunks n ∧
       match ctl e with
       | Awaiting i _ => i + MAX_CONCURRENT_REQUESTS = n * MAX_CONCURRENT_REQUESTS
       | Finished _ => True
       end.

End ChunkedDataLoader.

(** ** The validator (lib/utils/validation/data.validator.ts)

    Strings are taken in the ASCII range: [trim] strips the ASCII white
    space characters and [toLowerCase] folds [A-Z]. *)

Module Validator.

Definition is_space (c : ascii) : bool :=
  let n := nat_of_ascii c in
  (n =? 32)%nat || ((9 <=? n)%nat && (n <=? 13)%nat).

Fixpoint trimStart (s : string) : string :=
  match s with
  | String c r => if is_space c then trimStart r else s
  | EmptyString => EmptyString
  end.

(** [trimEnd]: a character is kept when it is not white space or when
    something remains after it. *)
Fixpoint trimEnd (s : string) : string :=
  match s with
  | String c r =>
      match trimEnd r with
      | EmptyString => if is_space c then EmptyString else String c EmptyString
      | r' => String c r'
      end
  | EmptyString => EmptyString
  end.

Definition trim (s : string) : string := trimEnd (trimStart s).

Definition lower_ascii (c : ascii) : ascii :=
  let n := nat_of_ascii c in
  if (65 <=? n)%nat && (n <=? 90)%nat then ascii_of_nat (n + 32) else c.

Fixpoint toLowerCase (s : string) : string :=
  match s with
  | String c r => String (lower_ascii c) (toLowerCase r)
  | EmptyString => EmptyString
  end.

Definition isEmpty (value : string) : bool :=
  (String.length (trim value) =? 0)%nat.

Definition isNonEmptyString (value : string) : bool := negb (isEmpty value).

Definition isNumberInRange (value min max : Q) : bool :=
  num_ge value min && Qle_bool value max.

Definition VALENCE_MIN : Q := -1.
Definition VALENCE_MAX : Q := 1.
Definition AROUSAL_MIN : Q := -1.
Definition AROUSAL_MAX : Q := 1.
Definition MIN_CONFIDENCE : Q := 0.
Definition MAX_CONFIDENCE : Q := 1.

Definition isValidValence (value : Q) : bool :=
  isNumberInRange value VALENCE_MIN VALENCE_MAX.
Definition isValidArousal (value : Q) : bool :=
  isNumberInRange value AROUSAL_MIN AROUSAL_MAX.
Definition isValidConfidence (value : Q) : bool :=
  isNumberInRange value MIN_CONFIDENCE MAX_CONFIDENCE.

Definition isValidMergeStrategy (value : string) : bool :=
  bool_decide (value ∈ ["both_weighted"; "warriner_only"; "nrc_only"; "unknown"]).

(** The messages pushed on [errors] and [warnings]. *)
Inductive issue : Type :=
  | TermEmptyOrInvalid
  | ValenceOutOfRange
  | ArousalOutOfRange
  | ConfidenceInvalid
  | MergeStrategyInvalid.

Record IEmotionDataValidation : Type := {
  isValid : bool;
  errors : list issue;
  warnings : list issue;
}.

Definition validateRawEmotionData (d : IRawEmotionData) : IEmotionDataValidation :=
  let errors :=
    (if isNonEmptyString (raw_term d) then [] else [TermEmptyOrInvalid]) ++
    (if isValidValence (raw_valence d) then [] else [ValenceOutOfRange]) ++
    (if isValidArousal (raw_arousal d) then [] else [ArousalOutOfRange]) in
  let warnings :=
    (match raw_confidence d with
     | Some c => if isValidConfidence c then [] else [ConfidenceInvalid]
     | None => []
     end) ++
    (match raw_merge_strategy d with
     | Some m => if isValidMergeStrategy m then [] else [MergeStrategyInvalid]
     | None => []
     end) in
  {| isValid := (length errors =? 0)%nat; errors := errors; warnings := warnings |}.

Definition sanitizeString (value : string) : string := toLowerCase (trim value).

(** [Math.max(min, Math.min(max, value))] *)
Definition clampNumber (value min max : Q) : Q := Qmax min (Qmin max value).

Definition clampValence (value : Q) : Q := clampNumber value VALENCE_MIN VALENCE_MAX.
Definition clampArousal (value : Q) : Q := clampNumber value AROUSAL_MIN AROUSAL_MAX.
Definition clampConfidence (value : Q) : Q :=
  clampNumber value MIN_CONFIDENCE MAX_CONFIDENCE.

(** *** Validation of an array of raw records

    The messages of [validateEmotionDataArray], with the numbers they
    carry. *)
Inductive arrayIssue : Type :=
  | SampledInvalid (sampleSize invalidCount : nat)
  | ArrayEmpty
  | CountExceedsMaximum (count : nat)
  | DuplicateTerm.

Record arrayValidation : Type := {
  a_isValid : bool;
  a_errors : list arrayIssue;
  a_warnings : list arrayIssue;
}.

Definition MAX_EMOTION_COUNT : Z := 100000.

(** [Array.from({ length: sampleSize }, (_, i) =>
    Math.floor((i * data.length) / sampleSize))] *)
Definition sampleIndices (len : nat) : list nat :=
  let sampleSize := min 100 len in
  map (fun i => (i * len) / sampleSize) (seq 0 sampleSize).

(** [validateRawEmotionData(data[index])]: an index outside the array
    reads [undefined], which is not an object. *)
Definition sampleIsValid (data : list IRawEmotionData) (index : nat) : bool :=
  match data !! index with
  | Some d => isValid (validateRawEmotionData d)
  | None => false
  end.

Definition hasNoDuplicates (terms : list string) : bool :=
  bool_decide (NoDup terms).

Definition validateEmotionDataArray (data : list IRawEmotionData)
    : arrayValidation :=
  let sampleSize := min 100 (length data) in
  let invalidCount :=
    length (List.filter (fun index => negb (sampleIsValid data index))
                        (sampleIndices (length data))) in
  let errors :=
    if (0 <? invalidCount)%nat then [SampledInvalid sampleSize invalidCount]
    else [] in
  let warnings :=
    (if (0 <? length data)%nat then [] else [ArrayEmpty]) ++
    (if (MAX_EMOTION_COUNT <? Z.of_nat (length data))%Z
     then [CountExceedsMaximum (length data)] else []) ++
    (if hasNoDuplicates (map raw_term data) then [] else [DuplicateTerm]) in
  {| a_isValid := (length errors =? 0)%nat;
     a_errors := errors; a_warnings := warnings |}.

End Validator.

(** ** The normalizer of the in-memory data manager
    (EmotionDataManager.ts) *)

Module EmotionDataManager.

Definition normalizeMergeStrategy (strategy : option string) : MergeStrategy :=
  match strategy with
  | None | Some EmptyString => unknown
  | Some s =>
      match Validator.toLowerCase s with
      | "both_weighted" => both_weighted
      | "warriner_only" => warriner_only
      | "nrc_only" => nrc_only
      | _ => unknown
      end
  end.

(** [None] is the [null] returned for a record that fails validation. *)
Definition normalizeRawData (raw : IRawEmotionData) : option IEmotionData :=
  let validation := Validator.validateRawEmotionData raw in
  if negb (Validator.isValid validation) then None
  else Some
    {| term := Validator.sanitizeString (raw_term raw);
       valence := Validator.clampValence (raw_valence raw);
       arousal := Validator.clampArousal (raw_arousal raw);
       dominance := raw_dominance raw;
       confidence := match raw_confidence raw with
                     | Some c => Validator.clampConfidence c
                     | None => (7 # 10)%Q
                     end;
       mergeStrategy := normalizeMergeStrategy (raw_merge_strategy raw);
       isMultiword := default false (raw_is_multiword raw);
       metadata := Some {| sourceWarriner := raw_source_warriner raw;
                           sourceNRC := raw_source_nrc raw;
                           rawData := Some raw |} |}.

End EmotionDataManager.

(** ** The transform offload manager (lib/utils/webWorker.ts)

    A message payload ([data], [result]) is an opaque string.  The
    [resolve]/[reject] pair stored in [pendingMessages] belongs to the
    promise created by one [sendMessage] call; that promise is named by
    the value [messageId] had when it was created. *)

Module WebWorkerManager.

Record WorkerMessage : Type := {
  m_type : string;
  m_id : option string;
  m_result : string;
  m_error : option string;
}.

(** [worker] tells whether [this.worker] is set; [timers] are the
    requests whose [setTimeout] has not fired yet. *)
Record manager : Type := {
  worker : bool;
  messageId : nat;
  pendingMessages : gmap string nat;
  timers : gset nat;
}.

(** What a method does besides changing the manager: it calls the
    [resolve] or the [reject] of the promise [p], returns a promise
    that is already rejected ([RejectUnsent]), writes the warning of an
    unknown id, posts a message to the worker, or throws (the
    [error.message] of an ERROR message without [error]). *)
Inductive effect : Type :=
  | Resolve (p : nat) (result : string)
  | Reject (p : nat) (reason : string)
  | RejectUnsent (reason : string)
  | Warn (id : option string)
  | PostMessage (type : string) (id : string) (data : string)
  | Throw.

Definition initial : manager :=
  {| worker := false; messageId := 0; pendingMessages := ∅; timers := ∅ |}.

(** [`msg_${n}`] *)
Definition msgId (n : nat) : string := "msg_" +:+ pretty n.

(** [this.pendingMessages.get(id)]; an [id] that is [undefined] is not
    a key of the map. *)
Definition pendingOf (this : manager) (id : option string) : option nat :=
  match id with
  | Some i => pendingMessages this !! i
  | None => None
  end.

Definition dropPending (this : manager) (id : option string) : manager :=
  match id with
  | Some i =>
      {| worker := worker this; messageId := messageId this;
         pendingMessages := delete i (pendingMessages this);
         timers := timers this |}
  | None => this
  end.

(** [initialize]: [creatable] tells whether [window.Worker] exists and
    the constructor returns. *)
Definition initialize (this : manager) (creatable : bool) : manager :=
  if worker this then this
  else if creatable then
    {| worker := true; messageId := messageId this;
       pendingMessages := pendingMessages this; timers := timers this |}
  else this.

Definition handleMessage (this : manager) (data : WorkerMessage)
    : manager * list effect :=
  if String.eqb (m_type data) "INITIALIZED" then (this, [])
  else
    match pendingOf this (m_id data) with
    | None => (this, [Warn (m_id data)])
    | Some pending =>
        let this' := dropPending this (m_id data) in
        if String.eqb (m_type data) "SUCCESS"
        then (this', [Resolve pending (m_result data)])
        else if String.eqb (m_type data) "ERROR"
        then match m_error data with
             | Some message => (this', [Reject pending message])
             | None => (this', [Throw])
             end
        else (this', [])
    end.

Definition sendMessage (this : manager) (type data : string)
    : manager * list effect :=
  if negb (worker this) then (this, [RejectUnsent "Worker not initialized"])
  else
    let n := S (messageId this) in
    let id := msgId n in
    ({| worker := worker this; messageId := n;
        pendingMessages := <[id := n]> (pendingMessages this);
        timers := {[n]} ∪ timers this |},
     [PostMessage type id data]).

(** The callback given to [setTimeout] by the [n]-th [sendMessage]. *)
Definition onTimeout (this : manager) (n : nat) : manager * list effect :=
  let id := msgId n in
  match pendingMessages this !! id with
  | Some _ =>
      ({| worker := worker this; messageId := messageId this;
          pendingMessages := delete id (pendingMessages this);
          timers := timers this |},
       [Reject n "Worker message timeout"])
  | None => (this, [])
  end.

Definition terminate (this : manager) : manager :=
  if worker this then
    {| worker := false; messageId := messageId this;
       pendingMessages := ∅; timers := timers this |}
  else this.

(** [transformData], [filterData], [searchData] and
    [calculateStatistics] all are [initialize] followed by
    [sendMessage]. *)
Definition request (this : manager) (creatable : bool) (type data : string)
    : manager * list effect :=
  sendMessage (initialize this creatable) type data.

(** What can happen to a manager: calls of its methods, a message
    from the worker, a timer that expires. *)
Inductive event : Type :=
  | EvInitialize (creatable : bool)
  | EvRequest (creatable : bool) (type data : string)
  | EvMessage (data : WorkerMessage)
  | EvTimeout (n : nat)
  | EvTerminate.

Definition step (this : manager) (ev : event) : manager * list effect :=
  match ev with
  | EvInitialize creatable => (initialize this creatable, [])
  | EvRequest creatable type data => request this creatable type data
  | EvMessage data => handleMessage this data
  | EvTimeout n =>
      if bool_decide (n ∈ timers this) then
        onTimeout {| worker := worker this; messageId := messageId this;
                     pendingMessages := pendingMessages this;
                     timers := timers this ∖ {[n]} |} n
      else (this, [])
  | EvTerminate => (terminate this, [])
  end.

Fixpoint runFrom (this : manager) (events : list event)
    : manager * list effect :=
  match events with
  | [] => (this, [])
  | ev :: rest =>
      let '(this1, out1) := step this ev in
      let '(this2, out2) := runFrom this1 rest in
      (this2, out1 ++ out2)
  end.

(** The promises settled by a run, in order. *)
Definition settledBy (e : effect) : list nat :=
  match e with
  | Resolve p _ | Reject p _ => [p]
  | _ => []
  end.

Definition settled (out : list effect) : list nat :=
  concat (map settledBy out).

(** Every pending entry belongs to a request that was issued under that
    id and has not been settled; no promise was settled twice. *)
Definition consistent (this : manager) (done : list nat) : Prop :=
  (∀ id p, pendingMessages this !! id = Some p ->
     id = msgId p ∧ p ≤ messageId this ∧ p ∉ done) ∧
  NoDup done ∧
  (∀ p, p ∈ done -> p ≤ messageId this).

(** What the worker posts when it starts: a message of type
    INITIALIZED that carries no id. *)
Definition readySignal : WorkerMessage :=
  {| m_type := "INITIALIZED"; m_id := None; m_result := EmptyString; m_error := None |}.

Definition isWarn (e : effect) : bool :=
  match e with Warn _ => true | _ => false end.

(** The ids of the messages posted to the worker by a run, in order. *)
Definition postedId (e : effect) : list string :=
  match e with
  | PostMessage _ id _ => [id]
  | _ => []
  end.

Definition postedIds (out : list effect) : list string :=
  concat (map postedId out).

End WebWorkerManager.

(** ** The data cache (DataCache.ts)

    The store is a JavaScript [Map]: its keys are unique and iterate in
    insertion order, and setting a key that is present keeps its place.
    Every method that reads [Date.now()] takes the reading as [now]. *)

Module DataCache.

Section WithPayload.

Context {T : Type}.

(** A cached value: [null], [undefined], or data. *)
Inductive value : Type :=
  | JNull
  | JUndefined
  | JData (d : T).

Record ICacheEntry : Type := {
  e_data : value;
  e_timestamp : Z;
  e_ttl : Z;
}.

Definition store : Type := list (string * ICacheEntry).

Fixpoint map_get (key : string) (m : store) : option ICacheEntry :=
  match m with
  | [] => None
  | (k, e) :: r => if decide (k = key) then Some e else map_get key r
  end.

Fixpoint map_set (key : string) (entry : ICacheEntry) (m : store) : store :=
  match m with
  | [] => [(key, entry)]
  | (k, e) :: r =>
      if decide (k = key) then (k, entry) :: r
      else (k, e) :: map_set key entry r
  end.

Fixpoint map_delete (key : string) (m : store) : store :=
  match m with
  | [] => []
  | (k, e) :: r =>
      if decide (k = key) then r else (k, e) :: map_delete key r
  end.

Definition map_keys (m : store) : list string := map fst m.

Record DataCache : Type := {
  cache : store;
  hits : nat;
  misses : nat;
  maxSize : nat;
}.

Definition new (maxSize : nat) : DataCache :=
  {| cache := []; hits := 0; misses := 0; maxSize := maxSize |}.

Definition withCache (this : DataCache) (m : store) : DataCache :=
  {| cache := m; hits := hits this; misses := misses this;
     maxSize := maxSize this |}.

(** [now - entry.timestamp > entry.ttl] *)
Definition expired (now : Z) (entry : ICacheEntry) : bool :=
  (e_ttl entry <? now - e_timestamp entry)%Z.

(** [set]; [ttl] is in seconds. *)
Definition set (this : DataCache) (now : Z) (key : string) (data : value)
    (ttl : Z) : DataCache :=
  let evicted :=
    if (maxSize this <=? length (cache this))%nat then
      match map_keys (cache this) with
      | firstKey :: _ => map_delete firstKey (cache this)
      | [] => cache this
      end
    else cache this in
  withCache this
    (map_set key {| e_data := data; e_timestamp := now;
                    e_ttl := (ttl * 1000)%Z |} evicted).

Definition get (this : DataCache) (now : Z) (key : string)
    : value * DataCache :=
  match map_get key (cache this) with
  | None =>
      (JNull, {| cache := cache this; hits := hits this;
                 misses := S (misses this); maxSize := maxSize this |})
  | Some entry =>
      if expired now entry then
        (JNull, {| cache := map_delete key (cache this); hits := hits this;
                   misses := S (misses this); maxSize := maxSize this |})
      else
        (e_data entry, {| cache := cache this; hits := S (hits this);
                          misses := misses this; maxSize := maxSize this |})
  end.

Definition has (this : DataCache) (now : Z) (key : string)
    : bool * DataCache :=
  match map_get key (cache this) with
  | None => (false, this)
  | Some entry =>
      if expired now entry
      then (false, withCache this (map_delete key (cache this)))
      else (true, this)
  end.

Definition delete (this : DataCache) (key : string) : bool * DataCache :=
  (bool_decide (is_Some (map_get key (cache this))),
   withCache this (map_delete key (cache this))).

(** [deleteByPattern]: [regex] is the test of the pattern on a key. *)
Definition deleteByPattern (this : DataCache) (regex : string -> bool)
    : nat * DataCache :=
  (length (filter (fun kv => regex (fst kv) = true) (cache this)),
   withCache this (filter (fun kv => regex (fst kv) ≠ true) (cache this))).

Definition clear (this : DataCache) : DataCache :=
  {| cache := []; hits := 0; misses := 0; maxSize := maxSize this |}.

Definition cleanup (this : DataCache) (now : Z) : nat * DataCache :=
  (length (filter (fun kv => expired now (snd kv) = true) (cache this)),
   withCache this (filter (fun kv => expired now (snd kv) ≠ true) (cache this))).

Definition size (this : DataCache) : nat := length (cache this).

Definition keys (this : DataCache) : list string := map_keys (cache this).

Definition resetStats (this : DataCache) : DataCache :=
  {| cache := cache this; hits := 0; misses := 0; maxSize := maxSize this |}.

Record ICacheStats : Type := {
  st_hits : nat;
  st_misses : nat;
  st_size : nat;
  st_hitRate : Q;
}.

Definition getStats (this : DataCache) : ICacheStats :=
  let total := (hits this + misses this)%nat in
  {| st_hits := hits this;
     st_misses := misses this;
     st_size := length (cache this);
     st_hitRate := if (0 <? total)%nat
                   then (inject_Z (Z.of_nat (hits this)) /
                         inject_Z (Z.of_nat total))%Q
                   else 0%Q |}.

(** The outcome of [getOrSet] / [getOrSetSync]: the value returned
    ([None] when the factory threw and the error propagated), whether
    the factory was invoked, and the cache afterwards. *)
Record fetched : Type := {
  returned : option value;
  factoryInvoked : bool;
  after : DataCache;
}.

(** [getOrSetSync]; the factory yields [None] when it throws.  [now] is
    the clock reading of the [get], [now'] that of the [set]. *)
Definition getOrSetSync (this : DataCache) (now now' : Z) (key : string)
    (factory : unit -> option value) (ttl : Z) : fetched :=
  let '(cached, this1) := get this now key in
  match cached with
  | JNull =>
      match factory tt with
      | Some data =>
          {| returned := Some data; factoryInvoked := true;
             after := set this1 now' key data ttl |}
      | None =>
          {| returned := None; factoryInvoked := true; after := this1 |}
      end
  | _ => {| returned := Some cached; factoryInvoked := false; after := this1 |}
  end.

(** [getOrSet] is suspended at [await factory()].  [getOrSet_before] is
    what runs up to there: the cached value to return, or [None] when
    the factory has to be awaited.  [getOrSet_after] is what runs when
    the promise of the factory has settled with [result] ([None]: it was
    rejected), on the cache as it is by then. *)
Definition getOrSet_before (this : DataCache) (now : Z) (key : string)
    : option value * DataCache :=
  let '(cached, this1) := get this now key in
  match cached with
  | JNull => (None, this1)
  | _ => (Some cached, this1)
  end.

Definition getOrSet_after (this : DataCache) (now' : Z) (key : string)
    (result : option value) (ttl : Z) : option value * DataCache :=
  match result with
  | Some data => (Some data, set this now' key data ttl)
  | None => (None, this)
  end.

(** [getOrSet] when nothing else touches the cache while it is
    suspended. *)
Definition getOrSet (this : DataCache) (now now' : Z) (key : string)
    (factory : unit -> option value) (ttl : Z) : fetched :=
  match getOrSet_before this now key with
  | (Some cached, this1) =>
      {| returned := Some cached; factoryInvoked := false; after := this1 |}
  | (None, this1) =>
      let '(result, this2) := getOrSet_after this1 now' key (factory tt) ttl in
      {| returned := result; factoryInvoked := true; after := this2 |}
  end.

(** Method calls, for sequences of operations.  [elapsed] is the time
    between the two clock readings of [getOrSet]; a [getOrSet] during
    whose suspension other calls are made is an [OpGetOrSetBefore] and,
    when its factory was awaited, a later [OpGetOrSetAfter]. *)
Inductive op : Type :=
  | OpSet (key : string) (data : value) (ttl : Z)
  | OpGet (key : string)
  | OpHas (key : string)
  | OpDelete (key : string)
  | OpDeleteByPattern (regex : string -> bool)
  | OpClear
  | OpCleanup
  | OpResetStats
  | OpGetOrSet (key : string) (factory : unit -> option value) (ttl : Z)
      (elapsed : Z)
  | OpGetOrSetBefore (key : string)
  | OpGetOrSetAfter (key : string) (result : option value) (ttl : Z)
  | OpGetOrSetSync (key : string) (factory : unit -> option value) (ttl : Z)
      (elapsed : Z).

Definition apply (this : DataCache) (call : Z * op) : DataCache :=
  let now := fst call in
  match snd call with
  | OpSet key data ttl => set this now key data ttl
  | OpGet key => snd (get this now key)
  | OpHas key => snd (has this now key)
  | OpDelete key => snd (delete this key)
  | OpDeleteByPattern regex => snd (deleteByPattern this regex)
  | OpClear => clear this
  | OpCleanup => snd (cleanup this now)
  | OpResetStats => resetStats this
  | OpGetOrSet key factory ttl elapsed =>
      after (getOrSet this now (now + elapsed)%Z key factory ttl)
  | OpGetOrSetBefore key => snd (getOrSet_before this now key)
  | OpGetOrSetAfter key result ttl => snd (getOrSet_after this now key result ttl)
  | OpGetOrSetSync key factory ttl elapsed =>
      after (getOrSetSync this now (now + elapsed)%Z key factory ttl)
  end.

Definition runOps (this : DataCache) (calls : list (Z * op)) : DataCache :=
  fold_left apply calls this.

(** A sequence of [set] calls and nothing else. *)
Record setCall : Type := {
  c_now : Z;
  c_key : string;
  c_data : value;
  c_ttl : Z;
}.

Definition setAll (this : DataCache) (calls : list setCall) : DataCache :=
  fold_left (fun c s => set c (c_now s) (c_key s) (c_data s) (c_ttl s)) calls this.

(** Successive [getOrSetSync] calls on one key, each with its two clock
    readings and its ttl: whether each call invoked the factory, and
    the cache afterwards. *)
Fixpoint getOrSetSyncAll (this : DataCache) (key : string)
    (factory : unit -> option value) (calls : list (Z * Z * Z))
    : list bool * DataCache :=
  match calls with
  | [] => ([], this)
  | (now, now', ttl) :: rest =>
      let r := getOrSetSync this now now' key factory ttl in
      let '(flags, final) := getOrSetSyncAll (after r) key factory rest in
      (factoryInvoked r :: flags, final)
  end.

(** The size bound of the store. *)
Definition fits (this : DataCache) : Prop := length (cache this) ≤ maxSize this.

(** The key has no entry, or an entry that holds [null]. *)
Definition nothingToServe (this : DataCache) (key : string) : Prop :=
  match map_get key (cache this) with
  | None => True
  | Some e => e_data e = JNull
  end.

(** The number of lookups that count in the statistics after a sequence
    of calls: every [get], alone or inside [getOrSet] and
    [getOrSetSync], counts once; [clear] and [resetStats] start over. *)
Definition countedLookups (count : nat) (call : Z * op) : nat :=
  match snd call with
  | OpGet _ | OpGetOrSet _ _ _ _ | OpGetOrSetBefore _ | OpGetOrSetSync _ _ _ _ =>
      S count
  | OpClear | OpResetStats => 0
  | _ => count
  end.

End WithPayload.

Arguments value : clear implicits.
Arguments ICacheEntry : clear implicits.
Arguments DataCache : clear implicits.
Arguments store : clear implicits.
Arguments op : clear implicits.
Arguments fetched : clear implicits.
Arguments setCall : clear implicits.

End DataCache.

(** ** The worker: filtering and the message listener (dataWorker.js) *)

Module DataWorkerMessages.

(** [s.includes(sub)] *)
Fixpoint includes (s sub : string) : bool :=
  String.prefix sub s ||
  match s with
  | String _ r => includes r sub
  | EmptyString => false
  end.

(** The [filters] object; a range is its [min] and its [max]. *)
Record FilterOptions : Type := {
  f_searchTerm : option string;
  f_minConfidence : option Q;
  f_valenceRange : option (Q * Q);
  f_arousalRange : option (Q * Q);
}.

(** [filters.searchTerm && filters.searchTerm.trim()]: the term is
    present and not blank. *)
Definition hasSearchTerm (filters : FilterOptions) : option string :=
  match f_searchTerm filters with
  | Some t => if String.eqb (Validator.trim t) EmptyString then None else Some t
  | None => None
  end.

Definition matchesSearch (lowerSearch : string) (emotion : IEmotionData) : bool :=
  includes (Validator.toLowerCase (term emotion)) lowerSearch.

Definition inRange (value : Q) (range : Q * Q) : bool :=
  num_ge value (fst range) && Qle_bool value (snd range).

Definition filterEmotionData (emotions : list IEmotionData)
    (filters : FilterOptions) : list IEmotionData :=
  let filtered := emotions in
  let filtered :=
    match hasSearchTerm filters with
    | Some t => List.filter (matchesSearch (Validator.toLowerCase t)) filtered
    | None => filtered
    end in
  let filtered :=
    match f_minConfidence filters with
    | Some m => List.filter (fun emotion => num_ge (confidence emotion) m) filtered
    | None => filtered
    end in
  let filtered :=
    match f_valenceRange filters with
    | Some r => List.filter (fun emotion => inRange (valence emotion) r) filtered
    | None => filtered
    end in
  let filtered :=
    match f_arousalRange filters with
    | Some r => List.filter (fun emotion => inRange (arousal emotion) r) filtered
    | None => filtered
    end in
  filtered.

(** The [data] of a message: an object whose fields may be missing. *)
Record MessageData : Type := {
  d_emotions : option (list IEmotionData);
  d_canvasWidth : option Q;
  d_canvasHeight : option Q;
  d_filters : option FilterOptions;
  d_searchTerm : option string;
}.

Record WorkerRequest : Type := {
  q_type : string;
  q_id : option string;
  q_data : MessageData;
}.

Inductive WorkerResult : Type :=
  | Points (points : list IRenderablePoint)
  | Records (records : list IEmotionData)
  | Statistics (statistics : DataWorker.statistics).

(** What is caught: the [Error] of an unknown type, or the [TypeError]
    of reading a field of a missing object. *)
Inductive WorkerError : Type :=
  | UnknownMessageType (type : string)
  | MissingField.

(** The message posted back: SUCCESS with [result], or ERROR with
    [error]; both carry the [id] of the request. *)
Inductive WorkerResponse : Type :=
  | Success (id : option string) (result : WorkerResult)
  | Failure (id : option string) (error : WorkerError).

(** The body of the [try] block.  [transformEmotionData] never reads
    the canvas size it is given, so an absent size is passed as 0. *)
Definition compute (type : string) (data : MessageData)
    : WorkerResult + WorkerError :=
  if String.eqb type "TRANSFORM_DATA" then
    match d_emotions data with
    | Some emotions =>
        inl (Points (DataWorker.transformEmotionData emotions
                       (default 0%Q (d_canvasWidth data))
                       (default 0%Q (d_canvasHeight data))))
    | None => inr MissingField
    end
  else if String.eqb type "FILTER_DATA" then
    match d_emotions data, d_filters data with
    | Some emotions, Some filters => inl (Records (filterEmotionData emotions filters))
    | _, _ => inr MissingField
    end
  else if String.eqb type "SEARCH_DATA" then
    match d_emotions data with
    | Some emotions =>
        inl (Records (filterEmotionData emotions
                        {| f_searchTerm := d_searchTerm data;
                           f_minConfidence := None;
                           f_valenceRange := None;
                           f_arousalRange := None |}))
    | None => inr MissingField
    end
  else if String.eqb type "CALCULATE_STATISTICS" then
    match d_emotions data with
    | Some emotions => inl (Statistics (DataWorker.calculateStatistics emotions))
    | None => inr MissingField
    end
  else inr (UnknownMessageType type).

(** The listener of the worker. *)
Definition onMessage (request : WorkerRequest) : WorkerResponse :=
  match compute (q_type request) (q_data request) with
  | inl result => Success (q_id request) result
  | inr error => Failure (q_id request) error
  end.

Definition responseId (r : WorkerResponse) : option string :=
  match r with Success id _ | Failure id _ => id end.

Definition isSuccess (r : WorkerResponse) : bool :=
  match r with Success _ _ => true | Failure _ _ => false end.

(** The four types the manager sends. *)
Definition managerTypes : list string :=
  ["TRANSFORM_DATA"; "FILTER_DATA"; "SEARCH_DATA"; "CALCULATE_STATISTICS"].

(** The conjunction of the criteria that [filters] holds. *)
Definition passes (filters : FilterOptions) (emotion : IEmotionData) : bool :=
  match hasSearchTerm filters with
  | Some t => matchesSearch (Validator.toLowerCase t) emotion
  | None => true
  end &&
  match f_minConfidence filters with
  | Some m => num_ge (confidence emotion) m
  | None => true
  end &&
  match f_valenceRange filters with
  | Some r => inRange (valence emotion) r
  | None => true
  end &&
  match f_arousalRange filters with
  | Some r => inRange (arousal emotion) r
  | None => true
  end.

End DataWorkerMessages.

(** ** The in-memory data manager (EmotionDataManager.ts, the class)

    [data] is a JavaScript [Map] from terms to records: an association
    list in insertion order with one entry per key. *)

Module EmotionDataManagerClass.

Import EmotionDataManager.

Definition EmotionDataMap : Type := list (string * IEmotionData).

Fixpoint mapGet (key : string) (m : list (string * IEmotionData))
    : option IEmotionData :=
  match m with
  | [] => None
  | (k, v) :: r => if decide (k = key) then Some v else mapGet key r
  end.

(** [Map.set]: a present key keeps its place and takes the new value; a
    new key goes last. *)
Fixpoint mapSet (key : string) (value : IEmotionData)
    (m : list (string * IEmotionData)) : list (string * IEmotionData) :=
  match m with
  | [] => [(key, value)]
  | (k, v) :: r =>
      if decide (k = key) then (k, value) :: r else (k, v) :: mapSet key value r
  end.

Fixpoint mapDelete (key : string) (m : list (string * IEmotionData))
    : list (string * IEmotionData) :=
  match m with
  | [] => []
  | (k, v) :: r => if decide (k = key) then r else (k, v) :: mapDelete key r
  end.

Record manager : Type := {
  data : EmotionDataMap;
  rawData : list IRawEmotionData;
}.

(** The body of [rawData.forEach] in [loadData]. *)
Definition storeNormalized (m : EmotionDataMap) (raw : IRawEmotionData)
    : EmotionDataMap :=
  match normalizeRawData raw with
  | Some normalized => mapSet (term normalized) normalized m
  | None => m
  end.

(** [loadData]: [None] is the thrown error. *)
Definition loadData (raw : list IRawEmotionData) (this : manager)
    : option manager :=
  if Validator.a_isValid (Validator.validateEmotionDataArray raw)
  then Some {| data := fold_left storeNormalized raw []; rawData := raw |}
  else None.

(** The constructor. *)
Definition new (raw : list IRawEmotionData) : option manager :=
  let this := {| data := []; rawData := raw |} in
  if (0 <? length raw)%nat then loadData raw this else Some this.

Definition getAllData (this : manager) : list IEmotionData :=
  map snd (data this).

Definition getByTerm (this : manager) (t : string) : option IEmotionData :=
  mapGet (Validator.sanitizeString t) (data this).

Definition getByTerms (this : manager) (terms : list string)
    : list IEmotionData :=
  omap (getByTerm this) terms.

Definition getCount (this : manager) : nat := length (data this).

Definition clear (this : manager) : manager := {| data := []; rawData := [] |}.

Definition add (emotion : IEmotionData) (this : manager) : manager :=
  {| data := mapSet (term emotion) emotion (data this);
     rawData := rawData this |}.

Definition addMany (emotions : list IEmotionData) (this : manager) : manager :=
  fold_left (fun this emotion => add emotion this) emotions this.

(** [remove] returns what [Map.delete] returns. *)
Definition remove (t : string) (this : manager) : bool * manager :=
  let key := Validator.sanitizeString t in
  (bool_decide (is_Some (mapGet key (data this))),
   {| data := mapDelete key (data this); rawData := rawData this |}).

Definition removeMany (terms : list string) (this : manager) : nat * manager :=
  fold_left
    (fun st t =>
       let (ok, this') := remove t (snd st) in
       (if ok then S (fst st) else fst st, this'))
    terms (0, this).

Definition clone (this : manager) : option manager := new (rawData this).

Definition merge (other this : manager) : manager :=
  addMany (getAllData other) this.

Record IEmotionFilter : Type := {
  searchTerm : option string;
  minValence : option Q;
  maxValence : option Q;
  minArousal : option Q;
  maxArousal : option Q;
  minConfidence : option Q;
  maxConfidence : option Q;
  mergeStrategies : option (list string);
  includeMultiword : option bool;
}.

(** The string a merge strategy is at run time. *)
Definition strategyName (s : MergeStrategy) : string :=
  match s with
  | both_weighted => "both_weighted"
  | warriner_only => "warriner_only"
  | nrc_only => "nrc_only"
  | unknown => "unknown"
  end.

(** One [if (...) filtered = filtered.filter(...)] step. *)
Definition filterWhen {B} (o : option B) (p : B -> IEmotionData -> bool)
    (filtered : list IEmotionData) : list IEmotionData :=
  match o with
  | Some b => List.filter (p b) filtered
  | None => filtered
  end.

(** [filter.searchTerm && filter.searchTerm.trim()] *)
Definition activeSearchTerm (f : IEmotionFilter) : option string :=
  match searchTerm f with
  | Some t => if String.eqb (Validator.trim t) EmptyString then None else Some t
  | None => None
  end.

(** [filter.mergeStrategies && filter.mergeStrategies.length > 0] *)
Definition activeStrategies (f : IEmotionFilter) : option (list string) :=
  match mergeStrategies f with
  | Some (s :: r) => Some (s :: r)
  | _ => None
  end.

(** [filter.includeMultiword === false] *)
Definition excludeMultiword (f : IEmotionFilter) : option unit :=
  match includeMultiword f with
  | Some false => Some tt
  | _ => None
  end.

Definition filter (this : manager) (f : IEmotionFilter) : list IEmotionData :=
  let filtered := getAllData this in
  let filtered :=
    filterWhen (activeSearchTerm f)
      (fun t emotion =>
         DataWorkerMessages.includes (Validator.toLowerCase (term emotion))
                                     (Validator.toLowerCase t)) filtered in
  let filtered :=
    filterWhen (minValence f) (fun m emotion => num_ge (valence emotion) m) filtered in
  let filtered :=
    filterWhen (maxValence f) (fun m emotion => Qle_bool (valence emotion) m) filtered in
  let filtered :=
    filterWhen (minArousal f) (fun m emotion => num_ge (arousal emotion) m) filtered in
  let filtered :=
    filterWhen (maxArousal f) (fun m emotion => Qle_bool (arousal emotion) m) filtered in
  let filtered :=
    filterWhen (minConfidence f)
      (fun m emotion => num_ge (confidence emotion) m) filtered in
  let filtered :=
    filterWhen (maxConfidence f)
      (fun m emotion => Qle_bool (confidence emotion) m) filtered in
  let filtered :=
    filterWhen (activeStrategies f)
      (fun l emotion => bool_decide (strategyName (mergeStrategy emotion) ∈ l))
      filtered in
  let filtered :=
    filterWhen (excludeMultiword f) (fun _ emotion => negb (isMultiword emotion))
      filtered in
  filtered.

(** The manager's filter that asks what a filter of the worker asks. *)
Definition ofWorkerFilter (filters : DataWorkerMessages.FilterOptions)
    : IEmotionFilter :=
  {| searchTerm := DataWorkerMessages.f_searchTerm filters;
     minValence := fst <$> DataWorkerMessages.f_valenceRange filters;
     maxValence := snd <$> DataWorkerMessages.f_valenceRange filters;
     minArousal := fst <$> DataWorkerMessages.f_arousalRange filters;
     maxArousal := snd <$> DataWorkerMessages.f_arousalRange filters;
     minConfidence := DataWorkerMessages.f_minConfidence filters;
     maxConfidence := None;
     mergeStrategies := None;
     includeMultiword := None |}.

End EmotionDataManagerClass.

(** ** Retry policy (lib/constants/api.const.ts) *)

Module ApiConst.

Definition MAX_ATTEMPTS : nat := 3.
Definition INITIAL_DELAY : Q := 1000.
Definition MAX_DELAY : Q := 10000.
Definition BACKOFF_MULTIPLIER : Q := 2.

Definition RETRYABLE_STATUS_CODES : list Z := [408; 429; 500; 502; 503; 504]%Z.

(** [if (!statusCode) return false]: an absent status code and the
    status code 0 are both falsy. *)
Definition isRetryableError (statusCode : option Z) : bool :=
  match statusCode with
  | None => false
  | Some code =>
      if (code =? 0)%Z then false
      else bool_decide (code ∈ RETRYABLE_STATUS_CODES)
  end.

(** [attempt] counts from 1. *)
Definition calculateRetryDelay (attempt : nat) : Q :=
  let delay :=
    (INITIAL_DELAY * Qpower BACKOFF_MULTIPLIER (Z.of_nat attempt - 1))%Q in
  Qmin delay MAX_DELAY.

(** The texts of [ERROR_MESSAGES], by their keys, and the other
    messages an error can carry. *)
Inductive errorText : Type :=
  | NETWORK_ERROR
  | TIMEOUT_ERROR
  | SERVER_ERROR
  | NOT_FOUND
  | UNAUTHORIZED
  | FORBIDDEN
  | BAD_REQUEST
  | UNKNOWN_ERROR
  | Text (s : string).

(** [STATUS_CODE_MESSAGES[statusCode] || ERROR_MESSAGES.UNKNOWN_ERROR] *)
Definition getErrorMessage (statusCode : option Z) : errorText :=
  match statusCode with
  | Some 400%Z => BAD_REQUEST
  | Some 401%Z => UNAUTHORIZED
  | Some 403%Z => FORBIDDEN
  | Some 404%Z => NOT_FOUND
  | Some 408%Z => TIMEOUT_ERROR
  | Some 500%Z => SERVER_ERROR
  | Some 502%Z => SERVER_ERROR
  | Some 503%Z => SERVER_ERROR
  | Some 504%Z => TIMEOUT_ERROR
  | _ => UNKNOWN_ERROR
  end.

End ApiConst.

(** ** The HTTP client (lib/services/api/EmotionApiClient.ts) *)

Module EmotionApiClient.

Import ApiConst.

Section WithData.

Context {T : Type}.

(** What is thrown: an object that may have a [statusCode] and a
    [message]. *)
Record thrown : Type := {
  statusCode : option Z;
  message : option errorText;
}.

(** How a [fetch] ends: with a response, whose body may fail to parse
    (a [SyntaxError] with its message), aborted by the timeout, with
    the [TypeError] of a network failure, or with something else
    thrown. *)
Inductive fetchOutcome : Type :=
  | Response (ok : bool) (status : Z) (json : T + string)
  | AbortError
  | TypeError
  | OtherError (error : thrown).

Inductive executed : Type :=
  | Returned (data : T)
  | Threw (error : thrown).

Definition executeRequest (outcome : fetchOutcome) : executed :=
  match outcome with
  | Response false status _ =>
      Threw {| statusCode := Some status;
               message := Some (getErrorMessage (Some status)) |}
  | Response true _ (inl data) => Returned data
  | Response true _ (inr syntaxError) =>
      Threw {| statusCode := None; message := Some (Text syntaxError) |}
  | AbortError =>
      Threw {| statusCode := Some 408%Z; message := Some (Text "Request timeout") |}
  | TypeError =>
      Threw {| statusCode := Some 0%Z; message := Some (Text "Network error") |}
  | OtherError error => Threw error
  end.

Inductive IApiResponse : Type :=
  | ApiSuccess (data : T)
  | ApiFailure (code : string) (text : errorText).

(** What a call of [request] has done when it returns: its response,
    the number of times it has called [executeRequest], and the delays
    it has slept, in order. *)
Record requested : Type := {
  response : IApiResponse;
  calls : nat;
  slept : list Q;
}.

(** [lastError?.message || 'Request failed after retries'] *)
Definition failureText (lastError : option thrown) : errorText :=
  match lastError with
  | Some {| message := Some (Text EmptyString) |} => Text "Request failed after retries"
  | Some {| message := Some text |} => text
  | _ => Text "Request failed after retries"
  end.

(** The [while] loop of [request]; [execute k] is how the call of
    [executeRequest] made after [k] failed ones ends. *)
Equations? retryLoop (execute : nat -> executed) (attempt : nat)
    (lastError : option thrown) (sleeps : list Q)
    : requested by wf (MAX_ATTEMPTS - attempt) lt :=
  retryLoop execute attempt lastError sleeps with lt_dec attempt MAX_ATTEMPTS => {
    | right _ :=
        {| response := ApiFailure "REQUEST_FAILED" (failureText lastError);
           calls := attempt; slept := sleeps |};
    | left _ with execute attempt => {
        | Returned data :=
            {| response := ApiSuccess data; calls := S attempt; slept := sleeps |};
        | Threw error
            with negb (isRetryableError (statusCode error))
                 || (MAX_ATTEMPTS <=? S attempt)%nat => {
            | true :=
                {| response := ApiFailure "REQUEST_FAILED" (failureText (Some error));
                   calls := S attempt; slept := sleeps |};
            | false :=
                retryLoop execute (S attempt) (Some error)
                  (sleeps ++ [calculateRetryDelay (S attempt)]) } } }.
Proof. unfold MAX_ATTEMPTS in *. lia. Qed.

Definition request (execute : nat -> executed) : requested :=
  retryLoop execute 0 None [].

End WithData.

Arguments thrown : clear implicits.
Arguments fetchOutcome : clear implicits.
Arguments executed : clear implicits.
Arguments IApiResponse : clear implicits.
Arguments requested : clear implicits.

End EmotionApiClient.

(** ** Colour scales (lib/constants/colors.const.ts) *)

Module ColorScales.

Definition VALENCE_SCALE : list string :=
  ["#EF4444"; "#F59E0B"; "#EAB308"; "#84CC16"; "#22C55E"].

Definition AROUSAL_SCALE : list string :=
  ["#3B82F6"; "#6366F1"; "#8B5CF6"; "#D946EF"; "#EC4899"].

(** [scale[index]]: an index outside the array reads [undefined]. *)
Definition at_index (scale : list string) (index : Z) : option string :=
  if (index <? 0)%Z then None else scale !! Z.to_nat index.

Definition getValenceColor (valence : Q) : option string :=
  let normalized := ((valence + 1) / 2)%Q in
  let index :=
    Z.min (Qfloor (normalized * inject_Z (Z.of_nat (length VALENCE_SCALE - 1))))
          (Z.of_nat (length VALENCE_SCALE - 1)) in
  at_index VALENCE_SCALE index.

Definition getArousalColor (arousal : Q) : option string :=
  let normalized := ((arousal + 1) / 2)%Q in
  let index :=
    Z.min (Qfloor (normalized * inject_Z (Z.of_nat (length AROUSAL_SCALE - 1))))
          (Z.of_nat (length AROUSAL_SCALE - 1)) in
  at_index AROUSAL_SCALE index.

End ColorScales.

(** ** Screen coordinates (lib/constants/visualization.const.ts) *)

Module VisualizationConst.

Definition CANVAS_PADDING_TOP : Q := 40.
Definition CANVAS_PADDING_RIGHT : Q := 40.
Definition CANVAS_PADDING_BOTTOM : Q := 60.
Definition CANVAS_PADDING_LEFT : Q := 60.

Definition screenToVA (screenX screenY width height : Q) : Q * Q :=
  let effectiveWidth := (width - CANVAS_PADDING_LEFT - CANVAS_PADDING_RIGHT)%Q in
  let effectiveHeight := (height - CANVAS_PADDING_TOP - CANVAS_PADDING_BOTTOM)%Q in
  let valence := (((screenX - CANVAS_PADDING_LEFT) / effectiveWidth) * 2 - 1)%Q in
  let arousal := (1 - ((screenY - CANVAS_PADDING_TOP) / effectiveHeight) * 2)%Q in
  (Qmax (-1) (Qmin 1 valence), Qmax (-1) (Qmin 1 arousal)).

Definition vaToScreen (valence arousal width height : Q) : Q * Q :=
  let effectiveWidth := (width - CANVAS_PADDING_LEFT - CANVAS_PADDING_RIGHT)%Q in
  let effectiveHeight := (height - CANVAS_PADDING_TOP - CANVAS_PADDING_BOTTOM)%Q in
  let x := (CANVAS_PADDING_LEFT + ((valence + 1) / 2) * effectiveWidth)%Q in
  let y := (CANVAS_PADDING_TOP + ((1 - arousal) / 2) * effectiveHeight)%Q in
  (x, y).

End VisualizationConst.

(** ** The coordinate system (lib/core/visualization/CoordinateSystem.ts) *)

Module CoordinateSystem.

Import VisualizationConst.

Record ICoordinateTransform : Type := {
  scale : Q;
  offsetX : Q;
  offsetY : Q;
  width : Q;
  height : Q;
}.

(** The state of the class is its [transform]. *)
Definition calculateTransform (width height : Q) : ICoordinateTransform :=
  let effectiveWidth := (width - CANVAS_PADDING_LEFT - CANVAS_PADDING_RIGHT)%Q in
  let effectiveHeight := (height - CANVAS_PADDING_TOP - CANVAS_PADDING_BOTTOM)%Q in
  let scaleX := (effectiveWidth / (1 - -1))%Q in
  let scaleY := (effectiveHeight / (1 - -1))%Q in
  {| scale := Qmin scaleX scaleY;
     offsetX := CANVAS_PADDING_LEFT;
     offsetY := CANVAS_PADDING_TOP;
     width := width;
     height := height |}.

(** [clamp] of geometry.util *)
Definition clamp (value min max : Q) : Q := Qmax min (Qmin max value).

Definition vaToScreen (transform : ICoordinateTransform) (valence arousal : Q)
    : Q * Q :=
  let effectiveWidth :=
    (width transform - CANVAS_PADDING_LEFT - CANVAS_PADDING_RIGHT)%Q in
  let effectiveHeight :=
    (height transform - CANVAS_PADDING_TOP - CANVAS_PADDING_BOTTOM)%Q in
  let normalizedX := ((valence - -1) / 2)%Q in
  let x := (offsetX transform + normalizedX * effectiveWidth)%Q in
  let normalizedY := ((arousal - -1) / 2)%Q in
  let y :=
    (offsetY transform + effectiveHeight - normalizedY * effectiveHeight)%Q in
  (x, y).

Definition screenToVA (transform : ICoordinateTransform) (x y : Q) : Q * Q :=
  let effectiveWidth :=
    (width transform - CANVAS_PADDING_LEFT - CANVAS_PADDING_RIGHT)%Q in
  let effectiveHeight :=
    (height transform - CANVAS_PADDING_TOP - CANVAS_PADDING_BOTTOM)%Q in
  let normalizedX := ((x - offsetX transform) / effectiveWidth)%Q in
  let valence := clamp (-1 + normalizedX * 2)%Q (-1) 1 in
  let normalizedY :=
    ((effectiveHeight - (y - offsetY transform)) / effectiveHeight)%Q in
  let arousal := clamp (-1 + normalizedY * 2)%Q (-1) 1 in
  (valence, arousal).

Definition isScreenCoordinateValid (transform : ICoordinateTransform) (x y : Q)
    : bool :=
  let maxX := (width transform - CANVAS_PADDING_RIGHT)%Q in
  let maxY := (height transform - CANVAS_PADDING_BOTTOM)%Q in
  num_ge x (offsetX transform) && Qle_bool x maxX &&
  num_ge y (offsetY transform) && Qle_bool y maxY.

Definition isVACoordinateValid (valence arousal : Q) : bool :=
  num_ge valence (-1) && Qle_bool valence 1 &&
  num_ge arousal (-1) && Qle_bool arousal 1.

Definition vaDistanceToScreen (transform : ICoordinateTransform) (vaDistance : Q)
    : Q := (vaDistance * scale transform)%Q.

Definition screenDistanceToVA (transform : ICoordinateTransform)
    (screenDistance : Q) : Q := (screenDistance / scale transform)%Q.

End CoordinateSystem.

(** ** Sample inputs and observers *)

(** The raw record of Scenario B. *)
Definition scenarioB : IRawEmotionData :=
  {| raw_term := "JOY "; raw_valence := 5; raw_arousal := -5;
     raw_dominance := None; raw_confidence := Some 2%Q;
     raw_merge_strategy := None; raw_source_warriner := None;
     raw_source_nrc := None; raw_is_multiword := None |}.

Definition joy_record : IEmotionData :=
  {| term := "joy"; valence := 8 # 10; arousal := 6 # 10;
     dominance := None; confidence := 9 # 10;
     mergeStrategy := both_weighted; isMultiword := false;
     metadata := None |}.

(** The fields copied from the record are the same on both paths. *)
Definition copiedFields (p : IRenderablePoint)
    : string * Q * Q * Q * Q * Q * MergeStrategy * bool :=
  (p_term p, p_x p, p_y p, p_valence p, p_arousal p, p_confidence p,
   p_mergeStrategy p, p_isMultiword p).

Definition isFinite (n : jsnum) : bool :=
  match n with Fin _ => true | _ => false end.

Definition finiteStatistics (s : DataWorker.statistics) : bool :=
  isFinite (DataWorker.r_min (DataWorker.valenceRange s)) &&
  isFinite (DataWorker.r_max (DataWorker.valenceRange s)) &&
  isFinite (DataWorker.r_min (DataWorker.arousalRange s)) &&
  isFinite (DataWorker.r_max (DataWorker.arousalRange s)) &&
  isFinite (DataWorker.r_min (DataWorker.confidenceRange s)) &&
  isFinite (DataWorker.r_max (DataWorker.confidenceRange s)) &&
  isFinite (DataWorker.averageConfidence s).

Import ChunkedDataLoader.

(** Scenario A: two chunks of fifty records each. *)
Definition calm_raw : IRawEmotionData :=
  {| raw_term := "calm"; raw_valence := 6 # 10; raw_arousal := -4 # 10;
     raw_dominance := None; raw_confidence := Some (9 # 10)%Q;
     raw_merge_strategy := Some "both_weighted"; raw_source_warriner := Some true;
     raw_source_nrc := Some true; raw_is_multiword := Some false |}.

Definition scenarioA : remote :=
  {| fetchMetadata := Some {| totalCount := 100; chunkSize := 50; totalChunks := 2 |};
     fetchChunk := fun chunkId =>
       if chunkId <? 2 then Some (replicate 50 calm_raw) else None |}.

Definition callsOf (o : outcome) : list progressCall :=
  match o with Resolved calls | Rejected calls => calls end.

Definition threeSets : list (DataCache.setCall nat) :=
  [ {| DataCache.c_now := 0; DataCache.c_key := "a";
       DataCache.c_data := DataCache.JData 1; DataCache.c_ttl := 60 |};
    {| DataCache.c_now := 5; DataCache.c_key := "b";
       DataCache.c_data := DataCache.JData 2; DataCache.c_ttl := 60 |};
    {| DataCache.c_now := 9; DataCache.c_key := "c";
       DataCache.c_data := DataCache.JData 3; DataCache.c_ttl := 60 |} ].

Definition sampleCalls : list (Z * DataCache.op nat) :=
  [ (0%Z, DataCache.OpSet "a" (DataCache.JData 1) 1%Z);
    (10%Z, DataCache.OpGetOrSetSync "b" (fun _ => Some (DataCache.JData 2)) 1%Z 5%Z);
    (20%Z, DataCache.OpSet "c" DataCache.JNull 1%Z);
    (30%Z, DataCache.OpHas "b");
    (2000%Z, DataCache.OpGetOrSet "c" (fun _ => None) 1%Z 5%Z);
    (2002%Z, DataCache.OpGetOrSetBefore "d");
    (2003%Z, DataCache.OpSet "e" DataCache.JUndefined 1%Z);
    (2004%Z, DataCache.OpGetOrSetAfter "d" (Some (DataCache.JData 4)) 1%Z);
    (2010%Z, DataCache.OpCleanup);
    (2020%Z, DataCache.OpDeleteByPattern (String.prefix "a")) ].

Definition nullFactory : unit -> option (DataCache.value nat) :=
  fun _ => Some DataCache.JNull.

Definition afterNullFactory : DataCache.DataCache nat :=
  DataCache.after
    (DataCache.getOrSetSync (DataCache.new 2) 0%Z 1%Z "k" nullFactory 60%Z).

(** A request that times out, then its late response, then a second
    request answered in time. *)
Definition lateResponse : list WebWorkerManager.event :=
  [ WebWorkerManager.EvRequest true "TRANSFORM_DATA" "records";
    WebWorkerManager.EvTimeout 1;
    WebWorkerManager.EvMessage
      {| WebWorkerManager.m_type := "SUCCESS";
         WebWorkerManager.m_id := Some "msg_1";
         WebWorkerManager.m_result := "points";
         WebWorkerManager.m_error := None |};
    WebWorkerManager.EvRequest true "CALCULATE_STATISTICS" "records";
    WebWorkerManager.EvMessage
      {| WebWorkerManager.m_type := "SUCCESS";
         WebWorkerManager.m_id := Some "msg_2";
         WebWorkerManager.m_result := "statistics";
         WebWorkerManager.m_error := None |};
    WebWorkerManager.EvTimeout 2 ].

(** A source of twenty chunks that fails on chunks 11 and 13. *)
Definition flakySource : remote :=
  {| fetchMetadata := Some {| totalCount := 20; chunkSize := 1; totalChunks := 20 |};
     fetchChunk := fun chunkId =>
       if (chunkId =? 11) || (chunkId =? 13) then None else Some [calm_raw] |}.

(** The same address answering with other metadata later on. *)
Definition scenarioA_grown : remote :=
  {| fetchMetadata := Some {| totalCount := 150; chunkSize := 50; totalChunks := 3 |};
     fetchChunk := fun chunkId =>
       if chunkId <? 3 then Some (replicate 50 calm_raw) else None |}.

(** A hundred valid records followed by the record of Scenario B. *)
Definition oneBadOfMany : list IRawEmotionData :=
  replicate 100 calm_raw ++ [scenarioB].

(** Two spellings of one term, the second with other values. *)
Definition twoSpellings : list IRawEmotionData :=
  [ calm_raw;
    {| raw_term := " CALM "; raw_valence := 5 # 10; raw_arousal := -3 # 10;
       raw_dominance := None; raw_confidence := None;
       raw_merge_strategy := Some "NRC_ONLY"; raw_source_warriner := None;
       raw_source_nrc := Some true; raw_is_multiword := None |} ].

Definition emptyManager : EmotionDataManagerClass.manager :=
  {| EmotionDataManagerClass.data := []; EmotionDataManagerClass.rawData := [] |}.

Definition twoSpellingsLoaded : EmotionDataManagerClass.manager :=
  {| EmotionDataManagerClass.data :=
       fold_left EmotionDataManagerClass.storeNormalized twoSpellings [];
     EmotionDataManagerClass.rawData := twoSpellings |}.

(** Three entries stored five seconds apart, each for a minute. *)
Definition threeStored : DataCache.DataCache nat :=
  DataCache.setAll (DataCache.new 3)
    [ {| DataCache.c_now := 0; DataCache.c_key := "emotions:all";
         DataCache.c_data := DataCache.JData 1; DataCache.c_ttl := 60 |};
      {| DataCache.c_now := 5000; DataCache.c_key := "search:joy";
         DataCache.c_data := DataCache.JData 2; DataCache.c_ttl := 60 |};
      {| DataCache.c_now := 10000; DataCache.c_key := "search:calm";
         DataCache.c_data := DataCache.JNull; DataCache.c_ttl := 60 |} ].

(** A request, the end of the worker, then the answer and the timer of
    the request, and a second request on a new worker. *)
Definition terminatedRequest : list WebWorkerManager.event :=
  [ WebWorkerManager.EvMessage
      {| WebWorkerManager.m_type := "SUCCESS";
         WebWorkerManager.m_id := Some "msg_1";
         WebWorkerManager.m_result := "points";
         WebWorkerManager.m_error := None |};
    WebWorkerManager.EvTimeout 1;
    WebWorkerManager.EvRequest true "FILTER_DATA" "records";
    WebWorkerManager.EvMessage
      {| WebWorkerManager.m_type := "SUCCESS";
         WebWorkerManager.m_id := Some "msg_2";
         WebWorkerManager.m_result := "filtered";
         WebWorkerManager.m_error := None |} ].

(** * Properties *)

(** ** The two transforms *)

Lemma transforms_agree_on_copied_fields emotions w h :
  map copiedFields (DataWorker.transformEmotionData emotions w h) =
  map copiedFields (EmotionDataTransformer.transformToRenderable emotions w h).
Proof.
  unfold DataWorker.transformEmotionData,
    EmotionDataTransformer.transformToRenderable.
  induction emotions as [|e es IH]; simpl; [reflexivity|].
  f_equal. exact IH.
Qed.

(** The sizes never agree: the worker draws 2 or 3, the transformer 3 or 4,
    and 3 is drawn for opposite values of [isMultiword]. *)
Lemma transforms_sizes_differ e w h :
  map p_size (DataWorker.transformEmotionData [e] w h) ≠
  map p_size (EmotionDataTransformer.transformToRenderable [e] w h).
Proof.
  unfold DataWorker.transformEmotionData,
    EmotionDataTransformer.transformToRenderable,
    EmotionDataTransformer.transformSingleEmotion; simpl.
  destruct (isMultiword e); discriminate.
Qed.

Lemma transforms_differ_on_every_record e es w h :
  DataWorker.transformEmotionData (e :: es) w h ≠
  EmotionDataTransformer.transformToRenderable (e :: es) w h.
Proof.
  intros Heq. apply (transforms_sizes_differ e w h).
  apply (f_equal (fun l => map p_size (take 1 l))) in Heq.
  exact Heq.
Qed.

(** C1, at the record "joy" with confidence 0.9 on an 800 by 600 canvas:
    the background transform yields color #10b981 and size 2, the
    synchronous transform yields color #7CB342 and size 3, so the two
    arrays are not identical. *)
Theorem transform_paths_differ_on_joy :
  map p_color (DataWorker.transformEmotionData [joy_record] 800 600)
    = ["#10b981"] ∧
  map p_color (EmotionDataTransformer.transformToRenderable [joy_record] 800 600)
    = ["#7CB342"] ∧
  map p_size (DataWorker.transformEmotionData [joy_record] 800 600) = [2] ∧
  map p_size (EmotionDataTransformer.transformToRenderable [joy_record] 800 600)
    = [3] ∧
  DataWorker.transformEmotionData [joy_record] 800 600 ≠
  EmotionDataTransformer.transformToRenderable [joy_record] 800 600.
Proof.
  repeat split; try reflexivity.
  apply transforms_differ_on_every_record.
Qed.

(** ** Normalization *)

(** The loader keeps the term and the coordinates of the raw record. *)
Lemma loader_normalize_copies raw :
  term (ChunkedDataLoader.normalizeEmotionData raw) = raw_term raw ∧
  valence (ChunkedDataLoader.normalizeEmotionData raw) = raw_valence raw ∧
  arousal (ChunkedDataLoader.normalizeEmotionData raw) = raw_arousal raw ∧
  confidence (ChunkedDataLoader.normalizeEmotionData raw) =
    default (5 # 10)%Q (raw_confidence raw).
Proof. repeat split. Qed.

Lemma clampNumber_range value min max :
  (min <= max)%Q ->
  (min <= Validator.clampNumber value min max)%Q ∧
  (Validator.clampNumber value min max <= max)%Q.
Proof.
  intros Hmm. unfold Validator.clampNumber. split.
  - apply Q.le_max_l.
  - apply Q.max_lub; [exact Hmm | apply Q.le_min_l].
Qed.

(** The data manager, the other normalizer of the repository, emits only
    records in range with a sanitized term. *)
Lemma manager_normalize_in_range raw e :
  EmotionDataManager.normalizeRawData raw = Some e ->
  term e = Validator.sanitizeString (raw_term raw) ∧
  (-1 <= valence e <= 1)%Q ∧ (-1 <= arousal e <= 1)%Q ∧
  (0 <= confidence e <= 1)%Q.
Proof.
  unfold EmotionDataManager.normalizeRawData.
  destruct (negb _); [discriminate|].
  intros [= <-]; simpl. split; [reflexivity|].
  split; [apply clampNumber_range; discriminate|].
  split; [apply clampNumber_range; discriminate|].
  destruct (raw_confidence raw); [apply clampNumber_range|split]; discriminate.
Qed.

Lemma manager_rejects_scenarioB :
  EmotionDataManager.normalizeRawData scenarioB = None.
Proof. reflexivity. Qed.

(** C2, at the record of Scenario B: the normalizer of the loading pipeline
    returns the term "JOY " and the values 5, -5 and 2 as they came, not
    "joy", 1, -1 and 1. *)
Theorem loader_normalize_scenarioB :
  let e := ChunkedDataLoader.normalizeEmotionData scenarioB in
  term e = "JOY " ∧ valence e = 5%Q ∧ arousal e = (-5)%Q ∧
  confidence e = 2%Q ∧ mergeStrategy e = unknown ∧ isMultiword e = false ∧
  ¬ (valence e <= 1)%Q ∧ ¬ (-1 <= arousal e)%Q ∧ ¬ (confidence e <= 1)%Q ∧
  term e ≠ "joy".
Proof.
  simpl. repeat split; try reflexivity; try discriminate;
    intros H; apply H; reflexivity.
Qed.

(** ** Statistics of the worker *)

(** Without the guard the body would compute [Math.min()] = Infinity,
    [Math.max()] = -Infinity and 0 / 0 = NaN. *)
Lemma statisticsBody_empty :
  DataWorker.statisticsBody [] =
  {| DataWorker.s_totalCount := 0;
     DataWorker.valenceRange := {| DataWorker.r_min := PosInf; DataWorker.r_max := NegInf |};
     DataWorker.arousalRange := {| DataWorker.r_min := PosInf; DataWorker.r_max := NegInf |};
     DataWorker.confidenceRange := {| DataWorker.r_min := PosInf; DataWorker.r_max := NegInf |};
     DataWorker.averageConfidence := NaN |}.
Proof. reflexivity. Qed.

(** C10: on the empty array [calculateStatistics] returns the all-zero
    statistics; on every array, either the array is empty and the guard
    returned, or the body ran on non-empty value lists with a non-zero
    divisor; in both cases every number of the result is finite. *)
Theorem calculateStatistics_empty_guarded :
  DataWorker.calculateStatistics [] = DataWorker.zeroStatistics ∧
  ∀ emotions,
    finiteStatistics (DataWorker.calculateStatistics emotions) = true ∧
    ((emotions = [] ∧
      DataWorker.calculateStatistics emotions = DataWorker.zeroStatistics) ∨
     (DataWorker.calculateStatistics emotions = DataWorker.statisticsBody emotions ∧
      DataWorker.valenceValues emotions ≠ [] ∧
      DataWorker.arousalValues emotions ≠ [] ∧
      DataWorker.confidenceValues emotions ≠ [] ∧
      length (DataWorker.confidenceValues emotions) ≠ 0)).
Proof.
  split; [reflexivity|].
  intros [|e es].
  - split; [reflexivity|]. left. split; reflexivity.
  - split; [reflexivity|]. right. repeat split; discriminate.
Qed.

(** ** Progressive loading *)

Lemma issueBatch_spec i N j acc :
  issueBatch i N j acc =
  acc ++ seq (i + j) (min (MAX_CONCURRENT_REQUESTS - j) (N - (i + j))).
Proof.
  funelim (issueBatch i N j acc).
  - replace (min _ _) with 0 by lia. simpl. rewrite app_nil_r. reflexivity.
  - match goal with IH : issueBatch _ _ (S _) _ = _ ++ _ |- _ => rewrite IH end.
    unfold MAX_CONCURRENT_REQUESTS in *.
    replace (min (8 - j) (totalChunks0 - (i + j)))
      with (S (min (8 - S j) (totalChunks0 - (i + S j)))) by lia.
    rewrite <- app_assoc. simpl. do 3 f_equal. lia.
  - replace (min _ _) with 0 by lia. simpl. rewrite app_nil_r. reflexivity.
Qed.

(** A batch is the next chunk ids, at most eight and as many as remain. *)
Lemma issueBatch_seq i N :
  issueBatch i N 0 [] = seq i (min MAX_CONCURRENT_REQUESTS (N - i)).
Proof.
  rewrite issueBatch_spec. unfold MAX_CONCURRENT_REQUESTS. cbn [app].
  f_equal; lia.
Qed.

Lemma issueBatch_length i N :
  length (issueBatch i N 0 []) ≤ MAX_CONCURRENT_REQUESTS.
Proof. rewrite issueBatch_seq, length_seq. lia. Qed.

Lemma forEach_reportChunk N chunks loaded calls :
  fold_left (reportChunk N) chunks (loaded, calls) =
  (loaded + length chunks,
   calls ++ imap (fun k chunk => (progressOf (loaded + S k) N, chunk)) chunks).
Proof.
  revert loaded calls.
  induction chunks as [|c cs IH]; intros loaded calls; simpl.
  - rewrite app_nil_r. f_equal. lia.
  - unfold reportChunk at 2. simpl. rewrite IH. f_equal; [lia|].
    rewrite <- app_assoc. simpl. f_equal.
    rewrite Nat.add_1_r. f_equal.
    apply imap_ext. intros k x _. simpl. do 2 f_equal. lia.
Qed.

(** What a resolved run has called: one call per remaining chunk, in
    the order of the chunk ids. *)
Lemma batchLoop_resolved env N i loaded calls calls' :
  batchLoop env N i loaded calls = Resolved calls' ->
  ∃ chunks,
    Forall2 (fun c chunk => loadChunk env c = Some chunk) (seq i (N - i)) chunks ∧
    calls' = calls ++
      imap (fun k chunk => (progressOf (loaded + S k) N, chunk)) chunks.
Proof.
  funelim (batchLoop env N i loaded calls); intros Hres.
  - injection Hres as <-. exists []. replace (totalChunks0 - i) with 0 by lia.
    simpl. rewrite app_nil_r. split; [constructor | reflexivity].
  - match goal with IH : forall _, _ -> ∃ _, _ |- _ =>
      destruct (IH _ Hres) as (rest & Hrest & ->) end.
    clear Heqcall Hres.
    rewrite forEach_reportChunk. simpl.
    match goal with Hm : mapM _ _ = Some _ |- _ =>
      apply mapM_Some in Hm; rewrite issueBatch_seq in Hm; rename Hm into Hfirst end.
    pose proof (Forall2_length _ _ _ Hfirst) as Hlen. rewrite length_seq in Hlen.
    exists (chunks ++ rest). split.
    + unfold MAX_CONCURRENT_REQUESTS in *.
      replace (totalChunks0 - i)
        with (min 8 (totalChunks0 - i) + (totalChunks0 - (i + 8))) by lia.
      rewrite seq_app. apply Forall2_app; [exact Hfirst|].
      destruct (decide (totalChunks0 - (i + 8) = 0)) as [Hz|Hnz].
      * rewrite Hz in *. simpl. exact Hrest.
      * replace (i + min 8 (totalChunks0 - i)) with (i + 8) by lia. exact Hrest.
    + rewrite imap_app, <- app_assoc. do 2 f_equal.
      apply imap_ext. intros k x _. simpl. do 2 f_equal. lia.
  - discriminate.
Qed.

(** Conversely the loop resolves whenever every remaining chunk loads:
    loading is total, and succeeds on a source that answers. *)
Lemma batchLoop_resolves env N i loaded calls :
  (∀ c, i ≤ c < N -> is_Some (loadChunk env c)) ->
  ∃ calls', batchLoop env N i loaded calls = Resolved calls'.
Proof.
  funelim (batchLoop env N i loaded calls); intros Hok.
  - eexists; reflexivity.
  - match goal with IH : _ -> ∃ _, _ |- _ => apply IH end.
    intros c Hc. apply Hok. unfold MAX_CONCURRENT_REQUESTS in *. lia.
  - exfalso.
    match goal with Hm : mapM _ _ = None |- _ =>
      apply mapM_None in Hm; rewrite issueBatch_seq in Hm;
      apply Exists_exists in Hm; destruct Hm as (c & Hin & Hnone) end.
    apply elem_of_seq in Hin. unfold MAX_CONCURRENT_REQUESTS in *.
    destruct (Hok c) as [x Hx]; [lia|]. congruence.
Qed.

Lemma progressOf_mono j k N :
  0 < N -> j ≤ k -> (progressOf j N <= progressOf k N)%Q.
Proof.
  intros HN Hjk. unfold progressOf.
  apply Qmult_le_compat_r; [|discriminate].
  unfold Qdiv. apply Qmult_le_compat_r.
  - rewrite <- Zle_Qle. lia.
  - apply Qinv_le_0_compat. replace 0%Q with (inject_Z 0) by reflexivity.
    rewrite <- Zle_Qle. lia.
Qed.

Lemma progressOf_full N : 0 < N -> (progressOf N N == 100)%Q.
Proof.
  intros HN. unfold progressOf. unfold Qdiv.
  rewrite Qmult_inv_r; [reflexivity|].
  replace 0%Q with (inject_Z 0) by reflexivity.
  rewrite inject_Z_injective. lia.
Qed.

(** C3: a resolved [loadDataProgressively] over [N > 0] chunks has called
    [onProgress] exactly [N] times; the call of index [k] (from 0), which
    is the [k + 1]-th call, carries the normalized chunk [k] and the
    progress [((k + 1) / N) * 100], written out below as a rational; the
    progress values never decrease, and the last one is 100. *)
Theorem loadDataProgressively_progress env this N calls this' :
  0 < N ->
  totalChunks <$> fst (getMetadata env this) = Some N ->
  loadDataProgressively env this = (Resolved calls, this') ->
  length calls = N ∧
  (∀ k, k < N ->
     ∃ chunk, loadChunk env k = Some chunk ∧
              calls !! k =
                Some ((inject_Z (Z.of_nat (k + 1)) / inject_Z (Z.of_nat N) * 100)%Q,
                      chunk)) ∧
  (∀ j k p q, j ≤ k -> calls !! j = Some p -> calls !! k = Some q ->
     (fst p <= fst q)%Q) ∧
  (∃ p, last calls = Some p ∧ (fst p == 100)%Q).
Proof.
  intros HN Hmeta Hload. unfold loadDataProgressively in Hload.
  destruct (getMetadata env this) as [[m|] this'']; simpl in Hmeta;
    [|discriminate].
  injection Hmeta as Hm. rewrite Hm in Hload.
  injection Hload as Hloop _.
  apply batchLoop_resolved in Hloop as (chunks & Hall & ->).
  rewrite Nat.sub_0_r in Hall. simpl.
  pose proof (Forall2_length _ _ _ Hall) as Hlen. rewrite length_seq in Hlen.
  assert (Hcall : ∀ k, k < N ->
     ∃ chunk, loadChunk env k = Some chunk ∧
       imap (fun k chunk => (progressOf (S k) N, chunk)) chunks !! k
       = Some (progressOf (S k) N, chunk)).
  { intros k Hk.
    destruct (Forall2_lookup_l _ _ _ k k Hall) as (chunk & Hchunk & Hok).
    { apply lookup_seq_lt. exact Hk. }
    exists chunk. split; [exact Hok|].
    rewrite list_lookup_imap, Hchunk. reflexivity. }
  assert (Hprog : ∀ k p,
     imap (fun k chunk => (progressOf (S k) N, chunk)) chunks !! k = Some p ->
     k < N ∧ fst p = progressOf (S k) N).
  { intros k p Hp. pose proof (lookup_lt_Some _ _ _ Hp) as Hk.
    rewrite length_imap in Hk. split; [lia|].
    destruct (Hcall k) as (chunk & _ & Hk'); [lia|].
    rewrite Hp in Hk'. injection Hk' as ->. reflexivity. }
  split; [rewrite length_imap; lia|].
  split.
  { intros k Hk. destruct (Hcall k Hk) as (chunk & Hchunk & Hk').
    exists chunk. split; [exact Hchunk|].
    transitivity (Some (progressOf (S k) N, chunk)); [exact Hk'|].
    unfold progressOf. rewrite Nat.add_1_r. reflexivity. }
  split.
  - intros j k p q Hjk Hp Hq.
    apply Hprog in Hp as [_ ->]. apply Hprog in Hq as [_ ->].
    apply progressOf_mono; lia.
  - destruct (Hcall (pred N)) as (chunk & _ & Hlast); [lia|].
    eexists. split.
    + rewrite last_lookup, length_imap, <- Hlen. exact Hlast.
    + simpl. replace (S (pred N)) with N by lia. apply progressOf_full. exact HN.
Qed.

(** Scenario A: two calls, with progress 50 and 100 (as the fractions
    100/2 and 200/2) and fifty records each; [loadData] returns the
    hundred records. *)
Example scenarioA_progress :
  map fst (callsOf (fst (loadDataProgressively scenarioA None))) =
    [(100 # 2)%Q; (200 # 2)%Q] ∧
  map (fun call => length (snd call))
      (callsOf (fst (loadDataProgressively scenarioA None))) = [50; 50] ∧
  (length <$> fst (loadData scenarioA None)) = Some 100.
Proof. vm_compute. repeat split. Qed.

Lemma loadDataProgressively_progress_witness :
  let calls := callsOf (fst (loadDataProgressively scenarioA None)) in
  length calls = 2 ∧
  (∀ k, k < 2 ->
     ∃ chunk, loadChunk scenarioA k = Some chunk ∧
              calls !! k =
                Some ((inject_Z (Z.of_nat (k + 1)) / inject_Z (Z.of_nat 2) * 100)%Q,
                      chunk)) ∧
  (∀ j k p q, j ≤ k -> calls !! j = Some p -> calls !! k = Some q ->
     (fst p <= fst q)%Q) ∧
  (∃ p, last calls = Some p ∧ (fst p == 100)%Q).
Proof.
  apply (loadDataProgressively_progress scenarioA None 2 _
           (snd (loadDataProgressively scenarioA None))).
  - lia.
  - reflexivity.
  - reflexivity.
Defined.

(** The call resolves on every source that answers the metadata request
    and every chunk request. *)
Lemma loadDataProgressively_resolves env this m :
  fst (getMetadata env this) = Some m ->
  (∀ c, c < totalChunks m -> is_Some (fetchChunk env c)) ->
  ∃ calls, fst (loadDataProgressively env this) = Resolved calls.
Proof.
  intros Hm Hok. unfold loadDataProgressively.
  destruct (getMetadata env this) as [[m'|] this']; simpl in Hm; [|discriminate].
  injection Hm as ->. simpl.
  apply batchLoop_resolves. intros c Hc. unfold loadChunk.
  destruct (Hok c) as [x Hx]; [lia|]. rewrite Hx. eexists; reflexivity.
Qed.

(** ** Fetches in flight *)

Lemma without_length chunkId ids : length (without chunkId ids) ≤ length ids.
Proof. unfold without. apply length_filter. Qed.

Lemma resumeAt_invariant N i e :
  inFlight e = [] ->
  Forall (fun b => length (fst b) ≤ MAX_CONCURRENT_REQUESTS ∧ snd b = 0)
         (issueLog e) ->
  batchInvariant (resumeAt N i e).
Proof.
  intros Hnone Hlog. unfold resumeAt, batchInvariant.
  destruct (decide (i < N)); simpl; rewrite Hnone; simpl.
  - split; [reflexivity|]. split; [apply issueBatch_length|].
    apply Forall_app. split; [exact Hlog|].
    constructor; [|constructor]. simpl.
    split; [apply issueBatch_length | reflexivity].
  - split; [exact I|]. split; [lia | exact Hlog].
Qed.

Lemma start_invariant N : batchInvariant (start N).
Proof. apply resumeAt_invariant; [reflexivity | constructor]. Qed.

Lemma onSettled_invariant N e chunkId ok :
  batchInvariant e -> batchInvariant (onSettled N e chunkId ok).
Proof.
  intros (Hctl & Hlen & Hlog). unfold onSettled.
  case_bool_decide as Hin; [|repeat split; assumption].
  pose proof (without_length chunkId (inFlight e)) as Hle.
  destruct (ctl e) as [i unsettled|done] eqn:Hc.
  - destruct ok.
    + destruct (without chunkId unsettled) as [|c rest] eqn:Hrest.
      * apply resumeAt_invariant; simpl; [|exact Hlog].
        rewrite Hctl. exact Hrest.
      * unfold batchInvariant; simpl.
        split; [rewrite Hctl; exact Hrest|]. split; [lia | exact Hlog].
    + unfold batchInvariant; simpl. split; [exact I|]. split; [lia | exact Hlog].
  - unfold batchInvariant; simpl.
    split; [exact I|]. split; [lia | exact Hlog].
Qed.

Lemma settle_all_invariant N events e :
  batchInvariant e -> batchInvariant (fold_left (settle N) events e).
Proof.
  revert e. induction events as [|ev events IH]; intros e He; simpl.
  - exact He.
  - apply IH. apply onSettled_invariant. exact He.
Qed.

Lemma resumeAt_sequential N n e :
  map fst (issueLog e) = batchesOf N n ->
  sequentialLog N (resumeAt N (n * MAX_CONCURRENT_REQUESTS) e).
Proof.
  intros Hlog. unfold resumeAt, sequentialLog.
  destruct (decide (n * MAX_CONCURRENT_REQUESTS < N)); simpl.
  - exists (S n). split; [|lia].
    rewrite map_app, Hlog. unfold batchesOf.
    rewrite seq_S, map_app. reflexivity.
  - exists n. split; [exact Hlog | exact I].
Qed.

Lemma onSettled_sequential N e chunkId ok :
  sequentialLog N e -> sequentialLog N (onSettled N e chunkId ok).
Proof.
  intros (n & Hlog & Hctl). unfold onSettled.
  case_bool_decide as Hin; [|exists n; split; assumption].
  destruct (ctl e) as [i unsettled|done] eqn:Hc.
  - destruct ok.
    + destruct (without chunkId unsettled) as [|c rest].
      * replace (i + MAX_CONCURRENT_REQUESTS)
          with (n * MAX_CONCURRENT_REQUESTS) by lia.
        apply resumeAt_sequential. exact Hlog.
      * exists n. split; [exact Hlog | exact Hctl].
    + exists n. split; [exact Hlog | exact I].
  - exists n. simpl. split; [exact Hlog | exact I].
Qed.

(** The batches of an execution are the batches of the loop, in order:
    chunks 0 to 7, then 8 to 15, and so on. *)
Lemma batches_sequential N events :
  ∃ n, map fst (issueLog (run N events)) = batchesOf N n.
Proof.
  assert (Hgen : ∀ e, sequentialLog N e ->
            sequentialLog N (fold_left (settle N) events e)).
  { induction events as [|ev events IH]; intros e He; simpl; [exact He|].
    apply IH. apply onSettled_sequential. exact He. }
  destruct (Hgen (start N)) as (n & Hlog & _).
  - apply (resumeAt_sequential N 0). reflexivity.
  - exists n. exact Hlog.
Qed.

(** C7: whatever the order and the outcome in which the fetches settle,
    at most eight fetches are in flight; every batch issued holds at most
    eight chunk ids and was issued when no fetch was in flight; and the
    batches issued are the batches of the loop, in their order. *)
Theorem inflight_bounded N events :
  length (inFlight (run N events)) ≤ MAX_CONCURRENT_REQUESTS ∧
  MAX_CONCURRENT_REQUESTS = 8 ∧
  Forall (fun b => length (fst b) ≤ MAX_CONCURRENT_REQUESTS ∧ snd b = 0)
         (issueLog (run N events)) ∧
  ∃ n, map fst (issueLog (run N events)) = batchesOf N n.
Proof.
  destruct (settle_all_invariant N events (start N) (start_invariant N))
    as (_ & Hlen & Hlog).
  split; [exact Hlen|]. split; [reflexivity|]. split; [exact Hlog|].
  apply batches_sequential.
Qed.

(** The batches of a run that is let to finish are those of the loop:
    ten chunks are fetched as eight and two. *)
Example run_ten_chunks :
  run 10 (map (fun c => (c, true)) [3; 0; 1; 2; 7; 6; 5; 4; 9; 8]) =
  {| ctl := Finished true; inFlight := [];
     issueLog := [([0; 1; 2; 3; 4; 5; 6; 7], 0); ([8; 9], 0)] |}.
Proof. vm_compute. reflexivity. Qed.

(** A rejected fetch ends the call; the rest of its batch stays in
    flight and no further batch is issued. *)
Example run_rejected_chunk :
  run 10 [(3, true); (0, false); (1, true)] =
  {| ctl := Finished false; inFlight := [2; 4; 5; 6; 7];
     issueLog := [([0; 1; 2; 3; 4; 5; 6; 7], 0)] |}.
Proof. vm_compute. reflexivity. Qed.

(** ** The data cache *)

Section CacheProperties.

Context {T : Type}.

Import DataCache.

Implicit Types (m : store T) (e : ICacheEntry T) (this : DataCache T)
  (key k : string).

(** The three ways of a lookup in [get] and [has]: an entry that has
    expired, an entry that has not, no entry. *)
Ltac case_entry this now key :=
  destruct (map_get key (cache this)) as [?e|];
  [match goal with e : ICacheEntry _ |- _ => destruct (expired now e) end|].

(** *** The store as a map *)

Lemma map_get_None key m : map_get key m = None ↔ key ∉ map_keys m.
Proof.
  induction m as [|[k e] r IH]; simpl.
  - split; [intros _; apply not_elem_of_nil | reflexivity].
  - rewrite not_elem_of_cons. case_decide as Hk.
    + split; [discriminate | intros [Hne _]; congruence].
    + rewrite IH. split; [intros Hr; split; [congruence | exact Hr] | tauto].
Qed.

Lemma map_get_set_eq key e m : map_get key (map_set key e m) = Some e.
Proof.
  induction m as [|[k e'] r IH]; simpl.
  - rewrite decide_True by reflexivity. reflexivity.
  - case_decide as Hk; simpl.
    + rewrite decide_True by exact Hk. reflexivity.
    + rewrite decide_False by exact Hk. exact IH.
Qed.

Lemma map_keys_set_present key e m :
  key ∈ map_keys m -> map_keys (map_set key e m) = map_keys m.
Proof.
  induction m as [|[k e'] r IH]; simpl; intros Hin.
  - apply elem_of_nil in Hin. contradiction.
  - case_decide as Hk; simpl; [reflexivity|].
    f_equal. apply IH. apply elem_of_cons in Hin as [Heq|Hin]; congruence.
Qed.

Lemma map_keys_set_absent key e m :
  key ∉ map_keys m -> map_keys (map_set key e m) = map_keys m ++ [key].
Proof.
  induction m as [|[k e'] r IH]; simpl; intros Hnot; [reflexivity|].
  apply not_elem_of_cons in Hnot as [Hne Hnot].
  rewrite decide_False by congruence. simpl. f_equal. apply IH. exact Hnot.
Qed.

Lemma map_set_length key e m : length (map_set key e m) ≤ S (length m).
Proof.
  induction m as [|[k e'] r IH]; simpl; [lia|].
  case_decide; simpl; lia.
Qed.

Lemma map_delete_length key m : length (map_delete key m) ≤ length m.
Proof.
  induction m as [|[k e'] r IH]; simpl; [lia|].
  case_decide; simpl; lia.
Qed.

Lemma map_keys_delete_subseteq key m : map_keys (map_delete key m) ⊆ map_keys m.
Proof.
  induction m as [|[k e'] r IH]; simpl; [reflexivity|].
  case_decide; simpl.
  - intros x Hx. apply elem_of_cons. right. exact Hx.
  - intros x Hx. apply elem_of_cons in Hx as [->|Hx].
    + apply elem_of_cons. left; reflexivity.
    + apply elem_of_cons. right. apply IH. exact Hx.
Qed.

Lemma map_delete_NoDup key m :
  NoDup (map_keys m) -> NoDup (map_keys (map_delete key m)).
Proof.
  induction m as [|[k e'] r IH]; simpl; intros Hnd; [exact Hnd|].
  apply NoDup_cons in Hnd as [Hk Hr].
  case_decide; simpl; [exact Hr|].
  apply NoDup_cons. split; [|apply IH; exact Hr].
  intros Hin. apply Hk. apply (map_keys_delete_subseteq key r). exact Hin.
Qed.

Lemma map_delete_gone key m :
  NoDup (map_keys m) -> key ∉ map_keys (map_delete key m).
Proof.
  induction m as [|[k e'] r IH]; simpl; intros Hnd.
  - apply not_elem_of_nil.
  - apply NoDup_cons in Hnd as [Hk Hr].
    case_decide as Heq; simpl.
    + subst k. exact Hk.
    + apply not_elem_of_cons. split; [congruence | apply IH; exact Hr].
Qed.

Lemma map_set_NoDup key e m :
  NoDup (map_keys m) -> NoDup (map_keys (map_set key e m)).
Proof.
  intros Hnd. destruct (decide (key ∈ map_keys m)) as [Hin|Hnot].
  - rewrite map_keys_set_present by exact Hin. exact Hnd.
  - rewrite map_keys_set_absent by exact Hnot.
    apply NoDup_app. split; [exact Hnd|]. split.
    + intros x Hx Hx'. apply list_elem_of_singleton in Hx'. congruence.
    + apply NoDup_singleton.
Qed.

(** Deleting the first key of the iteration order drops the head. *)
Lemma evict_first m :
  match map_keys m with
  | firstKey :: _ => map_delete firstKey m
  | [] => m
  end = tail m.
Proof.
  destruct m as [|[k e] r]; simpl; [reflexivity|].
  rewrite decide_True by reflexivity. reflexivity.
Qed.

Lemma set_cache this now key data ttl :
  cache (set this now key data ttl) =
  map_set key {| e_data := data; e_timestamp := now; e_ttl := (ttl * 1000)%Z |}
    (if (maxSize this <=? length (cache this))%nat
     then tail (cache this) else cache this).
Proof.
  unfold set. simpl. rewrite evict_first. reflexivity.
Qed.

Lemma set_maxSize this now key data ttl :
  maxSize (set this now key data ttl) = maxSize this.
Proof. reflexivity. Qed.

(** The asynchronous [getOrSet], when not interleaved with other calls,
    does what [getOrSetSync] does. *)
Lemma getOrSet_as_sync this now now' key factory ttl :
  getOrSet this now now' key factory ttl =
  getOrSetSync this now now' key factory ttl.
Proof.
  unfold getOrSet, getOrSet_before, getOrSet_after, getOrSetSync.
  destruct (get this now key) as [cached this1].
  destruct cached; try reflexivity.
  destruct (factory tt); reflexivity.
Qed.

(** *** Eviction *)

Lemma map_keys_tail m : map_keys (tail m) = tail (map_keys m).
Proof. destruct m; reflexivity. Qed.

Lemma setAll_maxSize (calls : list (setCall T)) this :
  maxSize (setAll this calls) = maxSize this.
Proof.
  revert this. induction calls as [|s calls IH]; intros this; simpl.
  - reflexivity.
  - unfold setAll in *. simpl. rewrite IH. reflexivity.
Qed.

(** Below capacity, [set] calls with fresh keys append to the store. *)
Lemma setAll_keys (calls : list (setCall T)) this :
  NoDup (keys this ++ map c_key calls) ->
  length (cache this) + length calls ≤ maxSize this ->
  keys (setAll this calls) = keys this ++ map c_key calls.
Proof.
  revert this. induction calls as [|s calls IH]; intros this Hnd Hroom; simpl.
  - rewrite app_nil_r. reflexivity.
  - simpl in Hroom.
    assert (Hfresh : c_key s ∉ map_keys (cache this)).
    { apply NoDup_app in Hnd as (_ & Hdis & _). intros Hin.
      apply (Hdis _ Hin). apply elem_of_cons. left; reflexivity. }
    assert (Hkeys : keys (set this (c_now s) (c_key s) (c_data s) (c_ttl s))
                    = keys this ++ [c_key s]).
    { unfold keys. rewrite set_cache.
      destruct (Nat.leb_spec (maxSize this) (length (cache this))); [lia|].
      apply map_keys_set_absent. exact Hfresh. }
    unfold setAll in *. simpl. rewrite IH.
    + rewrite Hkeys, <- app_assoc. reflexivity.
    + rewrite Hkeys, <- app_assoc. exact Hnd.
    + rewrite set_maxSize.
      assert (Hlen : length (cache (set this (c_now s) (c_key s) (c_data s) (c_ttl s)))
                     = S (length (cache this))).
      { unfold keys, map_keys in Hkeys.
        apply (f_equal length) in Hkeys.
        rewrite length_app, !length_map in Hkeys. cbn [length] in Hkeys. lia. }
      lia.
Qed.

(** C4: on an empty cache of capacity [C >= 1], [C + 1] calls of [set]
    with distinct keys leave exactly [C] entries; the key set first is
    absent and the others remain, in the order they were set. *)
Theorem eviction_under_capacity C (calls : list (setCall T)) :
  1 ≤ C ->
  length calls = S C ->
  NoDup (map c_key calls) ->
  size (setAll (new C) calls) = C ∧
  (∀ firstKey, head (map c_key calls) = Some firstKey ->
     firstKey ∉ keys (setAll (new C) calls)) ∧
  keys (setAll (new C) calls) = tail (map c_key calls).
Proof.
  intros HC Hlen Hnd.
  destruct (exists_last (l := calls)) as (init & lc & ->).
  { intros ->. discriminate. }
  rewrite length_app in Hlen. simpl in Hlen.
  assert (Hinit : length init = C) by lia.
  rewrite map_app in Hnd. simpl in Hnd.
  assert (Hkeys1 : keys (setAll (new C) init) = map c_key init).
  { rewrite setAll_keys; simpl; [reflexivity | | lia].
    apply NoDup_app in Hnd as (Hnd & _). exact Hnd. }
  assert (Hfull : length (cache (setAll (new C) init)) = C).
  { unfold keys, map_keys in Hkeys1. apply (f_equal length) in Hkeys1.
    rewrite !length_map in Hkeys1. lia. }
  assert (Hkeys : keys (setAll (new C) (init ++ [lc]))
                  = tail (map c_key init) ++ [c_key lc]).
  { unfold setAll. rewrite fold_left_app. simpl. fold (setAll (new C) init).
    unfold keys. rewrite set_cache, setAll_maxSize. simpl.
    destruct (Nat.leb_spec C (length (cache (setAll (new C) init)))); [|lia].
    rewrite map_keys_set_absent; rewrite map_keys_tail;
      fold (keys (setAll (new C) init)); rewrite Hkeys1; [reflexivity|].
    apply NoDup_app in Hnd as (_ & Hdis & _). intros Hin.
    apply (Hdis (c_key lc)).
    - destruct (map c_key init); [exact Hin|].
      apply elem_of_cons. right. exact Hin.
    - apply elem_of_cons. left; reflexivity. }
  destruct init as [|fc init]; [simpl in Hinit; lia|].
  split; [|split].
  - unfold size. apply (f_equal length) in Hkeys.
    unfold keys, map_keys in Hkeys. rewrite length_map in Hkeys.
    rewrite Hkeys. simpl. rewrite length_app, length_map. simpl.
    simpl in Hinit. lia.
  - intros firstKey Hhead. simpl in Hhead. injection Hhead as <-.
    rewrite Hkeys. simpl. simpl in Hnd.
    apply NoDup_cons in Hnd as [Hnot _]. exact Hnot.
  - rewrite Hkeys. rewrite map_app. reflexivity.
Qed.

(** *** The size bound *)

Lemma set_fits this now key data ttl :
  1 ≤ maxSize this -> fits this -> fits (set this now key data ttl).
Proof.
  unfold fits. intros Hmax Hfit. rewrite set_cache, set_maxSize.
  pose proof (map_set_length key
    {| e_data := data; e_timestamp := now; e_ttl := (ttl * 1000)%Z |}
    (if (maxSize this <=? length (cache this))%nat
     then tail (cache this) else cache this)) as Hset.
  destruct (Nat.leb_spec (maxSize this) (length (cache this))).
  - destruct (cache this); simpl in *; lia.
  - lia.
Qed.

Lemma get_fits this now key :
  fits this -> fits (snd (get this now key)) ∧
  maxSize (snd (get this now key)) = maxSize this.
Proof.
  unfold fits, get. intros Hfit.
  case_entry this now key; simpl; split; try reflexivity; try exact Hfit.
  pose proof (map_delete_length key (cache this)). lia.
Qed.

Lemma getOrSetSync_fits this now now' key factory ttl :
  1 ≤ maxSize this -> fits this ->
  fits (after (getOrSetSync this now now' key factory ttl)) ∧
  maxSize (after (getOrSetSync this now now' key factory ttl)) = maxSize this.
Proof.
  intros Hmax Hfit. unfold getOrSetSync.
  destruct (get_fits this now key Hfit) as [Hfit1 Hmax1].
  destruct (get this now key) as [cached this1]. simpl in *.
  destruct cached; simpl; try (split; assumption).
  destruct (factory tt); simpl; [|split; assumption].
  split; [apply set_fits; [lia | exact Hfit1] | exact Hmax1].
Qed.

Lemma apply_fits this call :
  1 ≤ maxSize this -> fits this ->
  fits (apply this call) ∧ maxSize (apply this call) = maxSize this.
Proof.
  intros Hmax Hfit. destruct call as [now o]. unfold apply. simpl.
  destruct o; cbn [fst snd].
  - split; [apply set_fits; assumption | reflexivity].
  - apply get_fits. exact Hfit.
  - unfold has, fits in *.
    case_entry this now key; simpl; split; try reflexivity; try exact Hfit.
    pose proof (map_delete_length key (cache this)). lia.
  - unfold fits in *. simpl. split; [|reflexivity].
    pose proof (map_delete_length key (cache this)). lia.
  - unfold fits in *. split; [|reflexivity].
    unfold deleteByPattern, withCache. cbn [snd cache maxSize].
    etransitivity; [apply length_filter | exact Hfit].
  - unfold fits. simpl. split; [lia | reflexivity].
  - unfold fits in *. split; [|reflexivity].
    unfold cleanup, withCache. cbn [snd cache maxSize].
    etransitivity; [apply length_filter | exact Hfit].
  - split; [exact Hfit | reflexivity].
  - rewrite getOrSet_as_sync. apply getOrSetSync_fits; assumption.
  - unfold getOrSet_before.
    destruct (get_fits this now key Hfit) as [Hfit1 Hmax1].
    destruct (get this now key) as [cached this1].
    destruct cached; simpl in *; split; assumption.
  - unfold getOrSet_after. destruct result; simpl.
    + split; [apply set_fits; assumption | reflexivity].
    + split; [exact Hfit | reflexivity].
  - apply getOrSetSync_fits; assumption.
Qed.

Lemma runOps_fits calls this :
  1 ≤ maxSize this -> fits this ->
  fits (runOps this calls) ∧ maxSize (runOps this calls) = maxSize this.
Proof.
  revert this. induction calls as [|call calls IH]; intros this Hmax Hfit.
  - split; [exact Hfit | reflexivity].
  - destruct (apply_fits this call Hmax Hfit) as [Hfit1 Hmax1].
    unfold runOps in *. simpl.
    destruct (IH (apply this call)) as [Hfit2 Hmax2]; [lia | exact Hfit1 |].
    split; [exact Hfit2 | lia].
Qed.

(** A [getOrSet] is its two halves run one after the other; when other
    calls are made while it is suspended, they come between the two in
    the sequence of calls. *)
Lemma getOrSet_phases this now key factory ttl elapsed :
  apply this (now, OpGetOrSet key factory ttl elapsed) =
  if factoryInvoked (getOrSet this now (now + elapsed)%Z key factory ttl)
  then runOps this [ (now, OpGetOrSetBefore key);
                     ((now + elapsed)%Z, OpGetOrSetAfter key (factory tt) ttl) ]
  else runOps this [ (now, OpGetOrSetBefore key) ].
Proof.
  unfold runOps, apply, getOrSet. simpl.
  destruct (getOrSet_before this now key) as [[cached|] this1]; simpl.
  - reflexivity.
  - destruct (getOrSet_after this1 (now + elapsed)%Z key (factory tt) ttl).
    reflexivity.
Qed.

(** C8: on a cache built with [maxSize = C >= 1], after any sequence of
    calls the store holds at most [C] entries; and a [set] on a store
    that holds [C] entries drops the oldest entry and then stores the
    key, be the key present or not.  The calls of a sequence are the
    methods of the cache, a suspended [getOrSet] counting as its two
    halves with whatever calls are made in between. *)
Theorem size_never_exceeds_maxSize C (calls : list (Z * op T)) :
  1 ≤ C ->
  size (runOps (new C) calls) ≤ C ∧
  maxSize (runOps (new C) calls) = C ∧
  (∀ this now key data ttl,
     maxSize this = C -> size this = C ->
     cache (set this now key data ttl) =
     map_set key {| e_data := data; e_timestamp := now;
                    e_ttl := (ttl * 1000)%Z |} (tail (cache this))).
Proof.
  intros HC.
  destruct (runOps_fits calls (new C)) as [Hfit Hmax]; [exact HC | |].
  { unfold fits. simpl. lia. }
  unfold fits in Hfit. simpl in Hmax. rewrite Hmax in Hfit.
  split; [exact Hfit|]. split; [exact Hmax|].
  intros this now key data ttl HmaxC Hsize. rewrite set_cache.
  unfold size in Hsize.
  destruct (Nat.leb_spec (maxSize this) (length (cache this))); [reflexivity | lia].
Qed.

(** *** Expiry *)

Lemma expired_spec now e :
  expired now e = true ↔ (e_ttl e < now - e_timestamp e)%Z.
Proof. unfold expired. apply Z.ltb_lt. Qed.

Lemma get_stored this now key e :
  map_get key (cache this) = Some e ->
  get this now key =
  if expired now e
  then (JNull, {| cache := map_delete key (cache this); hits := hits this;
                  misses := S (misses this); maxSize := maxSize this |})
  else (e_data e, {| cache := cache this; hits := S (hits this);
                     misses := misses this; maxSize := maxSize this |}).
Proof. intros He. unfold get. rewrite He. reflexivity. Qed.

Lemma has_stored this now key e :
  map_get key (cache this) = Some e ->
  has this now key =
  if expired now e
  then (false, withCache this (map_delete key (cache this)))
  else (true, this).
Proof. intros He. unfold has. rewrite He. reflexivity. Qed.

Lemma set_stores this now key data ttl :
  map_get key (cache (set this now key data ttl)) =
  Some {| e_data := data; e_timestamp := now; e_ttl := (ttl * 1000)%Z |}.
Proof. rewrite set_cache. apply map_get_set_eq. Qed.

Lemma set_NoDup this now key data ttl :
  NoDup (keys this) -> NoDup (keys (set this now key data ttl)).
Proof.
  unfold keys. intros Hnd. rewrite set_cache. apply map_set_NoDup.
  destruct (maxSize this <=? length (cache this))%nat; [|exact Hnd].
  rewrite map_keys_tail. destruct (map_keys (cache this)); [exact Hnd|].
  apply NoDup_cons in Hnd as [_ Hnd]. exact Hnd.
Qed.

Lemma map_keys_filter_subseteq (P : string * ICacheEntry T -> Prop)
    `{!∀ kv, Decision (P kv)} (m : list (string * ICacheEntry T)) :
  map_keys (filter P m) ⊆ map_keys m.
Proof.
  induction m as [|kv r IH]; [reflexivity|].
  rewrite filter_cons. intros x Hx. simpl. apply elem_of_cons.
  destruct (decide (P kv)).
  - simpl in Hx. apply elem_of_cons in Hx as [->|Hx]; [left; reflexivity|].
    right. apply IH. exact Hx.
  - right. apply IH. exact Hx.
Qed.

Lemma map_keys_filter_NoDup (P : string * ICacheEntry T -> Prop)
    `{!∀ kv, Decision (P kv)} (m : list (string * ICacheEntry T)) :
  NoDup (map_keys m) -> NoDup (map_keys (filter P m)).
Proof.
  induction m as [|kv r IH]; intros Hnd; [exact Hnd|].
  simpl in Hnd. apply NoDup_cons in Hnd as [Hk Hr].
  rewrite filter_cons. destruct (decide (P kv)); [|apply IH; exact Hr].
  simpl. apply NoDup_cons. split; [|apply IH; exact Hr].
  intros Hin. apply Hk. apply (map_keys_filter_subseteq P r). exact Hin.
Qed.

Lemma get_NoDup this now key :
  NoDup (keys this) -> NoDup (keys (snd (get this now key))).
Proof.
  unfold keys, get. intros Hnd.
  case_entry this now key; simpl; try exact Hnd.
  apply map_delete_NoDup. exact Hnd.
Qed.

Lemma apply_NoDup this call :
  NoDup (keys this) -> NoDup (keys (apply this call)).
Proof.
  intros Hnd. destruct call as [now o]. unfold apply. cbn [fst snd].
  assert (Hgos : ∀ now' key factory ttl,
            NoDup (keys (after (getOrSetSync this now now' key factory ttl)))).
  { intros now' key factory ttl. unfold getOrSetSync.
    pose proof (get_NoDup this now key Hnd) as Hg.
    destruct (get this now key) as [cached this1]. simpl in Hg.
    destruct cached; simpl; try exact Hg.
    destruct (factory tt); simpl; [apply set_NoDup|]; exact Hg. }
  destruct o.
  - apply set_NoDup. exact Hnd.
  - apply get_NoDup. exact Hnd.
  - unfold keys, has in *.
    case_entry this now key; simpl; try exact Hnd.
    apply map_delete_NoDup. exact Hnd.
  - unfold keys in *. simpl. apply map_delete_NoDup. exact Hnd.
  - unfold keys, deleteByPattern, withCache in *. cbn [snd cache].
    apply map_keys_filter_NoDup. exact Hnd.
  - unfold keys. simpl. constructor.
  - unfold keys, cleanup, withCache in *. cbn [snd cache].
    apply map_keys_filter_NoDup. exact Hnd.
  - exact Hnd.
  - rewrite getOrSet_as_sync. apply Hgos.
  - unfold getOrSet_before.
    pose proof (get_NoDup this now key Hnd) as Hg.
    destruct (get this now key) as [cached this1].
    destruct cached; exact Hg.
  - unfold getOrSet_after. destruct result; simpl; [apply set_NoDup|]; exact Hnd.
  - apply Hgos.
Qed.

(** The keys of a cache are distinct, whatever was called on it. *)
Lemma runOps_NoDup calls C :
  NoDup (keys (runOps (@new T C) calls)).
Proof.
  unfold runOps.
  assert (Hgen : ∀ this, NoDup (keys this) ->
            NoDup (keys (fold_left apply calls this))).
  { induction calls as [|call calls IH]; intros this Hnd; simpl.
    - exact Hnd.
    - apply IH. apply apply_NoDup. exact Hnd. }
  apply Hgen. constructor.
Qed.

(** An entry that is in the store is served until its age exceeds its
    ttl, and is removed by the first [get] or [has] after that. *)
Lemma stored_entry_ttl this key e later :
  NoDup (keys this) ->
  map_get key (cache this) = Some e ->
  ((later - e_timestamp e <= e_ttl e)%Z ->
     fst (get this later key) = e_data e ∧ fst (has this later key) = true) ∧
  ((e_ttl e < later - e_timestamp e)%Z ->
     fst (get this later key) = JNull ∧
     fst (has this later key) = false ∧
     (key ∉ keys (snd (get this later key))) ∧
     (key ∉ keys (snd (has this later key)))).
Proof.
  intros Hnd He.
  rewrite (get_stored _ later key _ He), (has_stored _ later key _ He).
  split; intros Hage.
  - assert (Hfresh : expired later e = false).
    { unfold expired. apply Z.ltb_ge. exact Hage. }
    rewrite Hfresh. split; reflexivity.
  - assert (Hold : expired later e = true) by (apply expired_spec; exact Hage).
    rewrite Hold. simpl. repeat split; try reflexivity;
      apply map_delete_gone; exact Hnd.
Qed.

(** C5: after [set(key, data, ttl)] at time [now], a [get]/[has] at time
    [later] with [later - now <= ttl * 1000] finds the entry and [get]
    returns [data]; with [later - now > ttl * 1000] the [get] returns
    [null], [has] returns [false], and either call leaves the store
    without the key. *)
Theorem cache_ttl this now key data ttl later :
  NoDup (keys this) ->
  ((later - now <= ttl * 1000)%Z ->
     fst (get (set this now key data ttl) later key) = data ∧
     fst (has (set this now key data ttl) later key) = true) ∧
  ((ttl * 1000 < later - now)%Z ->
     fst (get (set this now key data ttl) later key) = JNull ∧
     fst (has (set this now key data ttl) later key) = false ∧
     (key ∉ keys (snd (get (set this now key data ttl) later key))) ∧
     (key ∉ keys (snd (has (set this now key data ttl) later key)))).
Proof.
  intros Hnd.
  exact (stored_entry_ttl (set this now key data ttl) key
           {| e_data := data; e_timestamp := now; e_ttl := (ttl * 1000)%Z |}
           later (set_NoDup this now key data ttl Hnd)
           (set_stores this now key data ttl)).
Qed.

(** *** A cached null *)

Lemma get_nothingToServe this now key :
  nothingToServe this key -> fst (get this now key) = JNull.
Proof.
  unfold nothingToServe, get.
  destruct (map_get key (cache this)) as [e|]; [|reflexivity].
  intros He. destruct (expired now e); [reflexivity | exact He].
Qed.

Lemma getOrSetSync_invokes this now now' key factory ttl :
  nothingToServe this key ->
  factoryInvoked (getOrSetSync this now now' key factory ttl) = true.
Proof.
  intros Hn. apply (get_nothingToServe this now key) in Hn.
  unfold getOrSetSync. destruct (get this now key) as [cached this1].
  simpl in Hn. subst cached. destruct (factory tt); reflexivity.
Qed.

Lemma getOrSetSync_served this now now' key factory ttl :
  factoryInvoked (getOrSetSync this now now' key factory ttl) = false ->
  ∃ v, returned (getOrSetSync this now now' key factory ttl) = Some v ∧
       v = fst (get this now key) ∧ v ≠ JNull.
Proof.
  unfold getOrSetSync. destruct (get this now key) as [cached this1].
  destruct cached; simpl.
  - destruct (factory tt); discriminate.
  - intros _. exists JUndefined. repeat split. discriminate.
  - intros _. exists (JData d). repeat split. discriminate.
Qed.

Lemma getOrSetSync_stores_null this now now' key factory ttl :
  factoryInvoked (getOrSetSync this now now' key factory ttl) = true ->
  factory tt = Some JNull ->
  returned (getOrSetSync this now now' key factory ttl) = Some JNull ∧
  map_get key (cache (after (getOrSetSync this now now' key factory ttl))) =
    Some {| e_data := JNull; e_timestamp := now'; e_ttl := (ttl * 1000)%Z |}.
Proof.
  unfold getOrSetSync. destruct (get this now key) as [cached this1].
  destruct cached; simpl; try discriminate.
  intros _ ->. simpl. split; [reflexivity | apply set_stores].
Qed.

Lemma getOrSetSync_null_keeps this now now' key ttl :
  nothingToServe this key ->
  nothingToServe
    (after (getOrSetSync this now now' key (fun _ => Some JNull) ttl)) key.
Proof.
  intros Hn.
  pose proof (getOrSetSync_invokes this now now' key
                (fun _ => Some JNull) ttl Hn) as Hinv.
  destruct (getOrSetSync_stores_null this now now' key
              (fun _ => Some JNull) ttl Hinv eq_refl) as [_ Hst].
  unfold nothingToServe. rewrite Hst. reflexivity.
Qed.

Lemma getOrSetSyncAll_null_invokes calls this key :
  nothingToServe this key ->
  Forall (eq true)
    (fst (getOrSetSyncAll this key (fun _ => Some JNull) calls)).
Proof.
  revert this. induction calls as [|[[now now'] ttl] rest IH]; intros this Hn.
  - constructor.
  - simpl.
    pose proof (IH _ (getOrSetSync_null_keeps this now now' key ttl Hn)) as Hrest.
    destruct (getOrSetSyncAll _ key _ rest) as [flags final]. simpl in *.
    constructor; [|exact Hrest].
    symmetry. apply getOrSetSync_invokes. exact Hn.
Qed.

(** A [get] counts a miss exactly when the key is absent or its entry
    has expired; an unexpired entry, whatever it holds, counts a hit. *)
Lemma get_counts this now key :
  (misses (snd (get this now key)) = S (misses this) ∧
   hits (snd (get this now key)) = hits this ∧
   (map_get key (cache this) = None ∨
    ∃ e, map_get key (cache this) = Some e ∧ expired now e = true)) ∨
  (misses (snd (get this now key)) = misses this ∧
   hits (snd (get this now key)) = S (hits this) ∧
   ∃ e, map_get key (cache this) = Some e ∧ expired now e = false ∧
        fst (get this now key) = e_data e).
Proof.
  unfold get. destruct (map_get key (cache this)) as [e|].
  - destruct (expired now e) eqn:Hx; simpl.
    + left. repeat split. right. exists e. split; [reflexivity | exact Hx].
    + right. repeat split. exists e. repeat split. exact Hx.
  - left. repeat split. left. reflexivity.
Qed.

(** C9: a call of [getOrSetSync] (or [getOrSet]) that does not invoke
    the factory returns a value that is not [null]; when the factory is
    invoked and returns [null], the [null] is stored under the key, and
    every later call on that key invokes the factory again, for as long
    as the factories return [null]; and the [get] of a stored, unexpired
    [null] is counted as a hit, a miss being counted only for an absent
    or expired entry. *)
Theorem null_never_served_from_cache this now now' key factory ttl :
  getOrSet this now now' key factory ttl =
    getOrSetSync this now now' key factory ttl ∧
  (factoryInvoked (getOrSetSync this now now' key factory ttl) = false ->
     ∃ v, returned (getOrSetSync this now now' key factory ttl) = Some v ∧
          v ≠ JNull) ∧
  (factoryInvoked (getOrSetSync this now now' key factory ttl) = true ->
   factory tt = Some JNull ->
     returned (getOrSetSync this now now' key factory ttl) = Some JNull ∧
     (e_data <$> map_get key
        (cache (after (getOrSetSync this now now' key factory ttl)))) =
       Some JNull ∧
     (∀ t t' factory' ttl',
        factoryInvoked
          (getOrSetSync (after (getOrSetSync this now now' key factory ttl))
             t t' key factory' ttl') = true) ∧
     (∀ calls,
        Forall (eq true)
          (fst (getOrSetSyncAll
                  (after (getOrSetSync this now now' key factory ttl))
                  key (fun _ => Some JNull) calls)))) ∧
  (∀ e, map_get key (cache this) = Some e -> e_data e = JNull ->
        expired now e = false ->
        fst (get this now key) = JNull ∧
        hits (snd (get this now key)) = S (hits this) ∧
        misses (snd (get this now key)) = misses this) ∧
  (map_get key (cache this) = None ->
     fst (get this now key) = JNull ∧
     misses (snd (get this now key)) = S (misses this)) ∧
  (misses (snd (get this now key)) = S (misses this) ->
     map_get key (cache this) = None ∨
     ∃ e, map_get key (cache this) = Some e ∧ expired now e = true).
Proof.
  split; [apply getOrSet_as_sync|]. split; [|split; [|split; [|split]]].
  - intros Hserved.
    destruct (getOrSetSync_served _ _ _ _ _ _ Hserved) as (v & Hv & _ & Hnn).
    exists v. split; assumption.
  - intros Hinv Hnull.
    destruct (getOrSetSync_stores_null _ _ _ _ _ _ Hinv Hnull) as [Hret Hst].
    assert (Hn : nothingToServe
                   (after (getOrSetSync this now now' key factory ttl)) key).
    { unfold nothingToServe. rewrite Hst. reflexivity. }
    split; [exact Hret|]. split; [rewrite Hst; reflexivity|]. split.
    + intros t t' factory' ttl'. apply getOrSetSync_invokes. exact Hn.
    + intros calls. apply getOrSetSyncAll_null_invokes. exact Hn.
  - intros e He Hnull Hfresh. rewrite (get_stored _ _ _ _ He), Hfresh. simpl.
    repeat split. exact Hnull.
  - intros Hnone. unfold get. rewrite Hnone. split; reflexivity.
  - intros Hmiss. destruct (get_counts this now key) as [(_ & _ & H)|(Hm & _)].
    + exact H.
    + lia.
Qed.

End CacheProperties.

(** *** The cache on sample calls *)

Lemma eviction_under_capacity_witness :
  DataCache.size (DataCache.setAll (DataCache.new 2) threeSets) = 2 ∧
  (∀ firstKey, head (map DataCache.c_key threeSets) = Some firstKey ->
     firstKey ∉ DataCache.keys (DataCache.setAll (DataCache.new 2) threeSets)) ∧
  DataCache.keys (DataCache.setAll (DataCache.new 2) threeSets) =
    tail (map DataCache.c_key threeSets).
Proof.
  apply (eviction_under_capacity 2 threeSets).
  - lia.
  - reflexivity.
  - apply (bool_decide_unpack _). vm_compute. exact I.
Defined.

(** Reading the oldest key does not protect it: eviction follows the
    order of insertion, not of access. *)
Example eviction_ignores_reads :
  DataCache.keys
    (DataCache.runOps (DataCache.new 2)
       [ (0%Z, DataCache.OpSet "a" (DataCache.JData 1) 60%Z);
         (1%Z, DataCache.OpSet "b" (DataCache.JData 2) 60%Z);
         (2%Z, DataCache.OpGet "a");
         (3%Z, DataCache.OpSet "c" (DataCache.JData 3) 60%Z) ])
  = ["b"; "c"].
Proof. reflexivity. Qed.

(** Setting again a key of a full store still drops the oldest entry. *)
Example set_present_key_evicts :
  DataCache.keys
    (DataCache.runOps (DataCache.new 2)
       [ (0%Z, DataCache.OpSet "a" (DataCache.JData 1) 60%Z);
         (1%Z, DataCache.OpSet "b" (DataCache.JData 2) 60%Z);
         (2%Z, DataCache.OpSet "b" (DataCache.JData 3) 60%Z) ])
  = ["b"].
Proof. reflexivity. Qed.

(** With [maxSize = 0] nothing can be evicted and the entry is stored:
    the bound needs [maxSize >= 1]. *)
Example zero_capacity_overflows :
  DataCache.size
    (DataCache.set (DataCache.new 0) 0%Z "a" (DataCache.JData 1) 60%Z) = 1.
Proof. reflexivity. Qed.

Lemma size_never_exceeds_maxSize_witness :
  DataCache.size (DataCache.runOps (DataCache.new 2) sampleCalls) ≤ 2 ∧
  DataCache.maxSize (DataCache.runOps (DataCache.new 2) sampleCalls) = 2 ∧
  (∀ (this : DataCache.DataCache nat) now key data ttl,
     DataCache.maxSize this = 2 -> DataCache.size this = 2 ->
     DataCache.cache (DataCache.set this now key data ttl) =
     DataCache.map_set key
       {| DataCache.e_data := data; DataCache.e_timestamp := now;
          DataCache.e_ttl := (ttl * 1000)%Z |} (tail (DataCache.cache this))).
Proof.
  apply (size_never_exceeds_maxSize 2 sampleCalls). lia.
Defined.

Lemma cache_ttl_witness :
  (fst (DataCache.get (DataCache.set (DataCache.new 2) 0%Z "k" (DataCache.JData 7) 1%Z)
          1000%Z "k") = DataCache.JData 7 ∧
   fst (DataCache.has (DataCache.set (DataCache.new 2) 0%Z "k" (DataCache.JData 7) 1%Z)
          1000%Z "k") = true) ∧
  (fst (DataCache.get (DataCache.set (DataCache.new 2) 0%Z "k" (DataCache.JData 7) 1%Z)
          1001%Z "k") = DataCache.JNull ∧
   fst (DataCache.has (DataCache.set (DataCache.new 2) 0%Z "k" (DataCache.JData 7) 1%Z)
          1001%Z "k") = false ∧
   ("k" ∉ DataCache.keys (snd (DataCache.get
        (DataCache.set (DataCache.new 2) 0%Z "k" (DataCache.JData 7) 1%Z) 1001%Z "k"))) ∧
   ("k" ∉ DataCache.keys (snd (DataCache.has
        (DataCache.set (DataCache.new 2) 0%Z "k" (DataCache.JData 7) 1%Z) 1001%Z "k")))).
Proof.
  split.
  - apply (cache_ttl (DataCache.new 2) 0%Z "k" (DataCache.JData 7) 1%Z 1000%Z).
    + constructor.
    + lia.
  - apply (cache_ttl (DataCache.new 2) 0%Z "k" (DataCache.JData 7) 1%Z 1001%Z).
    + constructor.
    + lia.
Defined.

Lemma null_never_served_from_cache_witness :
  DataCache.returned
    (DataCache.getOrSetSync (DataCache.new 2) 0%Z 1%Z "k" nullFactory 60%Z)
    = Some DataCache.JNull ∧
  (DataCache.e_data <$> DataCache.map_get "k" (DataCache.cache afterNullFactory))
    = Some DataCache.JNull ∧
  (∀ t t' factory' ttl',
     DataCache.factoryInvoked
       (DataCache.getOrSetSync afterNullFactory t t' "k" factory' ttl') = true) ∧
  (∀ calls,
     Forall (eq true)
       (fst (DataCache.getOrSetSyncAll afterNullFactory "k"
               (fun _ => Some DataCache.JNull) calls))).
Proof.
  apply (null_never_served_from_cache (DataCache.new 2) 0%Z 1%Z "k"
           nullFactory 60%Z); reflexivity.
Defined.

(** The stored [null] is read as a hit, and the factory runs again. *)
Example stored_null_is_a_hit :
  let r := DataCache.getOrSetSync afterNullFactory 2%Z 3%Z "k" nullFactory 60%Z in
  DataCache.factoryInvoked r = true ∧
  DataCache.hits (DataCache.after r) = 1 ∧
  DataCache.misses (DataCache.after r) = 1.
Proof. repeat split. Qed.

(** ** The transform offload manager *)

Section ManagerProperties.

Import WebWorkerManager.

Implicit Types (this : manager) (data : WorkerMessage) (done : list nat).

Lemma msgId_inj n n' : msgId n = msgId n' -> n = n'.
Proof.
  unfold msgId. intros Heq.
  apply (inj (String.app "msg_")) in Heq.
  apply (inj pretty) in Heq. exact Heq.
Qed.

Lemma settled_app out out' : settled (out ++ out') = settled out ++ settled out'.
Proof. unfold settled. rewrite map_app, concat_app. reflexivity. Qed.

Lemma initial_consistent : consistent initial [].
Proof.
  split; [|split].
  - intros id p Hp. simpl in Hp. rewrite lookup_empty in Hp. discriminate.
  - constructor.
  - intros p Hp. apply elem_of_nil in Hp. contradiction.
Qed.

Lemma initialize_consistent this done creatable :
  consistent this done -> consistent (initialize this creatable) done.
Proof.
  unfold initialize. destruct (worker this), creatable; intros H; exact H.
Qed.

Lemma terminate_consistent this done :
  consistent this done -> consistent (terminate this) done.
Proof.
  unfold terminate. intros Hc. destruct (worker this); [|exact Hc].
  destruct Hc as (Hp & Hnd & Hle). split; [|split; assumption].
  intros id p Hpen. simpl in Hpen. rewrite lookup_empty in Hpen. discriminate.
Qed.

Lemma sendMessage_consistent this done type payload :
  consistent this done ->
  consistent (fst (sendMessage this type payload))
             (done ++ settled (snd (sendMessage this type payload))).
Proof.
  unfold sendMessage. intros Hc.
  destruct (worker this); simpl; rewrite app_nil_r; [|exact Hc].
  destruct Hc as (Hp & Hnd & Hle). split; [|split; [exact Hnd|]].
  - intros id p Hpen. cbn [pendingMessages messageId] in *.
    destruct (decide (msgId (S (messageId this)) = id)) as [<-|Hne].
    + rewrite lookup_insert_eq in Hpen. injection Hpen as <-.
      split; [reflexivity|]. split; [lia|].
      intros Hin. apply Hle in Hin. lia.
    + rewrite lookup_insert_ne in Hpen by exact Hne.
      destruct (Hp id p Hpen) as (Hid & Hlt & Hnot).
      split; [exact Hid|]. split; [lia | exact Hnot].
  - intros p Hin. apply Hle in Hin. cbn [messageId]. lia.
Qed.

Lemma dropPending_lookup this id id' p :
  pendingMessages (dropPending this (Some id)) !! id' = Some p ->
  id' ≠ id ∧ pendingMessages this !! id' = Some p.
Proof.
  simpl. intros Hpen. destruct (decide (id = id')) as [->|Hne].
  - rewrite lookup_delete_eq in Hpen. discriminate.
  - rewrite lookup_delete_ne in Hpen by exact Hne. split; [congruence | exact Hpen].
Qed.

(** Settling the promise of a pending entry while removing the entry. *)
Lemma settle_pending_consistent this done id p :
  consistent this done ->
  pendingMessages this !! id = Some p ->
  consistent (dropPending this (Some id)) (done ++ [p]).
Proof.
  intros (Hp & Hnd & Hle) Hpen.
  destruct (Hp id p Hpen) as (Hid & Hlt & Hnot).
  split; [|split].
  - intros id' p' Hpen'. apply dropPending_lookup in Hpen' as [Hne Hpen'].
    destruct (Hp id' p' Hpen') as (Hid' & Hlt' & Hnot').
    split; [exact Hid'|]. split; [exact Hlt'|].
    rewrite elem_of_app, list_elem_of_singleton. intros [Hin| ->]; [tauto|].
    congruence.
  - apply NoDup_app. split; [exact Hnd|]. split; [|apply NoDup_singleton].
    intros x Hx Hx'. apply list_elem_of_singleton in Hx'. congruence.
  - intros x Hx. simpl. apply elem_of_app in Hx as [Hx|Hx]; [apply Hle; exact Hx|].
    apply list_elem_of_singleton in Hx. subst x. exact Hlt.
Qed.

Lemma drop_pending_consistent this done id :
  consistent this done -> consistent (dropPending this (Some id)) done.
Proof.
  intros (Hp & Hnd & Hle). split; [|split; assumption].
  intros id' p' Hpen'. apply dropPending_lookup in Hpen' as [_ Hpen'].
  apply Hp. exact Hpen'.
Qed.

Lemma handleMessage_consistent this done data :
  consistent this done ->
  consistent (fst (handleMessage this data))
             (done ++ settled (snd (handleMessage this data))).
Proof.
  intros Hc. unfold handleMessage.
  destruct (String.eqb (m_type data) "INITIALIZED"); simpl;
    [rewrite app_nil_r; exact Hc|].
  destruct (m_id data) as [id|] eqn:Hid; simpl;
    [|rewrite app_nil_r; exact Hc].
  destruct (pendingMessages this !! id) as [p|] eqn:Hpen; simpl;
    [|rewrite app_nil_r; exact Hc].
  destruct (String.eqb (m_type data) "SUCCESS"); simpl.
  { apply settle_pending_consistent; assumption. }
  destruct (String.eqb (m_type data) "ERROR"); simpl.
  - destruct (m_error data); simpl.
    + apply settle_pending_consistent; assumption.
    + rewrite app_nil_r. apply drop_pending_consistent. exact Hc.
  - rewrite app_nil_r. apply drop_pending_consistent. exact Hc.
Qed.

Lemma timers_irrelevant this done tm :
  consistent this done ->
  consistent {| worker := worker this; messageId := messageId this;
                pendingMessages := pendingMessages this; timers := tm |} done.
Proof. intros H. exact H. Qed.

Lemma onTimeout_consistent this done n :
  consistent this done ->
  consistent (fst (onTimeout this n)) (done ++ settled (snd (onTimeout this n))).
Proof.
  intros Hc. unfold onTimeout.
  destruct (pendingMessages this !! msgId n) as [p|] eqn:Hpen; simpl;
    [|rewrite app_nil_r; exact Hc].
  assert (p = n) as ->.
  { destruct Hc as (Hp & _). destruct (Hp _ _ Hpen) as (Hid & _).
    symmetry. apply msgId_inj. exact Hid. }
  apply (settle_pending_consistent this done (msgId n) n Hc Hpen).
Qed.

Lemma step_consistent this done ev :
  consistent this done ->
  consistent (fst (step this ev)) (done ++ settled (snd (step this ev))).
Proof.
  intros Hc. destruct ev; simpl.
  - rewrite app_nil_r. apply initialize_consistent. exact Hc.
  - apply sendMessage_consistent. apply initialize_consistent. exact Hc.
  - apply handleMessage_consistent. exact Hc.
  - case_bool_decide; [|simpl; rewrite app_nil_r; exact Hc].
    apply onTimeout_consistent. apply timers_irrelevant. exact Hc.
  - rewrite app_nil_r. apply terminate_consistent. exact Hc.
Qed.

Lemma runFrom_consistent events this done :
  consistent this done ->
  consistent (fst (runFrom this events))
             (done ++ settled (snd (runFrom this events))).
Proof.
  revert this done. induction events as [|ev rest IH]; intros this done Hc; simpl.
  - rewrite app_nil_r. exact Hc.
  - pose proof (step_consistent this done ev Hc) as Hstep.
    destruct (step this ev) as [this1 out1]. simpl in Hstep.
    pose proof (IH this1 _ Hstep) as Hrest.
    destruct (runFrom this1 rest) as [this2 out2]. simpl in *.
    rewrite settled_app, app_assoc. exact Hrest.
Qed.

(** No run of the manager settles a promise twice. *)
Lemma settles_at_most_once events :
  NoDup (settled (snd (runFrom initial events))).
Proof.
  destruct (runFrom_consistent events initial [] initial_consistent)
    as (_ & Hnd & _).
  exact Hnd.
Qed.

(** The readiness signal of the worker bears no id and is not an answer
    to a request: [handleMessage] returns on its type before the lookup
    and writes no warning, whatever id a message of that type carries. *)
Lemma ready_signal_dropped_unlogged :
  pendingOf (initialize initial true) (m_id readySignal) = None ∧
  handleMessage (initialize initial true) readySignal =
    (initialize initial true, []) ∧
  existsb isWarn (snd (handleMessage (initialize initial true) readySignal))
    = false ∧
  pendingOf (initialize initial true) (Some "msg_7") = None ∧
  existsb isWarn
    (snd (handleMessage (initialize initial true)
            {| m_type := "INITIALIZED"; m_id := Some "msg_7";
               m_result := EmptyString; m_error := None |})) = false.
Proof. repeat split. Qed.

Lemma handleMessage_unknown this data :
  pendingOf this (m_id data) = None ->
  handleMessage this data =
  (this, if String.eqb (m_type data) "INITIALIZED" then []
         else [Warn (m_id data)]).
Proof.
  intros Hnone. unfold handleMessage.
  destruct (String.eqb (m_type data) "INITIALIZED"); [reflexivity|].
  rewrite Hnone. reflexivity.
Qed.

Lemma onTimeout_pending this n :
  is_Some (pendingMessages this !! msgId n) ->
  snd (onTimeout this n) = [Reject n "Worker message timeout"] ∧
  pendingMessages (fst (onTimeout this n)) !! msgId n = None.
Proof.
  intros [p Hp]. unfold onTimeout. rewrite Hp. simpl.
  split; [reflexivity | apply lookup_delete_eq].
Qed.

(** C6: no run of the manager settles a promise twice.  A message whose
    id has no pending entry (already resolved, already timed out, or
    never issued) leaves the manager as it is and resolves or rejects
    nothing; when it is an answer of the worker, which is what bears an
    id (type SUCCESS or ERROR), the warning with its id is logged.  (More
    generally the warning is written for every type but INITIALIZED, the
    type of the readiness signal.)  The timeout of a pending request
    removes its entry and rejects its promise with the timeout error,
    after which a message with its id settles nothing. *)
Theorem requests_settle_at_most_once :
  (∀ events, NoDup (settled (snd (runFrom initial events)))) ∧
  (∀ this data,
     pendingOf this (m_id data) = None ->
     fst (handleMessage this data) = this ∧
     settled (snd (handleMessage this data)) = [] ∧
     (m_type data = "SUCCESS" ∨ m_type data = "ERROR" ->
      snd (handleMessage this data) = [Warn (m_id data)]) ∧
     snd (handleMessage this data) =
       if String.eqb (m_type data) "INITIALIZED" then []
       else [Warn (m_id data)]) ∧
  (∀ this n,
     is_Some (pendingMessages this !! msgId n) ->
     snd (onTimeout this n) = [Reject n "Worker message timeout"] ∧
     pendingMessages (fst (onTimeout this n)) !! msgId n = None ∧
     ∀ data, m_id data = Some (msgId n) ->
       fst (handleMessage (fst (onTimeout this n)) data) = fst (onTimeout this n) ∧
       settled (snd (handleMessage (fst (onTimeout this n)) data)) = [] ∧
       (m_type data = "SUCCESS" ∨ m_type data = "ERROR" ->
        snd (handleMessage (fst (onTimeout this n)) data)
          = [Warn (Some (msgId n))])).
Proof.
  assert (Hanswer : ∀ data, m_type data = "SUCCESS" ∨ m_type data = "ERROR" ->
            String.eqb (m_type data) "INITIALIZED" = false).
  { intros data [-> | ->]; reflexivity. }
  split; [exact settles_at_most_once|]. split.
  - intros this data Hnone. rewrite (handleMessage_unknown this data Hnone).
    cbn [fst snd]. split; [reflexivity|]. split; [|split; [|reflexivity]].
    + destruct (String.eqb (m_type data) "INITIALIZED"); reflexivity.
    + intros Htype. rewrite (Hanswer data Htype). reflexivity.
  - intros this n Hpen.
    destruct (onTimeout_pending this n Hpen) as [Hout Hgone].
    split; [exact Hout|]. split; [exact Hgone|].
    intros data Hid.
    rewrite (handleMessage_unknown (fst (onTimeout this n)) data).
    + cbn [fst snd]. split; [reflexivity|]. split.
      * destruct (String.eqb (m_type data) "INITIALIZED"); reflexivity.
      * intros Htype. rewrite (Hanswer data Htype), Hid. reflexivity.
    + rewrite Hid. exact Hgone.
Qed.

End ManagerProperties.

Example lateResponse_effects :
  snd (WebWorkerManager.runFrom WebWorkerManager.initial lateResponse) =
  [ WebWorkerManager.PostMessage "TRANSFORM_DATA" "msg_1" "records";
    WebWorkerManager.Reject 1 "Worker message timeout";
    WebWorkerManager.Warn (Some "msg_1");
    WebWorkerManager.PostMessage "CALCULATE_STATISTICS" "msg_2" "records";
    WebWorkerManager.Resolve 2 "statistics" ].
Proof. vm_compute. reflexivity. Qed.

Lemma requests_settle_at_most_once_witness :
  NoDup (WebWorkerManager.settled
           (snd (WebWorkerManager.runFrom WebWorkerManager.initial lateResponse))) ∧
  (snd (WebWorkerManager.onTimeout
          (fst (WebWorkerManager.request WebWorkerManager.initial true
                  "TRANSFORM_DATA" "records")) 1)
     = [WebWorkerManager.Reject 1 "Worker message timeout"]) ∧
  (snd (WebWorkerManager.handleMessage
          (WebWorkerManager.initialize WebWorkerManager.initial true)
          {| WebWorkerManager.m_type := "SUCCESS";
             WebWorkerManager.m_id := Some "msg_7";
             WebWorkerManager.m_result := "points";
             WebWorkerManager.m_error := None |})
     = [WebWorkerManager.Warn (Some "msg_7")]).
Proof.
  split; [|split].
  - apply (proj1 requests_settle_at_most_once lateResponse).
  - apply (proj2 (proj2 requests_settle_at_most_once)
             (fst (WebWorkerManager.request WebWorkerManager.initial true
                     "TRANSFORM_DATA" "records")) 1).
    vm_compute. eexists. reflexivity.
  - apply (proj1 (proj2 (proj2
             (proj1 (proj2 requests_settle_at_most_once)
                (WebWorkerManager.initialize WebWorkerManager.initial true)
                {| WebWorkerManager.m_type := "SUCCESS";
                   WebWorkerManager.m_id := Some "msg_7";
                   WebWorkerManager.m_result := "points";
                   WebWorkerManager.m_error := None |}
                eq_refl)))).
    left. reflexivity.
Defined.

(** A message that matches a pending id but is neither SUCCESS nor ERROR
    removes the entry and settles nothing: that request never settles,
    its timeout finds no entry. *)
Example unknown_type_never_settles :
  snd (WebWorkerManager.runFrom WebWorkerManager.initial
         [ WebWorkerManager.EvRequest true "FILTER_DATA" "records";
           WebWorkerManager.EvMessage
             {| WebWorkerManager.m_type := "PROGRESS";
                WebWorkerManager.m_id := Some "msg_1";
                WebWorkerManager.m_result := EmptyString;
                WebWorkerManager.m_error := None |};
           WebWorkerManager.EvTimeout 1 ]) =
  [ WebWorkerManager.PostMessage "FILTER_DATA" "msg_1" "records" ].
Proof. vm_compute. reflexivity. Qed.

(** * Further properties of the code *)

(** ** Strings of the validator *)

Lemma lower_ascii_space c :
  Validator.is_space (Validator.lower_ascii c) = Validator.is_space c.
Proof.
  destruct c as [[] [] [] [] [] [] [] []]; reflexivity.
Qed.

Lemma lower_ascii_idem c :
  Validator.lower_ascii (Validator.lower_ascii c) = Validator.lower_ascii c.
Proof.
  destruct c as [[] [] [] [] [] [] [] []]; reflexivity.
Qed.

Lemma toLowerCase_idem s :
  Validator.toLowerCase (Validator.toLowerCase s) = Validator.toLowerCase s.
Proof.
  induction s as [|c r IH]; simpl; [reflexivity|].
  rewrite lower_ascii_idem, IH. reflexivity.
Qed.

Lemma trimStart_toLowerCase s :
  Validator.trimStart (Validator.toLowerCase s) =
  Validator.toLowerCase (Validator.trimStart s).
Proof.
  induction s as [|c r IH]; simpl; [reflexivity|].
  rewrite lower_ascii_space. destruct (Validator.is_space c); [exact IH|reflexivity].
Qed.

Lemma trimEnd_toLowerCase s :
  Validator.trimEnd (Validator.toLowerCase s) =
  Validator.toLowerCase (Validator.trimEnd s).
Proof.
  induction s as [|c r IH]; simpl; [reflexivity|].
  rewrite IH, lower_ascii_space.
  destruct (Validator.trimEnd r); simpl; [|reflexivity].
  destruct (Validator.is_space c); reflexivity.
Qed.

(** Trimming and case folding commute. *)
Lemma trim_toLowerCase s :
  Validator.trim (Validator.toLowerCase s) =
  Validator.toLowerCase (Validator.trim s).
Proof.
  unfold Validator.trim. rewrite trimStart_toLowerCase, trimEnd_toLowerCase.
  reflexivity.
Qed.

Lemma toLowerCase_empty s :
  Validator.toLowerCase s = EmptyString -> s = EmptyString.
Proof. destruct s; [reflexivity | discriminate]. Qed.

(** ** Filtering in the worker *)

Section WorkerFiltering.

Import DataWorkerMessages.

Lemma filter_filter {A} (f g : A -> bool) (l : list A) :
  List.filter g (List.filter f l) = List.filter (fun x => f x && g x) l.
Proof.
  induction l as [|x l IH]; simpl; [reflexivity|].
  destruct (f x); simpl; [|exact IH].
  destruct (g x); [f_equal|]; exact IH.
Qed.

Lemma filter_true {A} (l : list A) : List.filter (fun _ => true) l = l.
Proof. induction l as [|x l IH]; simpl; [|f_equal]; auto. Qed.

Lemma filter_when {A B} (o : option B) (p : B -> A -> bool) (l : list A) :
  match o with Some x => List.filter (p x) l | None => l end =
  List.filter (fun a => match o with Some x => p x a | None => true end) l.
Proof. destruct o; [reflexivity | symmetry; apply filter_true]. Qed.

(** The four passes of [filterEmotionData] keep the records that pass
    every criterion present. *)
Lemma filterEmotionData_passes emotions filters :
  filterEmotionData emotions filters = List.filter (passes filters) emotions.
Proof.
  unfold filterEmotionData, passes.
  rewrite (filter_when (hasSearchTerm filters)
             (fun t => matchesSearch (Validator.toLowerCase t))).
  rewrite (filter_when (f_minConfidence filters)
             (fun m emotion => num_ge (confidence emotion) m)).
  rewrite (filter_when (f_valenceRange filters)
             (fun r emotion => inRange (valence emotion) r)).
  rewrite (filter_when (f_arousalRange filters)
             (fun r emotion => inRange (arousal emotion) r)).
  rewrite !filter_filter. apply filter_ext. intros e.
  rewrite ?andb_assoc. reflexivity.
Qed.

Lemma filter_sublist {A} (f : A -> bool) (l : list A) :
  sublist (List.filter f l) l.
Proof.
  induction l as [|x l IH]; simpl; [constructor|].
  destruct (f x); [apply sublist_skip | apply sublist_cons]; exact IH.
Qed.

Lemma filter_idem {A} (f : A -> bool) (l : list A) :
  List.filter f (List.filter f l) = List.filter f l.
Proof.
  rewrite filter_filter. apply filter_ext. intros x. destruct (f x); reflexivity.
Qed.

(** X1: [filterEmotionData] returns, in their order, exactly the records
    that satisfy every criterion of [filters]; filtering the result
    again with the same filters changes nothing. *)
Theorem filterEmotionData_exact emotions filters :
  sublist (filterEmotionData emotions filters) emotions ∧
  (∀ e, In e (filterEmotionData emotions filters) ↔
        In e emotions ∧ passes filters e = true) ∧
  filterEmotionData (filterEmotionData emotions filters) filters =
    filterEmotionData emotions filters.
Proof.
  rewrite !filterEmotionData_passes. split; [apply filter_sublist|]. split.
  - intros e. apply filter_In.
  - apply filter_idem.
Qed.

End WorkerFiltering.

Section WorkerSearch.

Import DataWorkerMessages.

Lemma trim_blank_toLowerCase t :
  String.eqb (Validator.trim (Validator.toLowerCase t)) EmptyString =
  String.eqb (Validator.trim t) EmptyString.
Proof.
  rewrite trim_toLowerCase.
  destruct (Validator.trim t); reflexivity.
Qed.

(** X2: A search through SEARCH_DATA ignores the case of the search term
    and of the terms searched: two terms that fold to the same lower
    case find the same records, and a blank term finds every record. *)
Theorem search_ignores_case emotions t t' :
  Validator.toLowerCase t = Validator.toLowerCase t' ->
  compute "SEARCH_DATA"
    {| d_emotions := Some emotions; d_canvasWidth := None;
       d_canvasHeight := None; d_filters := None; d_searchTerm := Some t |} =
  compute "SEARCH_DATA"
    {| d_emotions := Some emotions; d_canvasWidth := None;
       d_canvasHeight := None; d_filters := None; d_searchTerm := Some t' |} ∧
  (Validator.trim t = EmptyString ->
   compute "SEARCH_DATA"
     {| d_emotions := Some emotions; d_canvasWidth := None;
        d_canvasHeight := None; d_filters := None; d_searchTerm := Some t |} =
   inl (Records emotions)).
Proof.
  intros Hfold. unfold compute. simpl. unfold filterEmotionData, hasSearchTerm.
  simpl. split.
  - rewrite <- (trim_blank_toLowerCase t), <- (trim_blank_toLowerCase t'), Hfold.
    destruct (String.eqb _ _); [reflexivity|]. rewrite Hfold. reflexivity.
  - intros Hblank. rewrite Hblank. reflexivity.
Qed.

Lemma search_ignores_case_witness :
  compute "SEARCH_DATA"
    {| d_emotions := Some [joy_record]; d_canvasWidth := None;
       d_canvasHeight := None; d_filters := None; d_searchTerm := Some "JO" |} =
  compute "SEARCH_DATA"
    {| d_emotions := Some [joy_record]; d_canvasWidth := None;
       d_canvasHeight := None; d_filters := None; d_searchTerm := Some "jo" |}.
Proof.
  apply (proj1 (search_ignores_case [joy_record] "JO" "jo" eq_refl)).
Defined.

Ltac known_type :=
  simpl; repeat (first [left; reflexivity | right]).

Ltac answer_case :=
  simpl; split; [reflexivity|]; split;
  [ split;
    [ first [ discriminate
            | intros _; split; [known_type|];
              split; [eexists; reflexivity|]; intros _; eexists; reflexivity
            | intros _; split; [known_type|];
              split; [eexists; reflexivity|]; discriminate ]
    | first [ intros _; reflexivity
            | intros (_ & [x Hx] & _); discriminate
            | intros (_ & _ & Hf); destruct (Hf eq_refl); discriminate ] ]
  | intros Hn; exfalso; apply Hn; known_type ].

(** X3: The listener answers every message with one response that carries
    the id of the request; the response is a SUCCESS exactly when the
    type is one of the four the manager sends and the fields that type
    reads are there, and a message of any other type is answered with
    the error of an unknown type. *)
Theorem onMessage_answers request :
  responseId (onMessage request) = q_id request ∧
  (isSuccess (onMessage request) = true ↔
     In (q_type request) managerTypes ∧
     is_Some (d_emotions (q_data request)) ∧
     (q_type request = "FILTER_DATA" -> is_Some (d_filters (q_data request)))) ∧
  (¬ In (q_type request) managerTypes ->
     onMessage request =
     Failure (q_id request) (UnknownMessageType (q_type request))).
Proof.
  destruct request as [type id data]. unfold onMessage, compute, managerTypes.
  cbn [q_type q_id q_data].
  destruct (String.eqb_spec type "TRANSFORM_DATA") as [->|H1].
  { destruct (d_emotions data); answer_case. }
  destruct (String.eqb_spec type "FILTER_DATA") as [->|H2].
  { destruct (d_emotions data), (d_filters data); answer_case. }
  destruct (String.eqb_spec type "SEARCH_DATA") as [->|H3].
  { destruct (d_emotions data); answer_case. }
  destruct (String.eqb_spec type "CALCULATE_STATISTICS") as [->|H4].
  { destruct (d_emotions data); answer_case. }
  simpl. split; [reflexivity|]. split; [|reflexivity].
  split; [discriminate|]. intros (Hin & _). simpl in Hin.
  destruct Hin as [<-|[<-|[<-|[<-|[]]]]]; congruence.
Qed.

End WorkerSearch.

(** ** Statistics of a non-empty array *)

Section WorkerStatistics.

Lemma fold_Qmin_le xs x y :
  In y (x :: xs) -> (fold_left Qmin xs x <= y)%Q.
Proof.
  revert x y. induction xs as [|z xs IH]; intros x y Hin; simpl in *.
  - destruct Hin as [<-|[]]. apply Qle_refl.
  - destruct Hin as [<-|[<-|Hin]].
    + apply Qle_trans with (Qmin x z); [apply IH; left; reflexivity | apply Q.le_min_l].
    + apply Qle_trans with (Qmin x z); [apply IH; left; reflexivity | apply Q.le_min_r].
    + apply IH. right. exact Hin.
Qed.

Lemma fold_Qmax_ge xs x y :
  In y (x :: xs) -> (y <= fold_left Qmax xs x)%Q.
Proof.
  revert x y. induction xs as [|z xs IH]; intros x y Hin; simpl in *.
  - destruct Hin as [<-|[]]. apply Qle_refl.
  - destruct Hin as [<-|[<-|Hin]].
    + apply Qle_trans with (Qmax x z); [apply Q.le_max_l | apply IH; left; reflexivity].
    + apply Qle_trans with (Qmax x z); [apply Q.le_max_r | apply IH; left; reflexivity].
    + apply IH. right. exact Hin.
Qed.

Lemma fold_Qmin_in xs x : In (fold_left Qmin xs x) (x :: xs).
Proof.
  revert x. induction xs as [|z xs IH]; intros x; simpl.
  - left. reflexivity.
  - destruct (IH (Qmin x z)) as [Heq|Hin].
    + rewrite <- Heq. unfold Qmin, GenericMinMax.gmin.
      destruct (x ?= z)%Q; [left | left | right; left]; reflexivity.
    + right. right. exact Hin.
Qed.

Lemma fold_Qmax_in xs x : In (fold_left Qmax xs x) (x :: xs).
Proof.
  revert x. induction xs as [|z xs IH]; intros x; simpl.
  - left. reflexivity.
  - destruct (IH (Qmax x z)) as [Heq|Hin].
    + rewrite <- Heq. unfold Qmax, GenericMinMax.gmax.
      destruct (x ?= z)%Q; [left | right; left | left]; reflexivity.
    + right. right. exact Hin.
Qed.

Lemma fold_Qplus_bounds xs acc a b :
  (∀ y, In y xs -> (a <= y <= b)%Q) ->
  (acc + a * inject_Z (Z.of_nat (length xs)) <= fold_left Qplus xs acc
   <= acc + b * inject_Z (Z.of_nat (length xs)))%Q.
Proof.
  revert acc. induction xs as [|y xs IH]; intros acc Hall.
  - cbn [fold_left length]. change (inject_Z (Z.of_nat 0)) with 0%Q. split; lra.
  - cbn [fold_left length].
    destruct (Hall y (or_introl eq_refl)) as [Hay Hyb].
    destruct (IH (acc + y)%Q) as [Hlo Hhi].
    { intros z Hz. apply Hall. right. exact Hz. }
    rewrite Nat2Z.inj_succ. unfold Z.succ. rewrite inject_Z_plus.
    change (inject_Z 1) with 1%Q.
    set (L := inject_Z (Z.of_nat (length xs))) in *.
    split; nra.
Qed.

(** X4: On a non-empty array the statistics count the records; the
    [min] and the [max] of each range are values of records, and the
    value of every record lies between them; and when every confidence
    lies in [0, 1], so does the average confidence. *)
Theorem calculateStatistics_bounds emotions e :
  In e emotions ->
  DataWorker.s_totalCount (DataWorker.calculateStatistics emotions)
    = length emotions ∧
  (∃ vlo vhi,
     DataWorker.valenceRange (DataWorker.calculateStatistics emotions) =
       {| DataWorker.r_min := Fin vlo; DataWorker.r_max := Fin vhi |} ∧
     (vlo <= valence e <= vhi)%Q ∧
     In vlo (map valence emotions) ∧ In vhi (map valence emotions)) ∧
  (∃ alo ahi,
     DataWorker.arousalRange (DataWorker.calculateStatistics emotions) =
       {| DataWorker.r_min := Fin alo; DataWorker.r_max := Fin ahi |} ∧
     (alo <= arousal e <= ahi)%Q ∧
     In alo (map arousal emotions) ∧ In ahi (map arousal emotions)) ∧
  (∃ clo chi,
     DataWorker.confidenceRange (DataWorker.calculateStatistics emotions) =
       {| DataWorker.r_min := Fin clo; DataWorker.r_max := Fin chi |} ∧
     (clo <= confidence e <= chi)%Q ∧
     In clo (map confidence emotions) ∧ In chi (map confidence emotions)) ∧
  ((∀ c, In c (map confidence emotions) -> (0 <= c <= 1)%Q) ->
   ∃ avg,
     DataWorker.averageConfidence (DataWorker.calculateStatistics emotions)
       = Fin avg ∧
     (0 <= avg <= 1)%Q).
Proof.
  intros Hin. destruct emotions as [|e0 es]; [destruct Hin|].
  assert (Hv : In (valence e) (valence e0 :: map valence es))
    by exact (in_map valence _ _ Hin).
  assert (Ha : In (arousal e) (arousal e0 :: map arousal es))
    by exact (in_map arousal _ _ Hin).
  assert (Hc : In (confidence e) (confidence e0 :: map confidence es))
    by exact (in_map confidence _ _ Hin).
  split; [reflexivity|].
  split.
  { eexists _, _. split; [reflexivity|].
    split; [split; [apply fold_Qmin_le | apply fold_Qmax_ge]; exact Hv|].
    split; [apply fold_Qmin_in | apply fold_Qmax_in]. }
  split.
  { eexists _, _. split; [reflexivity|].
    split; [split; [apply fold_Qmin_le | apply fold_Qmax_ge]; exact Ha|].
    split; [apply fold_Qmin_in | apply fold_Qmax_in]. }
  split.
  { eexists _, _. split; [reflexivity|].
    split; [split; [apply fold_Qmin_le | apply fold_Qmax_ge]; exact Hc|].
    split; [apply fold_Qmin_in | apply fold_Qmax_in]. }
  intros Hunit. eexists. split; [reflexivity|].
  destruct (fold_Qplus_bounds (confidence e0 :: map confidence es) 0%Q 0%Q 1%Q)
    as [Hlo Hhi].
  { exact Hunit. }
  assert (Hpos : (0 < inject_Z (Z.of_nat
                    (length (confidence e0 :: map confidence es))))%Q).
  { replace 0%Q with (inject_Z 0) by reflexivity. rewrite <- Zlt_Qlt.
    simpl length. lia. }
  split.
  - apply Qle_shift_div_l; [exact Hpos|].
    rewrite Qplus_0_l in Hlo. exact Hlo.
  - apply Qle_shift_div_r; [exact Hpos|].
    rewrite Qplus_0_l in Hhi. exact Hhi.
Qed.

Lemma calculateStatistics_bounds_witness :
  ∃ avg,
    DataWorker.averageConfidence (DataWorker.calculateStatistics [joy_record])
      = Fin avg ∧
    (0 <= avg <= 1)%Q.
Proof.
  apply (proj2 (proj2 (proj2 (proj2
           (calculateStatistics_bounds [joy_record] joy_record
              (or_introl eq_refl)))))).
  intros c [<-|[]]. split; discriminate.
Defined.

End WorkerStatistics.

(** ** More on progressive loading *)

Lemma map_snd_imap_calls N loaded (chunks : list (list IEmotionData)) :
  map snd (imap (fun k chunk => (progressOf (loaded + S k) N, chunk)) chunks)
  = chunks.
Proof.
  revert loaded. induction chunks as [|c cs IH]; intros loaded; [reflexivity|].
  simpl. f_equal.
  rewrite <- (IH (S loaded)) at 2. f_equal.
  apply imap_ext. intros k x _. simpl. do 2 f_equal. lia.
Qed.

Lemma loadChunk_functional env ids chunks chunks' :
  Forall2 (fun c chunk => loadChunk env c = Some chunk) ids chunks ->
  Forall2 (fun c chunk => loadChunk env c = Some chunk) ids chunks' ->
  chunks = chunks'.
Proof.
  intros H. revert chunks'. induction H as [|c chunk ids chunks Hc _ IH];
    intros chunks' H'; inversion H' as [|? chunk' ? chunks'' Hc' Hrest]; subst.
  - reflexivity.
  - f_equal; [congruence | apply IH; exact Hrest].
Qed.

(** X5: [loadData] is all or nothing: it resolves exactly when every chunk
    of the dataset loads, with the normalized chunks concatenated in the
    order of their ids, and it rejects as soon as one chunk fails,
    whatever was loaded before. *)
Theorem loadData_all_or_nothing env this m :
  fst (getMetadata env this) = Some m ->
  (∀ data, fst (loadData env this) = Some data ↔
     ∃ chunks,
       Forall2 (fun c chunk => loadChunk env c = Some chunk)
               (seq 0 (totalChunks m)) chunks ∧
       data = concat chunks) ∧
  (fst (loadData env this) = None ↔
     ∃ c, c < totalChunks m ∧ loadChunk env c = None).
Proof.
  intros Hm.
  assert (Hshape : fst (loadData env this) =
            match batchLoop env (totalChunks m) 0 0 [] with
            | Resolved calls => Some (concat (map snd calls))
            | Rejected _ => None
            end).
  { unfold loadData, loadDataProgressively.
    destruct (getMetadata env this) as [[m'|] this']; simpl in Hm; [|discriminate].
    injection Hm as ->. destruct (batchLoop env (totalChunks m) 0 0 []); reflexivity. }
  rewrite Hshape. clear Hshape.
  assert (Hres : ∀ calls, batchLoop env (totalChunks m) 0 0 [] = Resolved calls ->
            ∃ chunks,
              Forall2 (fun c chunk => loadChunk env c = Some chunk)
                      (seq 0 (totalChunks m)) chunks ∧
              concat (map snd calls) = concat chunks).
  { intros calls Hcalls.
    apply batchLoop_resolved in Hcalls as (chunks & Hall & ->).
    rewrite Nat.sub_0_r in Hall. exists chunks. split; [exact Hall|].
    rewrite app_nil_l, map_snd_imap_calls. reflexivity. }
  split.
  - intros data. split.
    + destruct (batchLoop env (totalChunks m) 0 0 []) as [calls|calls] eqn:Hloop;
        [|discriminate].
      intros [= <-]. apply Hres. reflexivity.
    + intros (chunks & Hall & ->).
      destruct (batchLoop_resolves env (totalChunks m) 0 0 []) as [calls Hcalls].
      { intros c Hc.
        destruct (Forall2_lookup_l _ _ _ c c Hall) as (chunk & _ & Hok).
        { apply lookup_seq_lt. lia. }
        rewrite Hok. eexists; reflexivity. }
      destruct (Hres calls Hcalls) as (chunks' & Hall' & Heq).
      rewrite Hcalls, Heq.
      rewrite (loadChunk_functional _ _ _ _ Hall Hall'). reflexivity.
  - split.
    + destruct (batchLoop env (totalChunks m) 0 0 []) as [calls|calls] eqn:Hloop;
        [discriminate|].
      intros _.
      destruct (decide (Exists (fun c => loadChunk env c = None)
                               (seq 0 (totalChunks m)))) as [Hex|Hno].
      * apply Exists_exists in Hex as (c & Hc & Hnone).
        apply elem_of_seq in Hc. exists c. split; [lia | exact Hnone].
      * exfalso.
        destruct (batchLoop_resolves env (totalChunks m) 0 0 []) as [calls' Hc'].
        { intros c Hc. destruct (loadChunk env c) eqn:Hl; [eexists; reflexivity|].
          exfalso. apply Hno. apply Exists_exists. exists c.
          split; [apply elem_of_seq; lia | exact Hl]. }
        congruence.
    + intros (c & Hc & Hnone).
      destruct (batchLoop env (totalChunks m) 0 0 []) as [calls|calls] eqn:Hloop;
        [|reflexivity].
      exfalso. destruct (Hres calls eq_refl) as (chunks & Hall & _).
      destruct (Forall2_lookup_l _ _ _ c c Hall) as (chunk & _ & Hok).
      { apply lookup_seq_lt. lia. }
      congruence.
Qed.

Lemma loadData_all_or_nothing_witness :
  ∃ chunks,
    Forall2 (fun c chunk => loadChunk scenarioA c = Some chunk) (seq 0 2) chunks ∧
    concat (map snd (callsOf (fst (loadDataProgressively scenarioA None))))
      = concat chunks.
Proof.
  apply (proj1 (proj1 (loadData_all_or_nothing scenarioA None
                         {| totalCount := 100; chunkSize := 50; totalChunks := 2 |}
                         eq_refl) _)).
  reflexivity.
Defined.


(** The loop rejects at the batch of the first chunk that fails: the
    batches before it are reported in full, and nothing of the failing
    batch is. *)
Lemma batchLoop_rejected env N i loaded calls c :
  i ≤ c < N ->
  loadChunk env c = None ->
  (∀ c', i ≤ c' < c -> is_Some (loadChunk env c')) ->
  ∃ chunks,
    Forall2 (fun c chunk => loadChunk env c = Some chunk)
            (seq i (8 * ((c - i) / 8))) chunks ∧
    batchLoop env N i loaded calls =
      Rejected (calls ++
        imap (fun k chunk => (progressOf (loaded + S k) N, chunk)) chunks).
Proof.
  funelim (batchLoop env N i loaded calls); intros Hc Hnone Hbefore.
  - lia.
  - match goal with Hm : mapM _ _ = Some _ |- _ =>
      apply mapM_Some in Hm; rewrite issueBatch_seq in Hm; rename Hm into Hfirst end.
    unfold MAX_CONCURRENT_REQUESTS in *.
    assert (Hfar : i + 8 ≤ c).
    { destruct (decide (i + 8 ≤ c)) as [|Hnear]; [assumption|]. exfalso.
      destruct (Forall2_lookup_l _ _ _ (c - i) c Hfirst) as (chunk & _ & Hok).
      { rewrite lookup_seq. split; lia. }
      congruence. }
    pose proof (Forall2_length _ _ _ Hfirst) as Hlen. rewrite length_seq in Hlen.
    match goal with IH : ∀ _, _ -> _ -> _ -> ∃ _, _ |- _ =>
      destruct (IH c) as (rest & Hrest & ->);
        [lia | exact Hnone | intros c' Hc'; apply Hbefore; lia |] end.
    rewrite forEach_reportChunk. cbn [fst snd].
    exists (chunks ++ rest). split.
    + replace (8 * ((c - i) / 8))
        with (min 8 (totalChunks0 - i) + 8 * ((c - (i + 8)) / 8)).
      2:{ replace (c - i) with ((c - (i + 8)) + 1 * 8) by lia.
          rewrite Nat.div_add by lia. lia. }
      rewrite seq_app. apply Forall2_app; [exact Hfirst|].
      replace (i + min 8 (totalChunks0 - i)) with (i + 8) by lia. exact Hrest.
    + rewrite imap_app, <- app_assoc. do 3 f_equal.
      apply imap_ext. intros k x _. simpl. do 2 f_equal. lia.
  - exists []. split.
    + match goal with Hm : mapM _ _ = None |- _ =>
        apply mapM_None in Hm; rewrite issueBatch_seq in Hm;
        apply Exists_exists in Hm; destruct Hm as (c' & Hin & Hnone') end.
      apply elem_of_seq in Hin. unfold MAX_CONCURRENT_REQUESTS in *.
      assert (Hnear : c - i < 8).
      { destruct (decide (c' < c)) as [Hlt|]; [|lia].
        destruct (Hbefore c') as [x Hx]; [lia|]. congruence. }
      rewrite (Nat.div_small _ _ Hnear). constructor.
    + simpl. rewrite app_nil_r. reflexivity.
Qed.

(** X6: A load whose first failing chunk is [c] rejects after exactly
    [8 * (c / 8)] progress calls: every chunk of the earlier batches has
    been reported, with the progress of a successful run, and the chunks
    of the failing batch that did load are never handed to the caller. *)
Theorem loadDataProgressively_rejects_at env this m c :
  fst (getMetadata env this) = Some m ->
  c < totalChunks m ->
  loadChunk env c = None ->
  (∀ c', c' < c -> is_Some (loadChunk env c')) ->
  ∃ calls,
    fst (loadDataProgressively env this) = Rejected calls ∧
    length calls = 8 * (c / 8) ∧
    ∀ k, k < 8 * (c / 8) ->
      ∃ chunk, loadChunk env k = Some chunk ∧
               calls !! k = Some (progressOf (S k) (totalChunks m), chunk).
Proof.
  intros Hm Hc Hnone Hbefore. unfold loadDataProgressively.
  destruct (getMetadata env this) as [[m'|] this']; simpl in Hm; [|discriminate].
  injection Hm as ->. cbn [fst].
  destruct (batchLoop_rejected env (totalChunks m) 0 0 [] c) as (chunks & Hall & ->).
  { lia. }
  { exact Hnone. }
  { intros c' Hc'. apply Hbefore. lia. }
  rewrite Nat.sub_0_r in Hall.
  pose proof (Forall2_length _ _ _ Hall) as Hlen. rewrite length_seq in Hlen.
  eexists. split; [reflexivity|]. rewrite app_nil_l. split.
  - rewrite length_imap. lia.
  - intros k Hk.
    destruct (Forall2_lookup_l _ _ _ k k Hall) as (chunk & Hchunk & Hok).
    { apply lookup_seq_lt. exact Hk. }
    exists chunk. split; [exact Hok|].
    rewrite list_lookup_imap, Hchunk. reflexivity.
Qed.

Lemma loadDataProgressively_rejects_at_witness :
  ∃ calls,
    fst (loadDataProgressively flakySource None) = Rejected calls ∧
    length calls = 8 * (11 / 8) ∧
    ∀ k, k < 8 * (11 / 8) ->
      ∃ chunk, loadChunk flakySource k = Some chunk ∧
               calls !! k = Some (progressOf (S k) 20, chunk).
Proof.
  apply (loadDataProgressively_rejects_at flakySource None
           {| totalCount := 20; chunkSize := 1; totalChunks := 20 |} 11).
  - reflexivity.
  - simpl. lia.
  - reflexivity.
  - intros c' Hc'.
    do 11 (destruct c' as [|c']; [eexists; reflexivity|]). lia.
Defined.



(** On the grown source the loader that remembered two chunks returns a
    hundred records; a fresh loader returns all hundred and fifty. *)
Example stale_metadata_truncates :
  (length <$> fst (loadData scenarioA_grown (snd (getMetadata scenarioA None))))
    = Some 100 ∧
  (length <$> fst (loadData scenarioA_grown None)) = Some 150.
Proof. vm_compute. split; reflexivity. Qed.

(** ** The validator *)

Section ValidatorProperties.

Import Validator.

Lemma trimStart_clean s :
  match trimStart s with
  | String c _ => is_space c = false
  | EmptyString => True
  end.
Proof.
  induction s as [|c r IH]; simpl; [exact I|].
  destruct (is_space c) eqn:Hc; [exact IH | exact Hc].
Qed.

Lemma trimEnd_clean s :
  match s with String c _ => is_space c = false | EmptyString => True end ->
  match trimEnd s with String c _ => is_space c = false | EmptyString => True end.
Proof.
  destruct s as [|c r]; simpl; [trivial|].
  intros Hc. destruct (trimEnd r); [rewrite Hc|]; exact Hc.
Qed.

Lemma trimStart_of_clean s :
  match s with String c _ => is_space c = false | EmptyString => True end ->
  trimStart s = s.
Proof. destruct s as [|c r]; simpl; [trivial|]. intros ->. reflexivity. Qed.

Lemma trimEnd_idem s : trimEnd (trimEnd s) = trimEnd s.
Proof.
  induction s as [|c r IH]; simpl; [reflexivity|].
  destruct (trimEnd r) as [|c' r'] eqn:Hr.
  - destruct (is_space c) eqn:Hc; simpl; [reflexivity|]. rewrite Hc. reflexivity.
  - change (trimEnd (String c (String c' r')))
      with (match trimEnd (String c' r') with
            | EmptyString => if is_space c then EmptyString else String c EmptyString
            | r'' => String c r''
            end).
    rewrite IH. reflexivity.
Qed.

Lemma trim_idem s : trim (trim s) = trim s.
Proof.
  unfold trim.
  rewrite (trimStart_of_clean (trimEnd (trimStart s))).
  - apply trimEnd_idem.
  - apply trimEnd_clean, trimStart_clean.
Qed.

(** X8: [sanitizeString] is idempotent: a sanitized term is its own
    sanitization, so a key stored under a sanitized term is found again
    by a lookup that sanitizes it once more. *)
Theorem sanitizeString_idem value :
  sanitizeString (sanitizeString value) = sanitizeString value.
Proof.
  unfold sanitizeString.
  rewrite trim_toLowerCase, toLowerCase_idem, trim_idem. reflexivity.
Qed.

Lemma clampNumber_fixed value min max :
  (min <= value <= max)%Q -> (clampNumber value min max == value)%Q.
Proof.
  intros [Hlo Hhi]. unfold clampNumber.
  rewrite (Q.min_r _ _ Hhi). apply Q.max_r. exact Hlo.
Qed.

(** X9: [clampNumber] leaves a value of the range as it is, sends a value
    below the range to [min] and one above it to [max], and clamping
    twice is clamping once. *)
Theorem clampNumber_cases value min max :
  (min <= max)%Q ->
  ((min <= value <= max)%Q -> (clampNumber value min max == value)%Q) ∧
  ((value <= min)%Q -> (clampNumber value min max == min)%Q) ∧
  ((max <= value)%Q -> (clampNumber value min max == max)%Q) ∧
  (clampNumber (clampNumber value min max) min max == clampNumber value min max)%Q.
Proof.
  intros Hmm.
  pose proof (fun v => clampNumber_fixed v min max) as Hin.
  unfold clampNumber in *.
  split; [exact (Hin value)|]. split; [|split].
  - intros Hlo. apply Q.max_l.
    apply Q.min_le_iff. right. exact Hlo.
  - intros Hhi. rewrite (Q.min_l _ _ Hhi). apply Q.max_r. exact Hmm.
  - apply Hin. split.
    + apply Q.le_max_l.
    + apply Q.max_lub; [exact Hmm | apply Q.le_min_l].
Qed.

Lemma clampNumber_cases_witness :
  ((-1 <= 3 # 10 <= 1)%Q -> (clampNumber (3 # 10) (-1) 1 == 3 # 10)%Q) ∧
  ((3 # 10 <= -1)%Q -> (clampNumber (3 # 10) (-1) 1 == -1)%Q) ∧
  ((1 <= 3 # 10)%Q -> (clampNumber (3 # 10) (-1) 1 == 1)%Q) ∧
  (clampNumber (clampNumber (3 # 10) (-1) 1) (-1) 1 == clampNumber (3 # 10) (-1) 1)%Q.
Proof.
  apply (clampNumber_cases (3 # 10) (-1) 1). discriminate.
Defined.

Lemma isNumberInRange_spec value min max :
  isNumberInRange value min max = true ↔ (min <= value <= max)%Q.
Proof.
  unfold isNumberInRange, num_ge.
  rewrite andb_true_iff, !Qle_bool_iff. reflexivity.
Qed.

Lemma isNonEmptyString_spec value :
  isNonEmptyString value = true ↔ trim value ≠ EmptyString.
Proof.
  unfold isNonEmptyString, isEmpty.
  destruct (trim value); simpl; split; congruence.
Qed.

Lemma validateRawEmotionData_valid_parts d :
  (isValid (validateRawEmotionData d) = true ↔
     isNonEmptyString (raw_term d) = true ∧
     (-1 <= raw_valence d <= 1)%Q ∧ (-1 <= raw_arousal d <= 1)%Q) ∧
  (isValid (validateRawEmotionData d) = true ↔ errors (validateRawEmotionData d) = []).
Proof.
  rewrite <- (isNumberInRange_spec (raw_valence d) (-1) 1).
  rewrite <- (isNumberInRange_spec (raw_arousal d) (-1) 1).
  unfold validateRawEmotionData, isValidValence, isValidArousal,
    VALENCE_MIN, VALENCE_MAX, AROUSAL_MIN, AROUSAL_MAX. cbn [isValid errors].
  destruct (isNonEmptyString (raw_term d)),
           (isNumberInRange (raw_valence d) (-1) 1),
           (isNumberInRange (raw_arousal d) (-1) 1); simpl.
  all: split; split; try discriminate; try reflexivity; try tauto.
  all: intros (? & ? & ?); discriminate.
Qed.

(** X10: A raw record is valid exactly when its term has a character that is
    not white space and both coordinates lie in [-1, 1]; the optional
    fields only ever produce warnings.  The errors are reported in the
    order term, valence, arousal. *)
Theorem validateRawEmotionData_valid d :
  (isValid (validateRawEmotionData d) = true ↔
     trim (raw_term d) ≠ EmptyString ∧
     (-1 <= raw_valence d <= 1)%Q ∧ (-1 <= raw_arousal d <= 1)%Q) ∧
  (isValid (validateRawEmotionData d) = true ↔ errors (validateRawEmotionData d) = []) ∧
  sublist (errors (validateRawEmotionData d))
          [TermEmptyOrInvalid; ValenceOutOfRange; ArousalOutOfRange] ∧
  sublist (warnings (validateRawEmotionData d))
          [ConfidenceInvalid; MergeStrategyInvalid].
Proof.
  rewrite <- isNonEmptyString_spec.
  rewrite <- (isNumberInRange_spec (raw_valence d) (-1) 1).
  rewrite <- (isNumberInRange_spec (raw_arousal d) (-1) 1).
  unfold validateRawEmotionData, isValidValence, isValidArousal,
    VALENCE_MIN, VALENCE_MAX, AROUSAL_MIN, AROUSAL_MAX. cbn [isValid errors warnings].
  destruct (isNonEmptyString (raw_term d)),
           (isNumberInRange (raw_valence d) (-1) 1),
           (isNumberInRange (raw_arousal d) (-1) 1); simpl.
  all: split; [split; [try discriminate; intros _; repeat split
                      | intros (? & ? & ?); congruence]|].
  all: split; [split; [try discriminate; reflexivity | try discriminate; reflexivity]|].
  all: split; [solve [eauto 6 using sublist_nil, sublist_skip, sublist_cons]|].
  all: destruct (raw_confidence d) as [c|]; [destruct (isValidConfidence c)|];
       (destruct (raw_merge_strategy d) as [m|]; [destruct (isValidMergeStrategy m)|]);
       simpl; solve [eauto 6 using sublist_nil, sublist_skip, sublist_cons].
Qed.

Lemma sampleIndices_lookup len j i :
  sampleIndices len !! j = Some i ->
  j < min 100 len ∧ i = (j * len) / min 100 len.
Proof.
  unfold sampleIndices. rewrite list_lookup_fmap.
  destruct (seq 0 (min 100 len) !! j) as [j'|] eqn:Hj; [|discriminate].
  apply lookup_seq in Hj as [-> Hlt]. intros [= <-]. split; [lia | reflexivity].
Qed.

Lemma sampleIndices_small len : len ≤ 100 -> sampleIndices len = seq 0 len.
Proof.
  intros Hlen. unfold sampleIndices. rewrite (Nat.min_r 100 len Hlen).
  rewrite <- (map_id (seq 0 len)) at 2.
  apply map_ext_in. intros i Hi. apply in_seq in Hi.
  apply Nat.div_mul. lia.
Qed.

Lemma sampleIndices_in_range len :
  Forall (fun i => i < len) (sampleIndices len).
Proof.
  apply Forall_lookup. intros j i Hj.
  apply sampleIndices_lookup in Hj as [Hlt ->].
  apply Nat.Div0.div_lt_upper_bound. nia.
Qed.

Lemma sampleIndices_increasing len j k a b :
  j < k -> sampleIndices len !! j = Some a -> sampleIndices len !! k = Some b ->
  a < b.
Proof.
  intros Hjk Ha Hb.
  apply sampleIndices_lookup in Ha as [_ ->].
  apply sampleIndices_lookup in Hb as [Hk ->].
  set (s := min 100 len) in *.
  assert (Hstep : (j * len + 1 * s) / s ≤ (k * len) / s).
  { apply Nat.Div0.div_le_mono. nia. }
  rewrite Nat.div_add in Hstep by lia. lia.
Qed.

(** X11: The array validation looks at a sample: [min 100 n] records of an
    array of [n], at indices inside the array that increase strictly,
    and the array is valid exactly when every sampled record is.  Up to
    a hundred records the sample is the whole array; beyond that a
    record between two sampled indices is never looked at. *)
Theorem validateEmotionDataArray_sampling data :
  length (sampleIndices (length data)) = min 100 (length data) ∧
  Forall (fun i => i < length data) (sampleIndices (length data)) ∧
  (∀ j k a b, j < k ->
     sampleIndices (length data) !! j = Some a ->
     sampleIndices (length data) !! k = Some b -> a < b) ∧
  (a_isValid (validateEmotionDataArray data) = true ↔
     ∀ i d, In i (sampleIndices (length data)) -> data !! i = Some d ->
       isValid (validateRawEmotionData d) = true) ∧
  (length data ≤ 100 ->
     (a_isValid (validateEmotionDataArray data) = true ↔
        Forall (fun d => isValid (validateRawEmotionData d) = true) data)).
Proof.
  assert (Hvalid : a_isValid (validateEmotionDataArray data) = true ↔
     ∀ i d, In i (sampleIndices (length data)) -> data !! i = Some d ->
       isValid (validateRawEmotionData d) = true).
  { unfold validateEmotionDataArray. cbn [a_isValid].
    set (bad := List.filter _ _).
    transitivity (bad = []).
    { destruct bad; simpl; split; intros; congruence. }
    subst bad.
    pose proof (sampleIndices_in_range (length data)) as Hrange.
    induction (sampleIndices (length data)) as [|i idx IH].
    - simpl. split; [intros _ i d [] | reflexivity].
    - apply Forall_cons in Hrange as [Hi Hrange].
      specialize (IH Hrange). cbn [List.filter].
      destruct (lookup_lt_is_Some_2 data i Hi) as [d Hd].
      unfold sampleIsValid at 1. rewrite Hd.
      destruct (isValid (validateRawEmotionData d)) eqn:Hok; simpl negb; cbv iota.
      + rewrite IH. split.
        * intros Hall i' d' [<-|Hin] Hd'; [congruence | eauto].
        * intros Hall i' d' Hin. apply Hall. right. exact Hin.
      + split; [discriminate|].
        intros Hall. specialize (Hall i d (or_introl eq_refl) Hd). congruence. }
  split; [unfold sampleIndices; rewrite length_map, length_seq; reflexivity|].
  split; [apply sampleIndices_in_range|].
  split; [apply sampleIndices_increasing|].
  split; [exact Hvalid|].
  intros Hsmall. rewrite Hvalid, (sampleIndices_small _ Hsmall), Forall_lookup.
  split.
  - intros Hall i d Hd. apply (Hall i d); [|exact Hd].
    apply in_seq. apply lookup_lt_Some in Hd. lia.
  - intros Hall i d _ Hd. apply (Hall i d Hd).
Qed.

(** A hundred and one records are sampled at the indices 0 to 99: an
    invalid record at index 100 goes unnoticed. *)
Example unsampled_record_passes :
  sampleIndices 101 = seq 0 100 ∧
  a_isValid (validateEmotionDataArray oneBadOfMany) = true ∧
  (isValid <$> (validateRawEmotionData <$> oneBadOfMany !! 100)) = Some false.
Proof. vm_compute. repeat split. Qed.

End ValidatorProperties.

(** ** The in-memory data manager *)

Section ManagerClassProperties.

Import EmotionDataManagerClass.

Implicit Types (m : list (string * IEmotionData)) (this : manager).

Lemma mapGet_mapSet_eq key v m : mapGet key (mapSet key v m) = Some v.
Proof.
  induction m as [|[k v'] r IH]; simpl.
  - rewrite decide_True by reflexivity. reflexivity.
  - destruct (decide (k = key)) as [Hk|Hk]; simpl.
    + rewrite decide_True by exact Hk. reflexivity.
    + rewrite decide_False by exact Hk. exact IH.
Qed.

Lemma mapGet_mapSet_ne key key' v m :
  key ≠ key' -> mapGet key' (mapSet key v m) = mapGet key' m.
Proof.
  intros Hne. induction m as [|[k v'] r IH]; simpl.
  - rewrite decide_False by exact Hne. reflexivity.
  - destruct (decide (k = key)) as [Hk|Hk]; simpl.
    + subst k. rewrite !decide_False by exact Hne. reflexivity.
    + destruct (decide (k = key')); [reflexivity | exact IH].
Qed.

Lemma mapSet_keys key v m :
  map fst (mapSet key v m) =
  if bool_decide (key ∈ map fst m) then map fst m else map fst m ++ [key].
Proof.
  induction m as [|[k v'] r IH]; simpl.
  - reflexivity.
  - destruct (decide (k = key)) as [Hk|Hk]; simpl.
    + subst k. rewrite bool_decide_eq_true_2 by (left). reflexivity.
    + rewrite IH. destruct (bool_decide (key ∈ map fst r)) eqn:Hin.
      * apply bool_decide_eq_true_1 in Hin.
        rewrite bool_decide_eq_true_2 by (right; exact Hin). reflexivity.
      * apply bool_decide_eq_false_1 in Hin.
        rewrite bool_decide_eq_false_2; [reflexivity|].
        intros Hin'. apply elem_of_cons in Hin' as [->|Hin']; [apply Hk | apply Hin];
          [reflexivity | exact Hin'].
Qed.

Lemma mapSet_NoDup key v m : NoDup (map fst m) -> NoDup (map fst (mapSet key v m)).
Proof.
  intros Hnd. rewrite mapSet_keys.
  destruct (bool_decide (key ∈ map fst m)) eqn:Hin; [exact Hnd|].
  apply bool_decide_eq_false_1 in Hin.
  apply NoDup_app. split; [exact Hnd|]. split; [|apply NoDup_singleton].
  intros x Hx Hx'. apply list_elem_of_singleton in Hx'. subst x. apply Hin, Hx.
Qed.

Lemma mapSet_entries key v m k e :
  In (k, e) (mapSet key v m) -> (k = key ∧ e = v) ∨ In (k, e) m.
Proof.
  induction m as [|[k' v'] r IH]; simpl.
  - intros [[= <- <-]|[]]. left. split; reflexivity.
  - destruct (decide (k' = key)) as [Hk|Hk]; simpl.
    + intros [[= <- <-]|Hin]; [left; split; [exact Hk | reflexivity]|].
      right. right. exact Hin.
    + intros [Heq|Hin]; [right; left; exact Heq|].
      destruct (IH Hin) as [?|?]; [left; assumption | right; right; assumption].
Qed.

Lemma mapGet_entry key m e : mapGet key m = Some e -> In (key, e) m.
Proof.
  induction m as [|[k v] r IH]; simpl; [discriminate|].
  destruct (decide (k = key)) as [->|Hk].
  - intros [= ->]. left. reflexivity.
  - intros Hget. right. apply IH, Hget.
Qed.

Lemma mapSet_length key v m : length (mapSet key v m) ≤ S (length m).
Proof.
  induction m as [|[k v'] r IH]; simpl; [lia|].
  destruct (decide (k = key)); simpl; lia.
Qed.

(** What a valid record is stored as. *)
Lemma normalizeRawData_valid raw :
  Validator.isValid (Validator.validateRawEmotionData raw) = true ->
  ∃ e, EmotionDataManager.normalizeRawData raw = Some e ∧
       term e = Validator.sanitizeString (raw_term raw).
Proof.
  intros Hvalid. unfold EmotionDataManager.normalizeRawData.
  rewrite Hvalid. simpl. eexists. split; reflexivity.
Qed.

Lemma normalizeRawData_Some raw e :
  EmotionDataManager.normalizeRawData raw = Some e ->
  Validator.isValid (Validator.validateRawEmotionData raw) = true ∧
  term e = Validator.sanitizeString (raw_term raw).
Proof.
  unfold EmotionDataManager.normalizeRawData.
  destruct (Validator.isValid _); simpl; [|discriminate].
  intros [= <-]. split; reflexivity.
Qed.

(** Records that do not normalize to [key] leave its entry alone. *)
Lemma storeNormalized_other key post m :
  (∀ r, In r post ->
     Validator.isValid (Validator.validateRawEmotionData r) = true ->
     Validator.sanitizeString (raw_term r) ≠ key) ->
  mapGet key (fold_left storeNormalized post m) = mapGet key m.
Proof.
  revert m. induction post as [|r post IH]; intros m Hother; [reflexivity|].
  simpl. rewrite IH by (intros r' Hr'; apply Hother; right; exact Hr').
  unfold storeNormalized.
  destruct (EmotionDataManager.normalizeRawData r) as [e|] eqn:Hr; [|reflexivity].
  apply normalizeRawData_Some in Hr as [Hvalid Hterm].
  apply mapGet_mapSet_ne. rewrite Hterm. apply Hother; [left; reflexivity | exact Hvalid].
Qed.

(** Every entry of a loaded store is the normalization of a record of
    the input, under its own term. *)
Lemma storeNormalized_entries raws m k e :
  In (k, e) (fold_left storeNormalized raws m) ->
  In (k, e) m ∨
  (k = term e ∧ ∃ raw, In raw raws ∧ EmotionDataManager.normalizeRawData raw = Some e).
Proof.
  revert m. induction raws as [|r raws IH]; intros m; simpl; [left; assumption|].
  intros Hin. destruct (IH _ Hin) as [Hm|(Hk & raw & Hraw & Hnorm)].
  - unfold storeNormalized in Hm.
    destruct (EmotionDataManager.normalizeRawData r) as [n|] eqn:Hr; [|left; exact Hm].
    apply mapSet_entries in Hm as [[-> ->]|Hm]; [|left; exact Hm].
    right. split; [reflexivity|]. exists r. split; [left; reflexivity | exact Hr].
  - right. split; [exact Hk|]. exists raw. split; [right; exact Hraw | exact Hnorm].
Qed.

Lemma storeNormalized_NoDup raws m :
  NoDup (map fst m) -> NoDup (map fst (fold_left storeNormalized raws m)).
Proof.
  revert m. induction raws as [|r raws IH]; intros m Hnd; simpl; [exact Hnd|].
  apply IH. unfold storeNormalized.
  destruct (EmotionDataManager.normalizeRawData r); [apply mapSet_NoDup|]; exact Hnd.
Qed.

Lemma storeNormalized_length raws m :
  length (fold_left storeNormalized raws m) ≤ length m + length raws.
Proof.
  revert m. induction raws as [|r raws IH]; intros m; simpl; [lia|].
  etransitivity; [apply IH|]. unfold storeNormalized.
  destruct (EmotionDataManager.normalizeRawData r);
    [pose proof (mapSet_length (term i) i m)|]; lia.
Qed.

(** X12: After [loadData] a valid record is found again under its raw term,
    however that term is spaced or capitalized, as the normalization of
    the last valid record of the input with the same sanitized term;
    whatever a lookup returns is the normalization of an input record
    and carries the sanitized term asked for; no two stored records
    share a term, and there are at most as many as input records. *)
Theorem loadData_getByTerm raws this this' :
  loadData raws this = Some this' ->
  (∀ pre raw post, raws = pre ++ raw :: post ->
     Validator.isValid (Validator.validateRawEmotionData raw) = true ->
     (∀ r, In r post ->
        Validator.isValid (Validator.validateRawEmotionData r) = true ->
        Validator.sanitizeString (raw_term r) ≠
        Validator.sanitizeString (raw_term raw)) ->
     is_Some (getByTerm this' (raw_term raw)) ∧
     getByTerm this' (raw_term raw) = EmotionDataManager.normalizeRawData raw) ∧
  (∀ t e, getByTerm this' t = Some e ->
     term e = Validator.sanitizeString t ∧
     ∃ raw, In raw raws ∧ EmotionDataManager.normalizeRawData raw = Some e) ∧
  NoDup (map term (getAllData this')) ∧
  getCount this' ≤ length raws.
Proof.
  unfold loadData.
  destruct (Validator.a_isValid _); [|discriminate].
  intros [= <-]. unfold getByTerm, getAllData, getCount. cbn [data].
  split; [|split; [|split]].
  - intros pre raw post -> Hvalid Hlast.
    rewrite fold_left_app. simpl.
    rewrite storeNormalized_other by exact Hlast.
    destruct (normalizeRawData_valid raw Hvalid) as (e & He & Hterm).
    assert (Hget : mapGet (Validator.sanitizeString (raw_term raw))
                     (storeNormalized (fold_left storeNormalized pre []) raw)
                   = Some e).
    { unfold storeNormalized at 1. rewrite He, <- Hterm. apply mapGet_mapSet_eq. }
    rewrite Hget, He. split; [eexists|]; reflexivity.
  - intros t e Hget. apply mapGet_entry in Hget.
    apply storeNormalized_entries in Hget as [[]|(Hk & raw & Hraw & Hnorm)].
    split; [symmetry; exact Hk|]. exists raw. split; assumption.
  - assert (Hkeys : map term (map snd (fold_left storeNormalized raws []))
                    = map fst (fold_left storeNormalized raws [])).
    { rewrite map_map. apply map_ext_in. intros [k e] Hin.
      apply storeNormalized_entries in Hin as [[]|(Hk & _)]. symmetry. exact Hk. }
    rewrite Hkeys. apply storeNormalized_NoDup. constructor.
  - apply (storeNormalized_length raws []).
Qed.

(** X13: The manager's [filter] and the worker's [filterEmotionData] select
    the same records in the same order when asked the same question,
    although they apply the criteria in different orders. *)
Theorem manager_filter_as_worker this filters :
  filter this (ofWorkerFilter filters) =
  DataWorkerMessages.filterEmotionData (getAllData this) filters.
Proof.
  rewrite filterEmotionData_passes.
  unfold filter, filterWhen. rewrite !filter_when, !filter_filter.
  apply filter_ext. intros e.
  unfold DataWorkerMessages.passes, activeSearchTerm, activeStrategies,
    excludeMultiword, DataWorkerMessages.hasSearchTerm,
    DataWorkerMessages.matchesSearch, DataWorkerMessages.inRange, ofWorkerFilter.
  cbn [searchTerm minValence maxValence minArousal maxArousal minConfidence
       maxConfidence mergeStrategies includeMultiword].
  destruct (DataWorkerMessages.f_searchTerm filters) as [t|];
    [destruct (String.eqb (Validator.trim t) EmptyString)|];
    destruct (DataWorkerMessages.f_minConfidence filters) as [c|];
    destruct (DataWorkerMessages.f_valenceRange filters) as [[vlo vhi]|];
    destruct (DataWorkerMessages.f_arousalRange filters) as [[alo ahi]|];
    cbn [fmap option_fmap option_map fst snd];
    rewrite ?andb_true_r, ?andb_true_l;
    repeat match goal with
           | |- context [DataWorkerMessages.includes ?a ?b] =>
               destruct (DataWorkerMessages.includes a b)
           | |- context [num_ge ?a ?b] => destruct (num_ge a b)
           | |- context [Qle_bool ?a ?b] => destruct (Qle_bool a b)
           end; reflexivity.
Qed.

Lemma loadData_getByTerm_witness :
  NoDup (map term (getAllData twoSpellingsLoaded)) ∧
  getCount twoSpellingsLoaded ≤ length twoSpellings.
Proof.
  apply (proj2 (proj2 (loadData_getByTerm twoSpellings emptyManager
                         twoSpellingsLoaded eq_refl))).
Defined.

(** The two spellings are one entry, holding the later record. *)
Example twoSpellings_one_entry :
  getCount twoSpellingsLoaded = 1 ∧
  (valence <$> getByTerm twoSpellingsLoaded "Calm") = Some (5 # 10)%Q ∧
  (mergeStrategy <$> getByTerm twoSpellingsLoaded "Calm") = Some nrc_only.
Proof. vm_compute. repeat split. Qed.

(** X14: [add] stores a record under its term as it is, while a lookup
    sanitizes the term it is given: the record just added is found by
    its own term exactly when that term is already sanitized (or the
    same record was there under the sanitized term). *)
Theorem add_getByTerm emotion this t :
  getByTerm (add emotion this) t =
    (if decide (term emotion = Validator.sanitizeString t)
     then Some emotion else getByTerm this t) ∧
  (getByTerm (add emotion this) (term emotion) = Some emotion ↔
     Validator.sanitizeString (term emotion) = term emotion ∨
     getByTerm this (term emotion) = Some emotion).
Proof.
  assert (Hget : ∀ t', getByTerm (add emotion this) t' =
            if decide (term emotion = Validator.sanitizeString t')
            then Some emotion else getByTerm this t').
  { intros t'. unfold getByTerm, add. cbn [data].
    destruct (decide (term emotion = Validator.sanitizeString t')) as [<-|Hne].
    - apply mapGet_mapSet_eq.
    - apply mapGet_mapSet_ne. exact Hne. }
  split; [apply Hget|]. rewrite Hget.
  destruct (decide (term emotion = Validator.sanitizeString (term emotion)))
    as [Heq|Hne].
  - split; [intros _; left; symmetry; exact Heq | reflexivity].
  - split; [intros H; right; exact H | intros [Heq|H]; [congruence | exact H]].
Qed.

Lemma mapDelete_absent key m : mapGet key m = None -> mapDelete key m = m.
Proof.
  induction m as [|[k v] r IH]; simpl; [reflexivity|].
  destruct (decide (k = key)); [discriminate|].
  intros Hget. rewrite IH by exact Hget. reflexivity.
Qed.

Lemma mapDelete_present key m :
  is_Some (mapGet key m) -> S (length (mapDelete key m)) = length m.
Proof.
  induction m as [|[k v] r IH]; simpl; [intros [? [=]]|].
  destruct (decide (k = key)); [reflexivity|].
  intros Hget. simpl. rewrite IH by exact Hget. reflexivity.
Qed.

Lemma mapDelete_keys key m k :
  k ∈ map fst (mapDelete key m) -> k ∈ map fst m.
Proof.
  induction m as [|[k' v] r IH]; simpl; [trivial|].
  destruct (decide (k' = key)); simpl.
  - intros Hin. right. exact Hin.
  - intros Hin. apply elem_of_cons in Hin as [->|Hin]; [left | right; apply IH, Hin].
Qed.

Lemma mapDelete_NoDup key m : NoDup (map fst m) -> NoDup (map fst (mapDelete key m)).
Proof.
  induction m as [|[k v] r IH]; simpl; [trivial|].
  intros Hnd. apply NoDup_cons in Hnd as [Hk Hnd].
  destruct (decide (k = key)); simpl; [exact Hnd|].
  apply NoDup_cons. split; [|apply IH, Hnd].
  intros Hin. apply Hk. apply (mapDelete_keys key). exact Hin.
Qed.

Lemma mapGet_None key m : mapGet key m = None ↔ key ∉ map fst m.
Proof.
  induction m as [|[k v] r IH]; simpl.
  - split; [intros _ Hin; inversion Hin | reflexivity].
  - destruct (decide (k = key)) as [->|Hk].
    + split; [discriminate | intros Hnot; exfalso; apply Hnot; left].
    + rewrite IH. split.
      * intros Hnot Hin. apply elem_of_cons in Hin as [->|Hin]; [apply Hk | apply Hnot];
          [reflexivity | exact Hin].
      * intros Hnot Hin. apply Hnot. right. exact Hin.
Qed.

Lemma mapDelete_gone key m :
  NoDup (map fst m) -> mapGet key (mapDelete key m) = None.
Proof.
  induction m as [|[k v] r IH]; simpl; [reflexivity|].
  intros Hnd. apply NoDup_cons in Hnd as [Hk Hnd].
  destruct (decide (k = key)) as [->|Hne]; simpl.
  - apply mapGet_None. exact Hk.
  - rewrite decide_False by exact Hne. apply IH, Hnd.
Qed.

Lemma mapDelete_stays_gone key key' m :
  mapGet key' m = None -> mapGet key' (mapDelete key m) = None.
Proof.
  rewrite !mapGet_None. intros Hnot Hin. apply Hnot.
  apply (mapDelete_keys key). exact Hin.
Qed.

(** X15: [removeMany] returns the number of entries it has taken out of the
    store: the count it reports and the count that is left add up to
    the count before, and none of the terms is found afterwards. *)
Theorem removeMany_counts terms this :
  NoDup (map fst (data this)) ->
  fst (removeMany terms this) + getCount (snd (removeMany terms this))
    = getCount this ∧
  NoDup (map fst (data (snd (removeMany terms this)))) ∧
  (∀ t, In t terms -> getByTerm (snd (removeMany terms this)) t = None).
Proof.
  unfold removeMany.
  assert (Hgen : ∀ n this st,
    st = fold_left
      (fun st t => let (ok, this') := remove t (snd st) in
                   (if ok then S (fst st) else fst st, this'))
      terms (n, this) ->
    NoDup (map fst (data this)) ->
    fst st + getCount (snd st) = n + getCount this ∧
    NoDup (map fst (data (snd st))) ∧
    (∀ t, getByTerm this t = None -> getByTerm (snd st) t = None) ∧
    (∀ t, In t terms -> getByTerm (snd st) t = None)).
  { clear this. induction terms as [|t terms IH]; intros n this st -> Hnd.
    - simpl. repeat split; [exact Hnd | trivial | intros t []].
    - set (key := Validator.sanitizeString t).
      set (this1 := {| data := mapDelete key (data this); rawData := rawData this |}).
      set (n1 := if bool_decide (is_Some (mapGet key (data this))) then S n else n).
      assert (Hnd1 : NoDup (map fst (data this1))) by (apply mapDelete_NoDup, Hnd).
      destruct (IH n1 this1 _ eq_refl Hnd1) as (Hcount & Hnd' & Hkeep & Hgone).
      assert (Hstep : n1 + getCount this1 = n + getCount this ∧
                      getByTerm this1 t = None).
      { unfold n1, getCount, getByTerm, this1. cbn [data]. fold key. split.
        - destruct (mapGet key (data this)) as [e|] eqn:Hget.
          + rewrite bool_decide_eq_true_2 by (eexists; reflexivity).
            pose proof (mapDelete_present key (data this)) as Hlen.
            rewrite Hget in Hlen. specialize (Hlen (ex_intro _ e eq_refl)). lia.
          + rewrite bool_decide_eq_false_2 by (intros [? [=]]).
            rewrite mapDelete_absent by exact Hget. lia.
        - apply mapDelete_gone, Hnd. }
      destruct Hstep as [Hn1 Ht].
      change (fold_left _ (t :: terms) (n, this))
        with (fold_left
                (fun st t => let (ok, this') := remove t (snd st) in
                             (if ok then S (fst st) else fst st, this'))
                terms (n1, this1)).
      split; [rewrite Hcount; exact Hn1|]. split; [exact Hnd'|]. split.
      + intros t' Hnone. apply Hkeep. unfold getByTerm, this1. cbn [data].
        apply mapDelete_stays_gone. exact Hnone.
      + intros t' [<-|Hin]; [apply Hkeep, Ht | apply Hgone, Hin]. }
  intros Hnd. destruct (Hgen 0 this _ eq_refl Hnd) as (Hcount & Hnd' & _ & Hgone).
  split; [|split]; [|exact Hnd' | exact Hgone].
  exact Hcount.
Qed.

Lemma removeMany_counts_witness :
  fst (removeMany ["CALM "; "joy"; "calm"] twoSpellingsLoaded) +
    getCount (snd (removeMany ["CALM "; "joy"; "calm"] twoSpellingsLoaded))
    = getCount twoSpellingsLoaded.
Proof.
  apply (proj1 (removeMany_counts ["CALM "; "joy"; "calm"] twoSpellingsLoaded
                  ltac:(apply (bool_decide_unpack _); vm_compute; exact I))).
Defined.

End ManagerClassProperties.

(** ** The two normalizers *)

Section Normalizers.

Import Validator.

Lemma isValid_coordinates raw :
  isValid (validateRawEmotionData raw) = true ->
  (-1 <= raw_valence raw <= 1)%Q ∧ (-1 <= raw_arousal raw <= 1)%Q.
Proof.
  intros Hvalid. apply (proj1 (validateRawEmotionData_valid_parts raw)) in Hvalid.
  tauto.
Qed.

(** X16: On a clean raw record (valid, with a sanitized term, a confidence
    in [0, 1] and a merge strategy in lower case) the data manager and
    the chunk loader produce the same record. *)
Theorem normalizers_agree raw c :
  isValid (validateRawEmotionData raw) = true ->
  sanitizeString (raw_term raw) = raw_term raw ->
  raw_confidence raw = Some c -> (0 <= c <= 1)%Q ->
  (∀ s, raw_merge_strategy raw = Some s -> toLowerCase s = s) ->
  ∃ e, EmotionDataManager.normalizeRawData raw = Some e ∧
       term e = term (ChunkedDataLoader.normalizeEmotionData raw) ∧
       (valence e == valence (ChunkedDataLoader.normalizeEmotionData raw))%Q ∧
       (arousal e == arousal (ChunkedDataLoader.normalizeEmotionData raw))%Q ∧
       (confidence e == confidence (ChunkedDataLoader.normalizeEmotionData raw))%Q ∧
       dominance e = dominance (ChunkedDataLoader.normalizeEmotionData raw) ∧
       mergeStrategy e = mergeStrategy (ChunkedDataLoader.normalizeEmotionData raw) ∧
       isMultiword e = isMultiword (ChunkedDataLoader.normalizeEmotionData raw) ∧
       metadata e = metadata (ChunkedDataLoader.normalizeEmotionData raw).
Proof.
  intros Hvalid Hterm Hconf Hc Hlower.
  destruct (isValid_coordinates raw Hvalid) as [Hv Ha].
  unfold EmotionDataManager.normalizeRawData. rewrite Hvalid. cbn [negb].
  eexists. split; [reflexivity|].
  unfold ChunkedDataLoader.normalizeEmotionData.
  cbn [term valence arousal confidence dominance mergeStrategy isMultiword metadata].
  rewrite Hconf. cbn [default].
  split; [exact Hterm|].
  split; [apply clampNumber_fixed; exact Hv|].
  split; [apply clampNumber_fixed; exact Ha|].
  split; [apply clampNumber_fixed; exact Hc|].
  split; [reflexivity|]. split; [|split; reflexivity].
  destruct (raw_merge_strategy raw) as [s|]; [|reflexivity].
  specialize (Hlower s eq_refl).
  unfold EmotionDataManager.normalizeMergeStrategy.
  destruct s as [|a s]; [reflexivity|]. rewrite Hlower. reflexivity.
Qed.

Lemma normalizers_agree_witness :
  ∃ e, EmotionDataManager.normalizeRawData calm_raw = Some e ∧
       term e = term (ChunkedDataLoader.normalizeEmotionData calm_raw) ∧
       (valence e == valence (ChunkedDataLoader.normalizeEmotionData calm_raw))%Q ∧
       (arousal e == arousal (ChunkedDataLoader.normalizeEmotionData calm_raw))%Q ∧
       (confidence e == confidence (ChunkedDataLoader.normalizeEmotionData calm_raw))%Q ∧
       dominance e = dominance (ChunkedDataLoader.normalizeEmotionData calm_raw) ∧
       mergeStrategy e = mergeStrategy (ChunkedDataLoader.normalizeEmotionData calm_raw) ∧
       isMultiword e = isMultiword (ChunkedDataLoader.normalizeEmotionData calm_raw) ∧
       metadata e = metadata (ChunkedDataLoader.normalizeEmotionData calm_raw).
Proof.
  apply (normalizers_agree calm_raw (9 # 10)).
  - reflexivity.
  - reflexivity.
  - reflexivity.
  - split; discriminate.
  - intros s [= <-]. reflexivity.
Defined.

(** Without a confidence the two defaults differ: 0.7 and 0.5. *)
Example default_confidences_differ :
  let raw := {| raw_term := "calm"; raw_valence := 0; raw_arousal := 0;
                raw_dominance := None; raw_confidence := None;
                raw_merge_strategy := None; raw_source_warriner := None;
                raw_source_nrc := None; raw_is_multiword := None |} in
  (confidence <$> EmotionDataManager.normalizeRawData raw) = Some (7 # 10)%Q ∧
  confidence (ChunkedDataLoader.normalizeEmotionData raw) = (5 # 10)%Q.
Proof. split; reflexivity. Qed.

End Normalizers.

(** ** Maintenance of the cache *)

Section CacheMaintenance.

Context {T : Type}.

Import DataCache.

Implicit Types (m : list (string * ICacheEntry T)) (this : DataCache T)
  (key k : string).

Lemma filter_split_length (P : string * ICacheEntry T -> Prop)
    `{∀ x, Decision (P x)} m :
  length (filter P m) + length (filter (fun x => ¬ P x) m) = length m.
Proof.
  induction m as [|x r IH]; [reflexivity|].
  rewrite !filter_cons. destruct (decide (P x)) as [Hp|Hp].
  - rewrite decide_False by tauto. simpl. lia.
  - rewrite decide_True by exact Hp. simpl. lia.
Qed.

Lemma map_get_filter_Some (P : string * ICacheEntry T -> Prop)
    `{∀ x, Decision (P x)} m key e :
  map_get key (filter P m) = Some e -> P (key, e) ∧ In (key, e) m.
Proof.
  induction m as [|[k e'] r IH]; [discriminate|].
  rewrite filter_cons. destruct (decide (P (k, e'))) as [Hp|Hp]; simpl.
  - destruct (decide (k = key)) as [->|Hk].
    + intros [= ->]. split; [exact Hp | left; reflexivity].
    + intros Hget. destruct (IH Hget). split; [assumption | right; assumption].
  - intros Hget. destruct (IH Hget). split; [assumption | right; assumption].
Qed.

Lemma map_get_of_entry m key e :
  NoDup (map fst m) -> In (key, e) m -> map_get key m = Some e.
Proof.
  induction m as [|[k e'] r IH]; [intros _ []|].
  simpl. intros Hnd. apply NoDup_cons in Hnd as [Hk Hnd].
  intros [[= -> ->]|Hin].
  - rewrite decide_True by reflexivity. reflexivity.
  - destruct (decide (k = key)) as [->|Hne]; [|apply IH; assumption].
    exfalso. apply Hk. apply list_elem_of_In. apply (in_map fst _ _ Hin).
Qed.

Lemma map_get_filter_keeps (P : string * ICacheEntry T -> Prop)
    `{∀ x, Decision (P x)} m key e :
  NoDup (map fst m) -> map_get key m = Some e -> P (key, e) ->
  map_get key (filter P m) = Some e.
Proof.
  induction m as [|[k e'] r IH]; [discriminate|].
  simpl. intros Hnd. apply NoDup_cons in Hnd as [Hk Hnd].
  rewrite filter_cons. destruct (decide (k = key)) as [->|Hne].
  - intros [= ->] Hp. rewrite decide_True by exact Hp. simpl.
    rewrite decide_True by reflexivity. reflexivity.
  - intros Hget Hp. destruct (decide (P (k, e'))); simpl.
    + rewrite decide_False by exact Hne. apply IH; assumption.
    + apply IH; assumption.
Qed.

Lemma map_get_filter_drops (P : string * ICacheEntry T -> Prop)
    `{∀ x, Decision (P x)} m key :
  (∀ e, ¬ P (key, e)) -> map_get key (filter P m) = None.
Proof.
  intros Hnot. destruct (map_get key (filter P m)) as [e|] eqn:Hget; [|reflexivity].
  apply map_get_filter_Some in Hget as [Hp _]. destruct (Hnot e Hp).
Qed.

Lemma filter_nothing (P : string * ICacheEntry T -> Prop)
    `{∀ x, Decision (P x)} m :
  filter P (filter (fun x => ¬ P x) m) = [].
Proof.
  induction m as [|x r IH]; [reflexivity|].
  rewrite (filter_cons (fun x => ¬ P x)). destruct (decide (¬ P x)) as [Hp|Hp].
  - rewrite filter_cons, decide_False by exact Hp. exact IH.
  - exact IH.
Qed.

Lemma filter_again (P : string * ICacheEntry T -> Prop)
    `{∀ x, Decision (P x)} m :
  filter P (filter P m) = filter P m.
Proof.
  induction m as [|x r IH]; [reflexivity|].
  rewrite (filter_cons P x r). destruct (decide (P x)) as [Hp|Hp].
  - rewrite filter_cons, decide_True by exact Hp. f_equal. exact IH.
  - exact IH.
Qed.

(** X17: [cleanup] takes out exactly the entries that have expired by now
    and returns their number: what it reports and what is left add up
    to the size before; nothing that is left has expired; an entry that
    has not expired is still there; the counters are untouched; and a
    second [cleanup] at the same time finds nothing. *)
Theorem cleanup_exact this now :
  NoDup (keys this) ->
  fst (cleanup this now) + size (snd (cleanup this now)) = size this ∧
  (∀ key e, map_get key (cache (snd (cleanup this now))) = Some e ->
     expired now e = false ∧ map_get key (cache this) = Some e) ∧
  (∀ key e, map_get key (cache this) = Some e -> expired now e = false ->
     map_get key (cache (snd (cleanup this now))) = Some e) ∧
  hits (snd (cleanup this now)) = hits this ∧
  misses (snd (cleanup this now)) = misses this ∧
  cleanup (snd (cleanup this now)) now = (0, snd (cleanup this now)).
Proof.
  intros Hnd. unfold cleanup, size, withCache. cbn [fst snd cache hits misses].
  split; [|split; [|split; [|split; [reflexivity|split; [reflexivity|]]]]].
  - apply (filter_split_length (fun kv => expired now (snd kv) = true)).
  - intros key e Hget.
    pose proof (map_get_filter_Some _ _ _ _ Hget) as [Hnot Hin]. cbn [snd] in Hnot.
    split; [destruct (expired now e); congruence|].
    apply map_get_of_entry; assumption.
  - intros key e Hget Hx. apply map_get_filter_keeps; [exact Hnd | exact Hget|].
    cbn [snd]. congruence.
  - f_equal.
    + apply (f_equal (@length _)
               (filter_nothing (fun kv => expired now (snd kv) = true) (cache this))).
    + f_equal.
      assert (Hsame : ∀ m, filter (fun kv : string * ICacheEntry T =>
                                     expired now (snd kv) ≠ true)
                             (filter (fun kv => expired now (snd kv) ≠ true) m)
                           = filter (fun kv => expired now (snd kv) ≠ true) m)
        by (intros m; apply filter_again).
      apply Hsame.
Qed.

(** X18: [deleteByPattern], for a pattern whose test does not depend on
    earlier tests, takes out exactly the entries whose key matches and
    returns their number: the number reported and the size left add up
    to the size before, no key that is left matches, the lookup of a
    key that does not match is unchanged, and the counters are
    untouched. *)
Theorem deleteByPattern_exact this regex :
  NoDup (keys this) ->
  fst (deleteByPattern this regex) + size (snd (deleteByPattern this regex))
    = size this ∧
  (∀ key, regex key = true ->
     map_get key (cache (snd (deleteByPattern this regex))) = None) ∧
  (∀ key, regex key = false ->
     map_get key (cache (snd (deleteByPattern this regex)))
       = map_get key (cache this)) ∧
  hits (snd (deleteByPattern this regex)) = hits this ∧
  misses (snd (deleteByPattern this regex)) = misses this.
Proof.
  intros Hnd. unfold deleteByPattern, size, withCache. cbn [fst snd cache hits misses].
  split; [|split; [|split; [|split; reflexivity]]].
  - apply (filter_split_length (fun kv => regex (fst kv) = true)).
  - intros key Hmatch. apply map_get_filter_drops.
    intros e. cbn [fst]. congruence.
  - intros key Hmatch.
    destruct (map_get key (cache this)) as [e|] eqn:Hget.
    + apply map_get_filter_keeps; [exact Hnd | exact Hget|].
      cbn [fst]. congruence.
    + destruct (map_get key (filter _ (cache this))) as [e|] eqn:Hget';
        [|reflexivity].
      apply map_get_filter_Some in Hget' as [_ Hin].
      rewrite (map_get_of_entry _ _ _ Hnd Hin) in Hget. discriminate.
Qed.

Lemma map_get_delete_ne key k m :
  k ≠ key -> map_get k (map_delete key m) = map_get k m.
Proof.
  intros Hne. induction m as [|[k' e] r IH]; simpl; [reflexivity|].
  destruct (decide (k' = key)) as [->|Hk]; simpl.
  - rewrite decide_False by congruence. reflexivity.
  - destruct (decide (k' = k)); [reflexivity | exact IH].
Qed.

Lemma map_delete_count key m :
  length (map_delete key m) +
    match map_get key m with Some _ => 1 | None => 0 end = length m.
Proof.
  induction m as [|[k e] r IH]; simpl; [reflexivity|].
  destruct (decide (k = key)); simpl; lia.
Qed.

(** X19: [delete] answers whether the key had an entry, expired or not (an
    expired entry that [has] denies still makes [delete] answer
    [true]); afterwards the key has none, every other key is as it was,
    and the size has gone down by one exactly when the answer was
    [true]. *)
Theorem delete_exact this key :
  NoDup (keys this) ->
  (fst (delete this key) = true ↔ is_Some (map_get key (cache this))) ∧
  map_get key (cache (snd (delete this key))) = None ∧
  (∀ k, k ≠ key ->
     map_get k (cache (snd (delete this key))) = map_get k (cache this)) ∧
  size (snd (delete this key)) + (if fst (delete this key) then 1 else 0)
    = size this ∧
  (∀ now e, map_get key (cache this) = Some e -> expired now e = true ->
     fst (has this now key) = false ∧ fst (delete this key) = true).
Proof.
  intros Hnd. unfold delete, size, withCache. cbn [fst snd cache].
  split; [apply bool_decide_eq_true|].
  split; [apply map_get_None, map_delete_gone; exact Hnd|].
  split; [intros k Hk; apply map_get_delete_ne; exact Hk|].
  split.
  - rewrite <- (map_delete_count key (cache this)).
    destruct (map_get key (cache this)) as [e|].
    + rewrite bool_decide_eq_true_2 by (eexists; reflexivity). reflexivity.
    + rewrite bool_decide_eq_false_2 by (intros [? [=]]). reflexivity.
  - intros now e Hget Hx. unfold has. rewrite Hget, Hx. cbn [fst].
    split; [reflexivity|]. apply bool_decide_eq_true_2. eexists; reflexivity.
Qed.

Lemma apply_counts this call :
  hits (apply this call) + misses (apply this call) =
  countedLookups (hits this + misses this) call.
Proof.
  destruct call as [now o]. unfold apply, countedLookups. cbn [fst snd].
  assert (Hget : ∀ key, hits (snd (get this now key)) + misses (snd (get this now key))
                        = S (hits this + misses this)).
  { intros key. destruct (get_counts this now key) as [(-> & -> & _)|(-> & -> & _)]; lia. }
  assert (Hset : ∀ (c : DataCache T) now' key data ttl,
            hits (set c now' key data ttl) + misses (set c now' key data ttl)
            = hits c + misses c) by reflexivity.
  destruct o; try reflexivity.
  - apply Hget.
  - unfold has. destruct (map_get key (cache this)) as [e|]; [|reflexivity].
    destruct (expired now e); reflexivity.
  - unfold getOrSet, getOrSet_before, getOrSet_after.
    specialize (Hget key). destruct (get this now key) as [cached this1].
    cbn [snd] in Hget. destruct cached; cbn [after]; try exact Hget.
    destruct (factory tt); cbn [after]; [rewrite Hset|]; exact Hget.
  - unfold getOrSet_before.
    specialize (Hget key). destruct (get this now key) as [cached this1].
    cbn [snd] in Hget. destruct cached; exact Hget.
  - unfold getOrSet_after. destruct result; reflexivity.
  - unfold getOrSetSync.
    specialize (Hget key). destruct (get this now key) as [cached this1].
    cbn [snd] in Hget. destruct cached; cbn [after]; try exact Hget.
    destruct (factory tt); cbn [after]; [rewrite Hset|]; exact Hget.
Qed.

(** X20: The statistics count lookups: after any sequence of calls on a new
    cache, [hits + misses] is the number of [get]s made since the last
    [clear] or [resetStats], a [getOrSet] or [getOrSetSync] counting as
    one [get] and [has] as none; the hit rate is a fraction between 0
    and 1, it is 1 exactly when there were hits and no miss, and it is
    0 (not a division by zero) while nothing has been counted. *)
Theorem getStats_counts C (calls : list (Z * op T)) :
  let stats := getStats (runOps (new C) calls) in
  st_hits stats + st_misses stats = fold_left countedLookups calls 0 ∧
  st_size stats = size (runOps (new C) calls) ∧
  (0 <= st_hitRate stats <= 1)%Q ∧
  ((st_hitRate stats == 1)%Q ↔ st_misses stats = 0 ∧ 0 < st_hits stats) ∧
  (fold_left countedLookups calls 0 = 0 -> st_hitRate stats = 0%Q).
Proof.
  assert (Hcount : ∀ this, hits (runOps this calls) + misses (runOps this calls)
                   = fold_left countedLookups calls (hits this + misses this)).
  { unfold runOps. induction calls as [|call calls IH]; intros this; [reflexivity|].
    simpl. rewrite IH, apply_counts. reflexivity. }
  specialize (Hcount (new C)). cbn [new hits misses Nat.add] in Hcount.
  unfold getStats. cbn [st_hits st_misses st_size st_hitRate].
  set (this := runOps (new C) calls) in *.
  split; [exact Hcount|]. split; [reflexivity|].
  rewrite <- Hcount.
  destruct (hits this + misses this) as [|n] eqn:Htotal.
  - cbn [Nat.ltb Nat.leb]. replace (hits this) with 0 by lia.
    split; [split; discriminate|].
    split; [split; [discriminate | intros [_ Hpos]; lia]|].
    reflexivity.
  - change (0 <? S n)%nat with true. cbv iota.
    assert (Hpos : (0 < inject_Z (Z.of_nat (S n)))%Q).
    { replace 0%Q with (inject_Z 0) by reflexivity. rewrite <- Zlt_Qlt. lia. }
    assert (Hh : (0 <= inject_Z (Z.of_nat (hits this)))%Q).
    { replace 0%Q with (inject_Z 0) by reflexivity. rewrite <- Zle_Qle. lia. }
    assert (Hle : (inject_Z (Z.of_nat (hits this)) <= inject_Z (Z.of_nat (S n)))%Q).
    { rewrite <- Zle_Qle. lia. }
    split; [split|split].
    + apply Qle_shift_div_l; [exact Hpos|]. rewrite Qmult_0_l. exact Hh.
    + apply Qle_shift_div_r; [exact Hpos|]. rewrite Qmult_1_l. exact Hle.
    + split.
      * intros Hone.
        assert (Hsame : (inject_Z (Z.of_nat (hits this)) == inject_Z (Z.of_nat (S n)))%Q).
        { rewrite <- (Qmult_1_l (inject_Z (Z.of_nat (S n)))), <- Hone.
          field. intros Hz. rewrite Hz in Hpos. discriminate. }
        apply inject_Z_injective, Nat2Z.inj in Hsame.
        split; [|rewrite Hsame]; lia.
      * intros [Hmiss Hhit].
        replace (hits this) with (S n) by lia.
        field. intros Hz. rewrite Hz in Hpos. discriminate.
    + discriminate.
Qed.

Lemma get_null_nothingToServe this now key :
  NoDup (keys this) ->
  fst (get this now key) = JNull ->
  nothingToServe (snd (get this now key)) key.
Proof.
  intros Hnd. unfold get, nothingToServe.
  destruct (map_get key (cache this)) as [e|] eqn:Hget.
  - destruct (expired now e); cbn [fst snd cache].
    + intros _.
      rewrite (proj2 (map_get_None key (map_delete key (cache this))));
        [exact I | apply map_delete_gone; exact Hnd].
    + intros Hnull. rewrite Hget. exact Hnull.
  - cbn [fst snd cache]. intros _. rewrite Hget. exact I.
Qed.

(** X30: Memoization through [getOrSetSync] (and [getOrSet], which is
    the same when nothing else touches the cache meanwhile).  When a
    call has invoked the factory and the factory returned a value that
    is not [null], a second call on the key within the ttl returns that
    value without invoking its factory, counts one hit and leaves the
    store as it is.  When the factory threw, nothing is remembered: the
    call returns no value and the next call invokes its factory. *)
Theorem getOrSetSync_memoizes this now now' key factory ttl
    later later' factory' ttl' :
  NoDup (keys this) ->
  factoryInvoked (getOrSetSync this now now' key factory ttl) = true ->
  let first := getOrSetSync this now now' key factory ttl in
  let second := getOrSetSync (after first) later later' key factory' ttl' in
  (∀ d, factory tt = Some d -> d ≠ JNull -> (later - now' <= ttl * 1000)%Z ->
     returned first = Some d ∧
     returned second = Some d ∧ factoryInvoked second = false ∧
     cache (after second) = cache (after first) ∧
     hits (after second) = S (hits (after first)) ∧
     misses (after second) = misses (after first) ∧
     getOrSet (after first) later later' key factory' ttl' = second) ∧
  (factory tt = None ->
     returned first = None ∧ factoryInvoked second = true).
Proof.
  intros Hnd Hinvoked first second.
  assert (Hnull : fst (get this now key) = JNull).
  { revert Hinvoked. unfold getOrSetSync.
    destruct (get this now key) as [[| |d] this1]; cbn [fst];
      [reflexivity | discriminate | discriminate]. }
  pose proof (get_null_nothingToServe this now key Hnd Hnull) as Hnothing.
  assert (Hfirst : first =
            match factory tt with
            | Some data =>
                {| returned := Some data; factoryInvoked := true;
                   after := set (snd (get this now key)) now' key data ttl |}
            | None =>
                {| returned := None; factoryInvoked := true;
                   after := snd (get this now key) |}
            end).
  { subst first. unfold getOrSetSync.
    destruct (get this now key) as [cached this1]. cbn [fst snd] in *.
    subst cached. reflexivity. }
  subst second. rewrite Hfirst. clear Hfirst first.
  split.
  - intros d Hd Hnot Hfresh. rewrite Hd. cbn [after returned].
    rewrite getOrSet_as_sync. unfold getOrSetSync.
    rewrite (get_stored _ later key _
               (set_stores (snd (get this now key)) now' key d ttl)).
    assert (Hx : expired later {| e_data := d; e_timestamp := now';
                                 e_ttl := (ttl * 1000)%Z |} = false).
    { destruct (expired later _) eqn:Hx; [|reflexivity].
      apply expired_spec in Hx. cbn [e_ttl e_timestamp] in Hx. lia. }
    rewrite Hx. cbn [e_data].
    destruct d as [| |d]; [congruence | |]; repeat split.
  - intros Hthrew. rewrite Hthrew. cbn [after returned].
    split; [reflexivity|]. apply getOrSetSync_invokes. exact Hnothing.
Qed.

End CacheMaintenance.

Section CacheMaintenanceExamples.

Import DataCache.

Lemma cleanup_exact_witness :
  fst (cleanup threeStored 62000) + size (snd (cleanup threeStored 62000))
    = size threeStored.
Proof.
  apply (proj1 (cleanup_exact threeStored 62000
                  ltac:(apply (bool_decide_unpack _); vm_compute; exact I))).
Defined.

(** At 62 s the first entry, stored at 0 s for a minute, is the one
    that goes. *)
Example cleanup_threeStored :
  fst (cleanup threeStored 62000) = 1 ∧
  keys (snd (cleanup threeStored 62000)) = ["search:joy"; "search:calm"].
Proof. vm_compute. split; reflexivity. Qed.

Lemma deleteByPattern_exact_witness :
  fst (deleteByPattern threeStored (String.prefix "search:")) +
    size (snd (deleteByPattern threeStored (String.prefix "search:")))
    = size threeStored.
Proof.
  apply (proj1 (deleteByPattern_exact threeStored (String.prefix "search:")
                  ltac:(apply (bool_decide_unpack _); vm_compute; exact I))).
Defined.

Lemma delete_exact_witness :
  map_get "search:joy" (cache (snd (delete threeStored "search:joy"))) = None.
Proof.
  apply (proj1 (proj2 (delete_exact threeStored "search:joy"
                  ltac:(apply (bool_decide_unpack _); vm_compute; exact I)))).
Defined.

Lemma getOrSetSync_memoizes_witness :
  returned (getOrSetSync (new 2) 0 1 "stats:global"
              (fun _ => Some (JData 7)) 60) = Some (JData 7) ∧
  returned (getOrSetSync
              (after (getOrSetSync (new 2) 0 1 "stats:global"
                        (fun _ => Some (JData 7)) 60))
              60000 60001 "stats:global" (fun _ => Some (JData 8)) 60)
    = Some (JData 7).
Proof.
  destruct (proj1 (getOrSetSync_memoizes (new 2) 0 1 "stats:global"
                     (fun _ => Some (JData 7)) 60 60000 60001
                     (fun _ => Some (JData 8)) 60
                     ltac:(constructor) eq_refl)
              (JData 7) eq_refl ltac:(discriminate) ltac:(lia))
    as (Hfirst & Hsecond & _).
  split; [exact Hfirst | exact Hsecond].
Defined.

End CacheMaintenanceExamples.

(** ** Requests, answers and the end of the worker *)

Section ManagerRuns.

Import WebWorkerManager.

Implicit Types (this : manager) (data : WorkerMessage) (done : list nat).

Lemma runFrom_app this events events' :
  runFrom this (events ++ events') =
  (fst (runFrom (fst (runFrom this events)) events'),
   snd (runFrom this events) ++ snd (runFrom (fst (runFrom this events)) events')).
Proof.
  revert this. induction events as [|ev rest IH]; intros this; simpl.
  - destruct (runFrom this events'); reflexivity.
  - destruct (step this ev) as [this1 out1]. rewrite IH.
    destruct (runFrom this1 rest) as [this2 out2]. simpl.
    rewrite app_assoc. reflexivity.
Qed.

Lemma runFrom_cons this ev events :
  runFrom this (ev :: events) =
  (fst (runFrom (fst (step this ev)) events),
   snd (step this ev) ++ snd (runFrom (fst (step this ev)) events)).
Proof.
  simpl. destruct (step this ev) as [this1 out1]. cbn [fst snd].
  destruct (runFrom this1 events); reflexivity.
Qed.

Lemma postedIds_app out out' :
  postedIds (out ++ out') = postedIds out ++ postedIds out'.
Proof. unfold postedIds. rewrite map_app, concat_app. reflexivity. Qed.

(** A step posts nothing and keeps the counter, or posts one message
    under the next id. *)
Lemma step_posts this ev :
  (messageId (fst (step this ev)) = messageId this ∧
   postedIds (snd (step this ev)) = []) ∨
  (messageId (fst (step this ev)) = S (messageId this) ∧
   postedIds (snd (step this ev)) = [msgId (S (messageId this))]).
Proof.
  destruct ev as [creatable|creatable type payload|data|n|]; simpl.
  - left. unfold initialize. destruct (worker this), creatable; split; reflexivity.
  - unfold request, sendMessage.
    assert (Hid : messageId (initialize this creatable) = messageId this)
      by (unfold initialize; destruct (worker this), creatable; reflexivity).
    destruct (worker (initialize this creatable)); simpl; rewrite Hid;
      [right | left]; split; reflexivity.
  - left. unfold handleMessage.
    destruct (String.eqb (m_type data) "INITIALIZED"); [split; reflexivity|].
    destruct (m_id data) as [id|]; simpl; [|split; reflexivity].
    destruct (pendingMessages this !! id); [|split; reflexivity].
    destruct (String.eqb (m_type data) "SUCCESS"); [split; reflexivity|].
    destruct (String.eqb (m_type data) "ERROR"); [|split; reflexivity].
    destruct (m_error data); split; reflexivity.
  - left. case_bool_decide; [|split; reflexivity].
    unfold onTimeout. simpl.
    destruct (pendingMessages this !! msgId n); split; reflexivity.
  - left. unfold terminate. destruct (worker this); split; reflexivity.
Qed.

Lemma runFrom_posts events this :
  messageId this ≤ messageId (fst (runFrom this events)) ∧
  postedIds (snd (runFrom this events)) =
    map msgId (seq (S (messageId this))
                   (messageId (fst (runFrom this events)) - messageId this)).
Proof.
  revert this. induction events as [|ev rest IH]; intros this.
  - simpl. rewrite Nat.sub_diag. split; [lia | reflexivity].
  - rewrite runFrom_cons. cbn [fst snd]. rewrite postedIds_app.
    destruct (IH (fst (step this ev))) as [Hle ->].
    destruct (step_posts this ev) as [[Hid ->]|[Hid ->]]; rewrite Hid in *.
    + split; [exact Hle | reflexivity].
    + split; [lia|].
      replace (messageId (fst (runFrom (fst (step this ev)) rest)) - messageId this)
        with (S (messageId (fst (runFrom (fst (step this ev)) rest))
                 - S (messageId this))) by lia.
      reflexivity.
Qed.

(** What a step settles was pending before it. *)
Lemma step_settles this done ev p :
  consistent this done ->
  p ∈ settled (snd (step this ev)) ->
  pendingMessages this !! msgId p = Some p.
Proof.
  intros Hc. destruct ev as [creatable|creatable type payload|data|n|]; simpl.
  - intros Hin. inversion Hin.
  - unfold request, sendMessage.
    destruct (worker (initialize this creatable)); simpl; intros Hin; inversion Hin.
  - unfold handleMessage.
    destruct (String.eqb (m_type data) "INITIALIZED"); [intros Hin; inversion Hin|].
    destruct (m_id data) as [id|]; simpl; [|intros Hin; inversion Hin].
    destruct (pendingMessages this !! id) as [q|] eqn:Hpen;
      [|intros Hin; inversion Hin].
    assert (Hq : p ∈ [q] -> pendingMessages this !! msgId p = Some p).
    { intros Hin. apply list_elem_of_singleton in Hin. subst q.
      destruct Hc as (Hp & _). destruct (Hp _ _ Hpen) as (-> & _). exact Hpen. }
    destruct (String.eqb (m_type data) "SUCCESS"); [exact Hq|].
    destruct (String.eqb (m_type data) "ERROR"); [|intros Hin; inversion Hin].
    destruct (m_error data); [exact Hq | intros Hin; inversion Hin].
  - case_bool_decide; [|intros Hin; inversion Hin].
    unfold onTimeout. simpl.
    destruct (pendingMessages this !! msgId n) as [q|] eqn:Hpen;
      [|intros Hin; inversion Hin].
    simpl. intros Hin. apply list_elem_of_singleton in Hin. subst p.
    destruct Hc as (Hp & _). destruct (Hp _ _ Hpen) as (Hid & _).
    apply msgId_inj in Hid. subst q. exact Hpen.
  - intros Hin. inversion Hin.
Qed.

(** What is pending after a step was pending before it, or is the
    request the step has just posted. *)
Lemma step_pending this ev id p :
  pendingMessages (fst (step this ev)) !! id = Some p ->
  pendingMessages this !! id = Some p ∨ p = S (messageId this).
Proof.
  destruct ev as [creatable|creatable type payload|data|n|]; simpl.
  - unfold initialize. destruct (worker this), creatable; intros Hold; left; exact Hold.
  - unfold request, sendMessage.
    assert (Hinit : messageId (initialize this creatable) = messageId this ∧
                    pendingMessages (initialize this creatable) = pendingMessages this)
      by (unfold initialize; destruct (worker this), creatable; split; reflexivity).
    destruct Hinit as [Hid Hpen].
    destruct (worker (initialize this creatable)); simpl; rewrite ?Hid, Hpen.
    + destruct (decide (msgId (S (messageId this)) = id)) as [<-|Hne].
      * rewrite lookup_insert_eq. intros [= <-]. right. reflexivity.
      * rewrite lookup_insert_ne by exact Hne. intros Hold. left. exact Hold.
    + intros Hold. left. exact Hold.
  - unfold handleMessage.
    destruct (String.eqb (m_type data) "INITIALIZED"); [intros Hold; left; exact Hold|].
    destruct (m_id data) as [id'|]; simpl; [|intros Hold; left; exact Hold].
    destruct (pendingMessages this !! id') as [q|]; [|intros Hold; left; exact Hold].
    assert (Hdrop : pendingMessages (dropPending this (Some id')) !! id = Some p ->
                    pendingMessages this !! id = Some p ∨ p = S (messageId this)).
    { intros Hold. apply dropPending_lookup in Hold as [_ Hold]. left. exact Hold. }
    destruct (String.eqb (m_type data) "SUCCESS"); [exact Hdrop|].
    destruct (String.eqb (m_type data) "ERROR"); [|exact Hdrop].
    destruct (m_error data); exact Hdrop.
  - case_bool_decide; [|intros Hold; left; exact Hold].
    unfold onTimeout. simpl.
    destruct (pendingMessages this !! msgId n); simpl; [|intros Hold; left; exact Hold].
    intros Hold. left.
    destruct (decide (msgId n = id)) as [<-|Hne].
    + rewrite lookup_delete_eq in Hold. discriminate.
    + rewrite lookup_delete_ne in Hold by exact Hne. exact Hold.
  - unfold terminate. destruct (worker this); simpl; [|intros Hold; left; exact Hold].
    rewrite lookup_empty. discriminate.
Qed.

Lemma step_messageId this ev :
  messageId this ≤ messageId (fst (step this ev)).
Proof. destruct (step_posts this ev) as [[-> _]|[-> _]]; lia. Qed.

(** A promise that is neither pending nor still to be created is never
    settled. *)
Lemma never_settled events this done p :
  consistent this done ->
  p ≤ messageId this ->
  pendingMessages this !! msgId p = None ->
  p ∉ settled (snd (runFrom this events)).
Proof.
  revert this done. induction events as [|ev rest IH]; intros this done Hc Hle Hnone.
  - simpl. apply not_elem_of_nil.
  - rewrite runFrom_cons. cbn [snd]. rewrite settled_app, not_elem_of_app. split.
    + intros Hin. rewrite (step_settles this done ev p Hc Hin) in Hnone. discriminate.
    + apply (IH _ (done ++ settled (snd (step this ev)))).
      * apply step_consistent. exact Hc.
      * pose proof (step_messageId this ev). lia.
      * destruct (pendingMessages (fst (step this ev)) !! msgId p) as [q|] eqn:Hpen;
          [|reflexivity].
        pose proof (step_consistent this done ev Hc) as (Hp & _).
        destruct (Hp _ _ Hpen) as (Hid & _). apply msgId_inj in Hid. subst q.
        apply step_pending in Hpen as [Hold|Hnew]; [congruence | lia].
Qed.

(** Without a worker nothing is pending. *)
Lemma step_idle this ev :
  (worker this = false -> pendingMessages this = ∅) ->
  worker (fst (step this ev)) = false -> pendingMessages (fst (step this ev)) = ∅.
Proof.
  intros Hidle. destruct ev as [creatable|creatable type payload|data|n|]; simpl.
  - unfold initialize. destruct (worker this) eqn:Hw; [intros; simpl in *; congruence|].
    destruct creatable; simpl; [discriminate | intros _; apply Hidle; reflexivity].
  - unfold request, sendMessage.
    destruct (worker (initialize this creatable)) eqn:Hw; simpl; [congruence|].
    intros _. unfold initialize in *. destruct (worker this) eqn:Hw'; [simpl in *; congruence|].
    destruct creatable; simpl in *; [discriminate | apply Hidle; reflexivity].
  - unfold handleMessage.
    destruct (String.eqb (m_type data) "INITIALIZED"); [exact Hidle|].
    destruct (m_id data) as [id|]; simpl; [|exact Hidle].
    destruct (pendingMessages this !! id) as [q|] eqn:Hpen; [|exact Hidle].
    assert (Hw : worker (dropPending this (Some id)) = false ->
                 pendingMessages (dropPending this (Some id)) = ∅).
    { simpl. intros Hw. rewrite (Hidle Hw) in Hpen.
      rewrite lookup_empty in Hpen. discriminate. }
    destruct (String.eqb (m_type data) "SUCCESS"); [exact Hw|].
    destruct (String.eqb (m_type data) "ERROR"); [|exact Hw].
    destruct (m_error data); exact Hw.
  - case_bool_decide; [|exact Hidle].
    unfold onTimeout. simpl.
    destruct (pendingMessages this !! msgId n) as [q|] eqn:Hpen; simpl; [|exact Hidle].
    intros Hw. rewrite (Hidle Hw) in Hpen. rewrite lookup_empty in Hpen. discriminate.
  - unfold terminate. destruct (worker this) eqn:Hw; simpl; [reflexivity|].
    intros _. apply Hidle. reflexivity.
Qed.

Lemma runFrom_idle events this :
  (worker this = false -> pendingMessages this = ∅) ->
  worker (fst (runFrom this events)) = false ->
  pendingMessages (fst (runFrom this events)) = ∅.
Proof.
  revert this. induction events as [|ev rest IH]; intros this Hidle; [exact Hidle|].
  rewrite runFrom_cons. cbn [fst]. apply IH. apply step_idle. exact Hidle.
Qed.

(** X21: The ids posted by a run are [msg_1], [msg_2], ... in this order,
    one for each request that reached the worker, also across the end
    of one worker and the start of the next: no id is ever used twice.
    Whatever a run settles is the promise of one of these requests. *)
Theorem posted_ids_sequential events :
  postedIds (snd (runFrom initial events)) =
    map msgId (seq 1 (messageId (fst (runFrom initial events)))) ∧
  NoDup (postedIds (snd (runFrom initial events))) ∧
  (∀ p, p ∈ settled (snd (runFrom initial events)) ->
     msgId p ∈ postedIds (snd (runFrom initial events))).
Proof.
  destruct (runFrom_posts events initial) as [_ Hposted].
  cbn [initial messageId] in Hposted. rewrite Nat.sub_0_r in Hposted.
  rewrite Hposted. split; [reflexivity|]. split.
  - apply NoDup_fmap_2; [intros n n'; apply msgId_inj | apply NoDup_seq].
  - intros p Hin. apply list_elem_of_fmap. exists p. split; [reflexivity|].
    apply elem_of_seq.
    destruct (runFrom_consistent events initial [] initial_consistent)
      as (_ & _ & Hle).
    specialize (Hle p Hin).
    assert (Hpos : p ≠ 0).
    { intros ->. revert Hin. apply (never_settled events initial []).
      - exact initial_consistent.
      - simpl. lia.
      - apply lookup_empty. }
    lia.
Qed.

(** X22: A request is posted under the next id and nothing else happens; the
    SUCCESS message with that id resolves the promise of this request
    with the result of the message, the ERROR message rejects it with
    the message of the error, and either leaves pending what was
    pending before the request.  Where no worker can be created the
    request is rejected at once and nothing is posted or left pending. *)
Theorem request_response_round_trip this done type payload result reason :
  consistent this done ->
  let n := S (messageId this) in
  let sent := fst (request this true type payload) in
  snd (request this true type payload) = [PostMessage type (msgId n) payload] ∧
  pendingMessages sent = <[msgId n := n]> (pendingMessages this) ∧
  snd (handleMessage sent {| m_type := "SUCCESS"; m_id := Some (msgId n);
                             m_result := result; m_error := None |})
    = [Resolve n result] ∧
  snd (handleMessage sent {| m_type := "ERROR"; m_id := Some (msgId n);
                             m_result := result; m_error := Some reason |})
    = [Reject n reason] ∧
  pendingMessages
    (fst (handleMessage sent {| m_type := "SUCCESS"; m_id := Some (msgId n);
                                m_result := result; m_error := None |}))
    = pendingMessages this ∧
  pendingMessages
    (fst (handleMessage sent {| m_type := "ERROR"; m_id := Some (msgId n);
                                m_result := result; m_error := Some reason |}))
    = pendingMessages this ∧
  (worker this = false ->
   request this false type payload =
     (this, [RejectUnsent "Worker not initialized"])).
Proof.
  intros (Hp & _ & _) n sent.
  assert (Hfresh : pendingMessages this !! msgId n = None).
  { destruct (pendingMessages this !! msgId n) as [q|] eqn:Hq; [|reflexivity].
    destruct (Hp _ _ Hq) as (Hid & Hle & _). apply msgId_inj in Hid. lia. }
  assert (Hinit : worker (initialize this true) = true ∧
                  messageId (initialize this true) = messageId this ∧
                  pendingMessages (initialize this true) = pendingMessages this)
    by (unfold initialize; destruct (worker this) eqn:Hw; repeat split; exact Hw).
  destruct Hinit as (Hw & Hid & Hpen).
  assert (Hsent : request this true type payload =
            ({| worker := true; messageId := n;
                pendingMessages := <[msgId n := n]> (pendingMessages this);
                timers := {[n]} ∪ timers (initialize this true) |},
             [PostMessage type (msgId n) payload])).
  { unfold request, sendMessage. rewrite Hw, Hid, Hpen. reflexivity. }
  subst sent. rewrite Hsent. cbn [fst snd].
  split; [reflexivity|]. split; [reflexivity|].
  unfold handleMessage.
  cbn [m_type m_id m_result m_error pendingOf pendingMessages dropPending String.eqb
       Ascii.eqb Bool.eqb].
  rewrite lookup_insert_eq. cbn [fst snd pendingMessages].
  rewrite (delete_insert_id _ _ _ Hfresh).
  repeat split.
  intros Hoff. unfold request, initialize. rewrite Hoff.
  unfold sendMessage. rewrite Hoff. reflexivity.
Qed.

(** X23: A request that is pending when the worker is terminated is never
    settled: [terminate] forgets it without rejecting it, and neither a
    late answer, nor its timer, nor anything done on a later worker
    resolves or rejects its promise. *)
Theorem terminate_abandons_pending events events' id p :
  pendingMessages (fst (runFrom initial events)) !! id = Some p ->
  p ∉ settled (snd (runFrom initial (events ++ EvTerminate :: events'))).
Proof.
  intros Hpen.
  pose proof (runFrom_consistent events initial [] initial_consistent) as Hc.
  cbn [app] in Hc.
  set (this := fst (runFrom initial events)) in *.
  set (out := snd (runFrom initial events)) in *.
  destruct (Hc) as (Hp & _ & _). destruct (Hp _ _ Hpen) as (-> & Hle & Hnot).
  rewrite runFrom_app, runFrom_cons. cbn [fst snd step app].
  fold this out. rewrite settled_app, not_elem_of_app. split; [exact Hnot|].
  assert (Hw : worker this = true).
  { destruct (worker this) eqn:Hw; [reflexivity|]. exfalso.
    assert (Hidle : pendingMessages this = ∅).
    { apply runFrom_idle; [reflexivity | exact Hw]. }
    rewrite Hidle, lookup_empty in Hpen. discriminate. }
  apply (never_settled events' (terminate this) (settled out)).
  - apply terminate_consistent. exact Hc.
  - unfold terminate. rewrite Hw. exact Hle.
  - unfold terminate. rewrite Hw. apply lookup_empty.
Qed.

End ManagerRuns.

Lemma request_response_round_trip_witness :
  snd (WebWorkerManager.request WebWorkerManager.initial true
         "TRANSFORM_DATA" "records")
    = [WebWorkerManager.PostMessage "TRANSFORM_DATA" "msg_1" "records"].
Proof.
  apply (proj1 (request_response_round_trip WebWorkerManager.initial []
                  "TRANSFORM_DATA" "records" "points" "failed"
                  initial_consistent)).
Defined.

Lemma terminate_abandons_pending_witness :
  WebWorkerManager.pendingMessages
    (fst (WebWorkerManager.runFrom WebWorkerManager.initial
            [WebWorkerManager.EvRequest true "TRANSFORM_DATA" "records"]))
    !! "msg_1" = Some 1 ∧
  1 ∉ WebWorkerManager.settled
        (snd (WebWorkerManager.runFrom WebWorkerManager.initial
                ([WebWorkerManager.EvRequest true "TRANSFORM_DATA" "records"] ++
                 WebWorkerManager.EvTerminate :: terminatedRequest))).
Proof.
  split; [reflexivity|].
  apply (terminate_abandons_pending
           [WebWorkerManager.EvRequest true "TRANSFORM_DATA" "records"]
           terminatedRequest "msg_1" 1).
  reflexivity.
Defined.

(** After the end of the first worker its request stays unsettled; the
    request on the second worker is answered. *)
Example terminatedRequest_effects :
  WebWorkerManager.settled
    (snd (WebWorkerManager.runFrom WebWorkerManager.initial
            ([WebWorkerManager.EvRequest true "TRANSFORM_DATA" "records"] ++
             WebWorkerManager.EvTerminate :: terminatedRequest))) = [2].
Proof. reflexivity. Qed.

(** ** Retries of the HTTP client *)

Section ClientRetries.

Context {T : Type}.

Import ApiConst EmotionApiClient.

Implicit Types (execute : nat -> executed T) (error : thrown).

Lemma retryLoop_spec execute attempt lastError sleeps :
  attempt < MAX_ATTEMPTS ->
  attempt < calls (retryLoop execute attempt lastError sleeps) ≤ MAX_ATTEMPTS ∧
  slept (retryLoop execute attempt lastError sleeps) =
    sleeps ++ map calculateRetryDelay
                (seq (S attempt)
                     (calls (retryLoop execute attempt lastError sleeps) - S attempt)) ∧
  (∀ j, attempt ≤ j < calls (retryLoop execute attempt lastError sleeps) - 1 ->
     ∃ error, execute j = Threw error ∧
              isRetryableError (statusCode error) = true) ∧
  match execute (calls (retryLoop execute attempt lastError sleeps) - 1) with
  | Returned data =>
      response (retryLoop execute attempt lastError sleeps) = ApiSuccess data
  | Threw error =>
      response (retryLoop execute attempt lastError sleeps)
        = ApiFailure "REQUEST_FAILED" (failureText (Some error)) ∧
      (isRetryableError (statusCode error) = false ∨
       calls (retryLoop execute attempt lastError sleeps) = MAX_ATTEMPTS)
  end.
Proof.
  funelim (retryLoop execute attempt lastError sleeps); intros Hlt.
  - lia.
  - cbn [calls slept response]. rewrite Nat.sub_diag. cbn [seq map].
    rewrite app_nil_r. replace (S attempt - 1) with attempt by lia.
    match goal with Hex : execute attempt = Returned _ |- _ => rewrite Hex end.
    repeat split; try lia; intros j Hj; lia.
  - cbn [calls slept response]. rewrite Nat.sub_diag. cbn [seq map].
    rewrite app_nil_r. replace (S attempt - 1) with attempt by lia.
    match goal with Hex : execute attempt = Threw _ |- _ => rewrite Hex end.
    split; [lia|]. split; [reflexivity|]. split; [intros j Hj; lia|].
    split; [reflexivity|].
    match goal with Hstop : _ || _ = true |- _ =>
      apply orb_true_iff in Hstop as [Hnot|Hmax] end.
    + left. apply negb_true_iff. exact Hnot.
    + right. apply Nat.leb_le in Hmax. unfold MAX_ATTEMPTS in *. lia.
  - match goal with Hgo : _ || _ = false |- _ =>
      apply orb_false_iff in Hgo as [Hretry Hmore] end.
    apply negb_false_iff in Hretry. apply Nat.leb_gt in Hmore.
    match goal with IH : _ -> _ |- _ =>
      destruct (IH Hmore) as (Hcalls & Hslept & Hbefore & Hlast) end.
    set (r := retryLoop execute (S attempt) (Some error)
                (sleeps ++ [calculateRetryDelay (S attempt)])) in *.
    split; [lia|]. split; [|split; [|exact Hlast]].
    + rewrite Hslept, <- app_assoc. f_equal.
      replace (calls r - S attempt) with (S (calls r - S (S attempt))) by lia.
      reflexivity.
    + intros j Hj. destruct (decide (j = attempt)) as [->|Hne].
      * exists error. split; [assumption | exact Hretry].
      * apply Hbefore. lia.
Qed.

(** X24: [request] calls [executeRequest] at least once and at most three
    times.  Every call but the last has thrown an error with a
    retryable status code; before the second call it sleeps a second
    and before the third two.  It returns the response of the last call
    when that call returned, and otherwise, without throwing, a failure
    that carries the message of the last error; it gives up on an error
    that is not retryable or after the third call. *)
Theorem request_retries execute :
  1 ≤ calls (request execute) ≤ 3 ∧
  slept (request execute) =
    firstn (calls (request execute) - 1) [1000%Q; 2000%Q] ∧
  (∀ j, j < calls (request execute) - 1 ->
     ∃ error, execute j = Threw error ∧
              isRetryableError (statusCode error) = true) ∧
  match execute (calls (request execute) - 1) with
  | Returned data => response (request execute) = ApiSuccess data
  | Threw error =>
      response (request execute)
        = ApiFailure "REQUEST_FAILED" (failureText (Some error)) ∧
      (isRetryableError (statusCode error) = false ∨ calls (request execute) = 3)
  end.
Proof.
  unfold request.
  destruct (retryLoop_spec execute 0 None []) as (Hcalls & Hslept & Hbefore & Hlast).
  { unfold MAX_ATTEMPTS. lia. }
  unfold MAX_ATTEMPTS in *.
  split; [lia|]. split; [|split; [|exact Hlast]].
  - rewrite Hslept. cbn [app].
    destruct (calls (retryLoop execute 0 None [])) as [|[|[|[|n]]]]; try lia;
      reflexivity.
  - intros j Hj. apply Hbefore. lia.
Qed.

(** X25: What [executeRequest] throws is retried exactly when the request
    timed out or the server answered with one of the status codes 408,
    429, 500, 502, 503 and 504; a network failure, which is thrown with
    the status code 0, a body that does not parse, and every other
    status are not. *)
Theorem retried_failures (outcome : fetchOutcome T) error :
  executeRequest outcome = Threw error ->
  (isRetryableError (statusCode error) = true ↔
     outcome = AbortError ∨
     (∃ status json, outcome = Response false status json ∧
                     status ∈ RETRYABLE_STATUS_CODES) ∨
     (∃ e, outcome = OtherError e ∧ isRetryableError (statusCode e) = true)) ∧
  (outcome = TypeError -> isRetryableError (statusCode error) = false) ∧
  (∀ status syntaxError, outcome = Response true status (inr syntaxError) ->
     isRetryableError (statusCode error) = false).
Proof.
  intros Hthrew.
  assert (Hcodes : ∀ status, isRetryableError (Some status) = true ↔
                             status ∈ RETRYABLE_STATUS_CODES).
  { intros status. unfold isRetryableError.
    destruct (status =? 0)%Z eqn:Hz.
    - apply Z.eqb_eq in Hz. subst status. split; [discriminate|].
      intros Hin. exfalso. revert Hin. apply (bool_decide_unpack _). vm_compute. exact I.
    - apply bool_decide_eq_true. }
  destruct outcome as [[] status [data|syntaxError]| | |e]; simpl in Hthrew;
    try discriminate; injection Hthrew as <-; cbn [statusCode].
  - split; [|split; [discriminate | reflexivity]].
    split; [discriminate|].
    intros [?|[(? & ? & [=] & _)|(? & [=] & _)]]; discriminate.
  - split; [|split; [discriminate | intros ? ? [=]]].
    rewrite Hcodes. split.
    + intros Hin. right. left. eauto.
    + intros [?|[(? & ? & [= <- <-] & Hin)|(? & [=] & _)]]; [discriminate | exact Hin].
  - split; [|split; [discriminate | intros ? ? [=]]].
    rewrite Hcodes. split.
    + intros Hin. right. left. eauto.
    + intros [?|[(? & ? & [= <- <-] & Hin)|(? & [=] & _)]]; [discriminate | exact Hin].
  - split; [|split; [discriminate | intros ? ? [=]]].
    split; [intros _; left; reflexivity | reflexivity].
  - split; [|split; [reflexivity | intros ? ? [=]]].
    split; [discriminate|].
    intros [?|[(? & ? & [=] & _)|(? & [=] & _)]]; discriminate.
  - split; [|split; [discriminate | intros ? ? [=]]].
    split.
    + intros Hr. right. right. eauto.
    + intros [?|[(? & ? & [=] & _)|(? & [= <-] & Hr)]]; [discriminate | exact Hr].
Qed.

End ClientRetries.

Lemma retried_failures_witness :
  ApiConst.isRetryableError (Some 0%Z) = false.
Proof.
  apply (proj1 (proj2 (retried_failures (T := nat) EmotionApiClient.TypeError
                         {| EmotionApiClient.statusCode := Some 0%Z;
                            EmotionApiClient.message :=
                              Some (ApiConst.Text "Network error") |}
                         eq_refl))).
  reflexivity.
Defined.

(** Three timeouts: three calls, a second and two seconds of sleep in
    between, and a failure with the message of the timeout.  A network
    failure: one call. *)
Example request_examples :
  let timeouts := EmotionApiClient.request (T := nat)
    (fun _ => EmotionApiClient.executeRequest EmotionApiClient.AbortError) in
  let offline := EmotionApiClient.request (T := nat)
    (fun _ => EmotionApiClient.executeRequest EmotionApiClient.TypeError) in
  EmotionApiClient.calls timeouts = 3 ∧
  EmotionApiClient.slept timeouts = [1000%Q; 2000%Q] ∧
  EmotionApiClient.response timeouts =
    EmotionApiClient.ApiFailure "REQUEST_FAILED" (ApiConst.Text "Request timeout") ∧
  EmotionApiClient.calls offline = 1 ∧
  EmotionApiClient.slept offline = [].
Proof. vm_compute. repeat split. Qed.

Section RetryDelay.

Import ApiConst.

Lemma Qpower_two n : (Qpower 2 (Z.of_nat n) == inject_Z (2 ^ Z.of_nat n))%Q.
Proof.
  induction n as [|n IH]; [reflexivity|].
  rewrite Nat2Z.inj_succ, <- Z.add_1_r.
  rewrite Qpower_plus by discriminate. rewrite IH.
  rewrite Z.pow_add_r by lia. rewrite inject_Z_mult. reflexivity.
Qed.

Lemma calculateRetryDelay_pow attempt :
  1 ≤ attempt ->
  (calculateRetryDelay attempt ==
   Qmin (inject_Z (1000 * 2 ^ (Z.of_nat attempt - 1))) 10000)%Q.
Proof.
  intros Hpos. unfold calculateRetryDelay, INITIAL_DELAY, BACKOFF_MULTIPLIER, MAX_DELAY.
  replace (Z.of_nat attempt - 1)%Z with (Z.of_nat (attempt - 1)) by lia.
  rewrite Qpower_two, inject_Z_mult. reflexivity.
Qed.

(** X26: The delay before a retry doubles from one second with each attempt
    and is capped at ten seconds: it is 1000, 2000, 4000 and 8000 ms
    for the attempts 1 to 4 and 10000 ms from the fifth on, so it never
    decreases and always lies between one and ten seconds. *)
Theorem calculateRetryDelay_backoff attempt :
  1 ≤ attempt ->
  (1000 <= calculateRetryDelay attempt <= 10000)%Q ∧
  (calculateRetryDelay attempt <= calculateRetryDelay (S attempt))%Q ∧
  (attempt ≤ 4 ->
     (calculateRetryDelay attempt == inject_Z (1000 * 2 ^ (Z.of_nat attempt - 1)))%Q) ∧
  (5 ≤ attempt -> (calculateRetryDelay attempt == 10000)%Q).
Proof.
  intros Hpos.
  rewrite (calculateRetryDelay_pow attempt Hpos).
  rewrite (calculateRetryDelay_pow (S attempt)) by lia.
  replace (Z.of_nat (S attempt) - 1)%Z with (Z.succ (Z.of_nat attempt - 1)) by lia.
  rewrite Z.pow_succ_r by lia.
  set (d := (2 ^ (Z.of_nat attempt - 1))%Z).
  assert (Hd : (1 <= d)%Z).
  { unfold d. change 1%Z with (2 ^ 0)%Z. apply Z.pow_le_mono_r; lia. }
  change 10000%Q with (inject_Z 10000). change 1000%Q with (inject_Z 1000).
  split; [split|split; [|split]].
  - apply Q.min_glb; rewrite <- Zle_Qle; lia.
  - apply Q.le_min_r.
  - apply Q.min_le_compat_r. rewrite <- Zle_Qle. lia.
  - intros Hsmall. apply Q.min_l. rewrite <- Zle_Qle.
    assert (d <= 2 ^ 3)%Z by (unfold d; apply Z.pow_le_mono_r; lia). lia.
  - intros Hlarge. apply Q.min_r. rewrite <- Zle_Qle.
    assert (2 ^ 4 <= d)%Z by (unfold d; apply Z.pow_le_mono_r; lia). lia.
Qed.

Lemma calculateRetryDelay_backoff_witness :
  (1000 <= calculateRetryDelay 2 <= 10000)%Q.
Proof.
  apply (proj1 (calculateRetryDelay_backoff 2 ltac:(lia))).
Defined.

End RetryDelay.

(** ** Screen coordinates

    The statements of this part are about order, range and the values
    at the corners and the centre of the plane, on a canvas whose width
    and height are whole numbers of pixels: these are the facts about
    the two mappings that do not depend on how a product or a quotient
    is rounded. *)

Section ScreenCoordinates.

Lemma clamp_range value : (-1 <= Qmax (-1) (Qmin 1 value) <= 1)%Q.
Proof.
  split; [apply Q.le_max_l|].
  apply Q.max_lub; [discriminate | apply Q.le_min_l].
Qed.

Lemma clamp_mono value value' :
  (value <= value')%Q ->
  (Qmax (-1) (Qmin 1 value) <= Qmax (-1) (Qmin 1 value'))%Q.
Proof.
  intros Hle. apply Q.max_le_compat_l. apply Q.min_le_compat_l. exact Hle.
Qed.

Lemma clamp_low value : (value <= -1)%Q -> (Qmax (-1) (Qmin 1 value) == -1)%Q.
Proof.
  intros Hle. apply Q.max_l. apply Q.min_le_iff. right. exact Hle.
Qed.

Lemma clamp_high value : (1 <= value)%Q -> (Qmax (-1) (Qmin 1 value) == 1)%Q.
Proof.
  intros Hle. rewrite (Q.min_l _ _ Hle). apply Q.max_r. discriminate.
Qed.

Lemma clamp_zero value : (value == 0)%Q -> (Qmax (-1) (Qmin 1 value) == 0)%Q.
Proof.
  intros ->. reflexivity.
Qed.

Lemma scaled_within x extent :
  (0 <= x <= 2)%Q -> (0 < extent)%Q -> (0 <= x / 2 * extent <= extent)%Q.
Proof.
  intros [Hlo' Hhi'] Hpos.
  assert (Hlo : (0 <= x / 2)%Q) by (apply Qle_shift_div_l; [reflexivity | lra]).
  assert (Hhi : (x / 2 <= 1)%Q) by (apply Qle_shift_div_r; [reflexivity | lra]).
  split.
  - apply Qmult_le_0_compat; [exact Hlo | apply Qlt_le_weak; exact Hpos].
  - rewrite <- (Qmult_1_l extent) at 2.
    apply Qmult_le_compat_r; [exact Hhi | apply Qlt_le_weak; exact Hpos].
Qed.

Lemma scaled_mono x x' extent :
  (x <= x')%Q -> (0 < extent)%Q -> (x / 2 * extent <= x' / 2 * extent)%Q.
Proof.
  intros Hle Hpos.
  apply Qmult_le_compat_r; [|apply Qlt_le_weak; exact Hpos].
  unfold Qdiv. apply Qmult_le_compat_r; [exact Hle | discriminate].
Qed.

Lemma ratio_mono x x' extent :
  (x <= x')%Q -> (0 < extent)%Q -> (x / extent <= x' / extent)%Q.
Proof.
  intros Hle Hpos. unfold Qdiv.
  apply Qmult_le_compat_r; [exact Hle|].
  apply Qinv_le_0_compat. apply Qlt_le_weak. exact Hpos.
Qed.

Lemma ratio_low x extent :
  (x <= 0)%Q -> (0 < extent)%Q -> (x / extent <= 0)%Q.
Proof.
  intros Hle Hpos. apply Qle_shift_div_r; [exact Hpos|]. lra.
Qed.

Lemma ratio_high x extent :
  (extent <= x)%Q -> (0 < extent)%Q -> (1 <= x / extent)%Q.
Proof.
  intros Hle Hpos. apply Qle_shift_div_l; [exact Hpos|]. lra.
Qed.

Lemma canvas_extent (n : Z) : (100 < n)%Z -> (100 < inject_Z n)%Q.
Proof.
  intros Hn. change 100%Q with (inject_Z 100). rewrite <- Zlt_Qlt. exact Hn.
Qed.

(** X27: On a canvas of [w] by [h] pixels, both above 100.  [vaToScreen]
    grows with the valence and falls with the arousal (the Y axis is
    turned over), sends the corners of the V-A plane to the corners of
    the padded area and its centre to the centre, and so every point of
    the plane into that area.  [screenToVA] grows with [x] and falls
    with [y], always answers inside the plane, answers the edge of the
    plane for every screen point beyond the padded area, and sends the
    centre of the area back to (0, 0). *)
Theorem screen_mapping_oriented (w h : Z) :
  (100 < w)%Z -> (100 < h)%Z ->
  let W := inject_Z w in
  let H := inject_Z h in
  (∀ v v' a, (v <= v')%Q ->
     (fst (VisualizationConst.vaToScreen v a W H)
        <= fst (VisualizationConst.vaToScreen v' a W H))%Q) ∧
  (∀ v a a', (a <= a')%Q ->
     (snd (VisualizationConst.vaToScreen v a' W H)
        <= snd (VisualizationConst.vaToScreen v a W H))%Q) ∧
  (∀ a, (fst (VisualizationConst.vaToScreen (-1) a W H) == 60)%Q ∧
        (fst (VisualizationConst.vaToScreen 1 a W H) == W - 40)%Q ∧
        (fst (VisualizationConst.vaToScreen 0 a W H) == 60 + (W - 100) / 2)%Q) ∧
  (∀ v, (snd (VisualizationConst.vaToScreen v 1 W H) == 40)%Q ∧
        (snd (VisualizationConst.vaToScreen v (-1) W H) == H - 60)%Q ∧
        (snd (VisualizationConst.vaToScreen v 0 W H) == 40 + (H - 100) / 2)%Q) ∧
  (∀ v a, (-1 <= v <= 1)%Q -> (-1 <= a <= 1)%Q ->
     (60 <= fst (VisualizationConst.vaToScreen v a W H) <= W - 40)%Q ∧
     (40 <= snd (VisualizationConst.vaToScreen v a W H) <= H - 60)%Q) ∧
  (∀ x y,
     (-1 <= fst (VisualizationConst.screenToVA x y W H) <= 1)%Q ∧
     (-1 <= snd (VisualizationConst.screenToVA x y W H) <= 1)%Q) ∧
  (∀ x x' y, (x <= x')%Q ->
     (fst (VisualizationConst.screenToVA x y W H)
        <= fst (VisualizationConst.screenToVA x' y W H))%Q) ∧
  (∀ x y y', (y <= y')%Q ->
     (snd (VisualizationConst.screenToVA x y' W H)
        <= snd (VisualizationConst.screenToVA x y W H))%Q) ∧
  (∀ x y,
     ((x <= 60)%Q -> (fst (VisualizationConst.screenToVA x y W H) == -1)%Q) ∧
     ((W - 40 <= x)%Q -> (fst (VisualizationConst.screenToVA x y W H) == 1)%Q) ∧
     ((y <= 40)%Q -> (snd (VisualizationConst.screenToVA x y W H) == 1)%Q) ∧
     ((H - 60 <= y)%Q -> (snd (VisualizationConst.screenToVA x y W H) == -1)%Q)) ∧
  (fst (VisualizationConst.screenToVA (60 + (W - 100) / 2) (40 + (H - 100) / 2) W H)
     == 0)%Q ∧
  (snd (VisualizationConst.screenToVA (60 + (W - 100) / 2) (40 + (H - 100) / 2) W H)
     == 0)%Q.
Proof.
  intros Hw Hh W H.
  pose proof (canvas_extent w Hw) as HW. pose proof (canvas_extent h Hh) as HH.
  fold W in HW. fold H in HH. clearbody W H. clear w h Hw Hh.
  unfold VisualizationConst.vaToScreen, VisualizationConst.screenToVA,
    VisualizationConst.CANVAS_PADDING_LEFT, VisualizationConst.CANVAS_PADDING_RIGHT,
    VisualizationConst.CANVAS_PADDING_TOP, VisualizationConst.CANVAS_PADDING_BOTTOM.
  cbn [fst snd].
  assert (Hew : (0 < W - 60 - 40)%Q) by lra.
  assert (Heh : (0 < H - 40 - 60)%Q) by lra.
  assert (Hnw : ¬ (W - 60 - 40 == 0)%Q) by lra.
  assert (Hnh : ¬ (H - 40 - 60 == 0)%Q) by lra.
  split.
  { intros v v' a Hle.
    pose proof (scaled_mono (v + 1) (v' + 1) _ ltac:(lra) Hew). lra. }
  split.
  { intros v a a' Hle.
    pose proof (scaled_mono (1 - a') (1 - a) _ ltac:(lra) Heh). lra. }
  split.
  { intros a. repeat split; field. }
  split.
  { intros v. repeat split; field. }
  split.
  { intros v a Hv Ha.
    pose proof (scaled_within (v + 1) _ ltac:(lra) Hew).
    pose proof (scaled_within (1 - a) _ ltac:(lra) Heh).
    split; lra. }
  split.
  { intros x y. split; apply clamp_range. }
  split.
  { intros x x' y Hle. apply clamp_mono.
    pose proof (ratio_mono (x - 60) (x' - 60) _ ltac:(lra) Hew). lra. }
  split.
  { intros x y y' Hle. apply clamp_mono.
    pose proof (ratio_mono (y - 40) (y' - 40) _ ltac:(lra) Heh). lra. }
  split.
  { intros x y. split; [|split; [|split]]; intros Hout.
    - apply clamp_low.
      pose proof (ratio_low (x - 60) _ ltac:(lra) Hew). lra.
    - apply clamp_high.
      pose proof (ratio_high (x - 60) (W - 60 - 40) ltac:(lra) Hew). lra.
    - apply clamp_high.
      pose proof (ratio_low (y - 40) _ ltac:(lra) Heh). lra.
    - apply clamp_low.
      pose proof (ratio_high (y - 40) (H - 40 - 60) ltac:(lra) Heh). lra. }
  split; apply clamp_zero; field; assumption.
Qed.

Lemma screen_mapping_oriented_witness :
  (fst (VisualizationConst.vaToScreen (3 # 10) (7 # 10) 800 600)
     <= fst (VisualizationConst.vaToScreen (4 # 10) (7 # 10) 800 600))%Q ∧
  (fst (VisualizationConst.screenToVA 900 10 800 600) == 1)%Q.
Proof.
  split.
  - apply (proj1 (screen_mapping_oriented 800 600 ltac:(reflexivity)
                    ltac:(reflexivity)) (3 # 10)%Q (4 # 10)%Q (7 # 10)%Q).
    discriminate.
  - apply (proj1 (proj2 (proj1 (proj2 (proj2 (proj2 (proj2 (proj2 (proj2 (proj2
             (proj2 (screen_mapping_oriented 800 600 ltac:(reflexivity)
                       ltac:(reflexivity)))))))))) 900%Q 10%Q))).
    discriminate.
Defined.

(** X28: The coordinate system class, on a canvas of [w] by [h] pixels,
    both above 100.  The screen point [vaToScreen] gives for a point of
    the V-A plane is one that [isScreenCoordinateValid] accepts; the
    V-A point [screenToVA] gives for any screen point is one that
    [isVACoordinateValid] accepts, and for a screen point that
    [isScreenCoordinateValid] refuses it lies on the edge of the plane;
    the corners of the plane go to the corners of the padded area. *)
Theorem coordinate_system_valid (w h : Z) :
  (100 < w)%Z -> (100 < h)%Z ->
  let transform :=
    CoordinateSystem.calculateTransform (inject_Z w) (inject_Z h) in
  (∀ v a, (-1 <= v <= 1)%Q -> (-1 <= a <= 1)%Q ->
     CoordinateSystem.isScreenCoordinateValid transform
       (fst (CoordinateSystem.vaToScreen transform v a))
       (snd (CoordinateSystem.vaToScreen transform v a)) = true) ∧
  (∀ x y,
     CoordinateSystem.isVACoordinateValid
       (fst (CoordinateSystem.screenToVA transform x y))
       (snd (CoordinateSystem.screenToVA transform x y)) = true) ∧
  (∀ x y,
     CoordinateSystem.isScreenCoordinateValid transform x y = false ->
     (fst (CoordinateSystem.screenToVA transform x y) == -1)%Q ∨
     (fst (CoordinateSystem.screenToVA transform x y) == 1)%Q ∨
     (snd (CoordinateSystem.screenToVA transform x y) == -1)%Q ∨
     (snd (CoordinateSystem.screenToVA transform x y) == 1)%Q) ∧
  (fst (CoordinateSystem.vaToScreen transform (-1) 1) == 60)%Q ∧
  (snd (CoordinateSystem.vaToScreen transform (-1) 1) == 40)%Q ∧
  (fst (CoordinateSystem.vaToScreen transform 1 (-1)) == inject_Z w - 40)%Q ∧
  (snd (CoordinateSystem.vaToScreen transform 1 (-1)) == inject_Z h - 60)%Q.
Proof.
  intros Hw Hh transform. subst transform.
  pose proof (canvas_extent w Hw) as HW. pose proof (canvas_extent h Hh) as HH.
  generalize dependent (inject_Z w). intros W HW.
  generalize dependent (inject_Z h). intros H HH.
  assert (Hew : (0 < W - 60 - 40)%Q) by lra.
  assert (Heh : (0 < H - 40 - 60)%Q) by lra.
  unfold CoordinateSystem.calculateTransform,
    CoordinateSystem.vaToScreen, CoordinateSystem.screenToVA,
    CoordinateSystem.isScreenCoordinateValid, CoordinateSystem.isVACoordinateValid,
    CoordinateSystem.clamp,
    VisualizationConst.CANVAS_PADDING_LEFT, VisualizationConst.CANVAS_PADDING_RIGHT,
    VisualizationConst.CANVAS_PADDING_TOP, VisualizationConst.CANVAS_PADDING_BOTTOM.
  cbn [fst snd CoordinateSystem.width CoordinateSystem.height
       CoordinateSystem.offsetX CoordinateSystem.offsetY].
  split.
  { intros v a Hv Ha. unfold num_ge.
    pose proof (scaled_within (v - -1) _ ltac:(lra) Hew).
    pose proof (scaled_within (a - -1) _ ltac:(lra) Heh).
    rewrite !andb_true_iff, !Qle_bool_iff. repeat split; lra. }
  split.
  { intros x y. unfold num_ge.
    rewrite !andb_true_iff, !Qle_bool_iff.
    repeat split; apply clamp_range. }
  split.
  { intros x y Hinvalid. unfold num_ge in Hinvalid.
    rewrite !andb_false_iff in Hinvalid.
    assert (Hnot : ∀ p q, Qle_bool p q = false -> (q <= p)%Q).
    { intros p q Hb. destruct (Qlt_le_dec q p) as [Hlt|Hle];
        [apply Qlt_le_weak; exact Hlt|].
      apply Qle_bool_iff in Hle. congruence. }
    destruct Hinvalid as [[[Hx|Hx]|Hy]|Hy]; apply Hnot in Hx || apply Hnot in Hy.
    - left. apply clamp_low.
      pose proof (ratio_low (x - 60) _ ltac:(lra) Hew). lra.
    - right. left. apply clamp_high.
      pose proof (ratio_high (x - 60) (W - 60 - 40) ltac:(lra) Hew). lra.
    - right. right. right. apply clamp_high.
      pose proof (ratio_high (H - 40 - 60 - (y - 40)) (H - 40 - 60) ltac:(lra) Heh). lra.
    - right. right. left. apply clamp_low.
      pose proof (ratio_low (H - 40 - 60 - (y - 40)) _ ltac:(lra) Heh). lra. }
  repeat split; field.
Qed.

Lemma coordinate_system_valid_witness :
  CoordinateSystem.isVACoordinateValid
    (fst (CoordinateSystem.screenToVA
            (CoordinateSystem.calculateTransform 800 600) 900 10))
    (snd (CoordinateSystem.screenToVA
            (CoordinateSystem.calculateTransform 800 600) 900 10))
  = true.
Proof.
  apply (proj1 (proj2 (coordinate_system_valid 800 600 ltac:(reflexivity)
                         ltac:(reflexivity))) 900%Q 10%Q).
Defined.

End ScreenCoordinates.

(** ** Colour scales *)

Section ColourScales.

Import ColorScales.

Lemma scale_index (scale : list string) (x : Q) :
  length scale = 5 ->
  ((0 <= x)%Q ->
     ∃ color, at_index scale (Z.min (Qfloor x) 4) = Some color ∧ In color scale) ∧
  ((x < 0)%Q -> at_index scale (Z.min (Qfloor x) 4) = None) ∧
  ((4 <= x)%Q -> at_index scale (Z.min (Qfloor x) 4) = scale !! 4).
Proof.
  intros Hlen. unfold at_index. split; [|split].
  - intros Hx.
    assert (Hfloor : (0 <= Qfloor x)%Z).
    { change 0%Z with (Qfloor 0). apply Qfloor_resp_le. exact Hx. }
    rewrite (proj2 (Z.ltb_ge _ _)) by lia.
    destruct (lookup_lt_is_Some_2 scale (Z.to_nat (Z.min (Qfloor x) 4)))
      as [color Hcolor]; [lia|].
    exists color. split; [exact Hcolor|].
    apply list_elem_of_In. apply (list_elem_of_lookup_2 _ _ _ Hcolor).
  - intros Hx.
    assert (Hfloor : (Qfloor x < 0)%Z).
    { rewrite Zlt_Qlt. apply Qle_lt_trans with x; [apply Qfloor_le | exact Hx]. }
    rewrite (proj2 (Z.ltb_lt _ _)) by lia. reflexivity.
  - intros Hx.
    assert (Hfloor : (4 <= Qfloor x)%Z).
    { change 4%Z with (Qfloor 4). apply Qfloor_resp_le. exact Hx. }
    rewrite (proj2 (Z.ltb_ge _ _)) by lia.
    rewrite Z.min_r by lia. reflexivity.
Qed.

(** X29: [getValenceColor] and [getArousalColor] answer a colour of their
    scale for every value from -1 upwards, the last colour of the scale
    from 1 upwards, and no colour at all ([undefined]) for a value below
    -1, where the index into the scale is negative. *)
Theorem scale_colors value :
  ((-1 <= value)%Q ->
     (∃ color, getValenceColor value = Some color ∧ In color VALENCE_SCALE) ∧
     (∃ color, getArousalColor value = Some color ∧ In color AROUSAL_SCALE)) ∧
  ((value < -1)%Q ->
     getValenceColor value = None ∧ getArousalColor value = None) ∧
  ((1 <= value)%Q ->
     getValenceColor value = Some "#22C55E" ∧
     getArousalColor value = Some "#EC4899").
Proof.
  unfold getValenceColor, getArousalColor.
  change (Z.of_nat (length VALENCE_SCALE - 1)) with 4%Z.
  change (Z.of_nat (length AROUSAL_SCALE - 1)) with 4%Z.
  change (inject_Z 4) with 4%Q.
  destruct (scale_index VALENCE_SCALE ((value + 1) / 2 * 4) eq_refl)
    as (Hv & Hvlow & Hvhigh).
  destruct (scale_index AROUSAL_SCALE ((value + 1) / 2 * 4) eq_refl)
    as (Ha & Halow & Hahigh).
  assert (Heq : ((value + 1) / 2 * 4 == 2 * value + 2)%Q) by field.
  split; [|split].
  - intros Hvalue. split; [apply Hv | apply Ha]; rewrite Heq; lra.
  - intros Hvalue. split; [apply Hvlow | apply Halow]; rewrite Heq; lra.
  - intros Hvalue. split.
    + rewrite Hvhigh by (rewrite Heq; lra). reflexivity.
    + rewrite Hahigh by (rewrite Heq; lra). reflexivity.
Qed.

End ColourScales.
